(** * Section practice tracker: metronome, tempo suggestion, session control

    A shallow embedding of [section_practice.py]:
    - [Metronome]: the class [BeepMetronome] (parameters, start/stop, the
      body of the cadence thread [_run]) with clock values as exact
      rationals;
    - [Binary64] and [Metronome64]: IEEE double arithmetic on the rationals
      that doubles denote, and [_run] with its deadline computed in that
      arithmetic;
    - [Suggest]: [overlap] and [PracticeTracker._compute_suggestion] on logs
      where no division leaves the double range; [SuggestExn]: the same
      method with the [OverflowError] of [succ / reps];
    - [Log]: the dataclass [SessionRow] and [append_csv] on the session
      log;
    - [Tracker]: the session part of [PracticeTracker]
      ([start_session], [add_rep], [add_success], [reset_counts],
      [cancel_session], [finish_and_save]);
    - [Songs]: the song index ([load_songs], [next_song_index],
      [select_song_by_index], [add_song]).

    Python [int] is [Z].  In [Metronome] and [Tracker] clock readings
    ([time.perf_counter()], [time.time()]) and the values computed from
    them are exact rationals ([Q]); [Metronome64] rounds every sum and
    quotient to the nearest double.  The float comparison
    [acc >= SUCCESS_THRESHOLD] is represented exactly, see
    [Suggest.acc_ge_threshold].  Widgets, message boxes and the on-screen
    log are left out; what they report is kept as a result value. *)

From Stdlib Require Import ZArith List Lia Bool QArith Qminmax Qround Qabs Qpower
  Lqa String Permutation Sorted.
Import ListNotations.

Open Scope Z_scope.

(** Exceptions that leave a method, and the result of a call that may
    raise. *)
Inductive exn : Type :=
| ValueError
| TypeError
| OSError
| OverflowError
| ZeroDivisionError.

Inductive result (A : Type) : Type :=
| Ok (a : A)
| Raise (e : exn).

Arguments Ok {A} a.
Arguments Raise {A} e.

(* ================================================================== *)
(** * BeepMetronome *)
(* ================================================================== *)

Module Metronome.

(** The object state.  [thread_alive] stands for
    [self._thread is not None and self._thread.is_alive()], [stop_set] for
    [self._stop.is_set()]. *)
Record BeepMetronome : Type := mkMetro {
  thread_alive : bool;
  stop_set : bool;
  bpm : Z;
  beats_per_bar : Z;
  freq_accent : Z;
  freq_normal : Z;
  beep_ms : Z
}.

(** [BeepMetronome.__init__] *)
Definition init : BeepMetronome :=
  {| thread_alive := false; stop_set := false;
     bpm := 120; beats_per_bar := 4;
     freq_accent := 1100; freq_normal := 800; beep_ms := 30 |}.

(** [update]: both assignments happen under [self._lock]. *)
Definition update (m : BeepMetronome) (bpm' beats_per_bar' : Z) : BeepMetronome :=
  {| thread_alive := thread_alive m;
     stop_set := stop_set m;
     bpm := Z.max 1 (Z.min 400 bpm');
     beats_per_bar := Z.max 1 (Z.min 32 beats_per_bar');
     freq_accent := freq_accent m;
     freq_normal := freq_normal m;
     beep_ms := beep_ms m |}.

Definition is_running (m : BeepMetronome) : bool := thread_alive m.

(** [start]: [update] comes first, then the running test; only a metronome
    that is not running clears the stop event and gets a new thread. *)
Definition start (m : BeepMetronome) (bpm' beats_per_bar' : Z) : BeepMetronome :=
  let m1 := update m bpm' beats_per_bar' in
  if is_running m1 then m1
  else {| thread_alive := true;
          stop_set := false;
          bpm := bpm m1;
          beats_per_bar := beats_per_bar m1;
          freq_accent := freq_accent m1;
          freq_normal := freq_normal m1;
          beep_ms := beep_ms m1 |}.

(** [stop]: sets the event, nothing else. *)
Definition stop (m : BeepMetronome) : BeepMetronome :=
  {| thread_alive := thread_alive m;
     stop_set := true;
     bpm := bpm m;
     beats_per_bar := beats_per_bar m;
     freq_accent := freq_accent m;
     freq_normal := freq_normal m;
     beep_ms := beep_ms m |}.

(** ** The cadence thread [_run]

    The local state of the loop is [beat] and [next_t].  One pass of the
    loop reads, in this order, the stop event, the pair [(bpm, beats_per_bar)]
    under the lock, and the clock; these readings are the pass's
    observation. *)
Record LoopState : Type := mkLoop {
  beat : Z;
  next_t : Q
}.

Record Obs : Type := mkObs {
  obs_stop : bool;
  obs_bpm : Z;
  obs_bpb : Z;
  obs_now : Q
}.

(** What a pass does: leave the loop, sleep, or beep.  A beep carries the
    frequency chosen and the clock reading of its pass. *)
Inductive Action : Type :=
| Exit
| Sleep (d : Q)
| Beep (freq : Z) (at_time : Q).

(** [interval = 60.0 / max(1, bpm)], as an exact fraction; the double
    the program computes is [Metronome64.interval]. *)
Definition interval (bpm' : Z) : Q := 60 / inject_Z (Z.max 1 bpm').

(** One pass of [while not self._stop.is_set()], with the deadline in
    exact arithmetic ([Metronome64.iteration] has it in doubles).  An
    exception of [winsound.Beep] is caught and dropped, so the two
    assignments after it are always made.  [beats_per_bar] is at least 1
    on every path that stores it, so [%] is never applied to 0. *)
Definition iteration (m : BeepMetronome) (s : LoopState) (o : Obs)
  : LoopState * Action :=
  if obs_stop o then (s, Exit)
  else
    let now := obs_now o in
    if Qlt_le_dec now (next_t s) then
      (s, Sleep (Qmin (1 # 100) (next_t s - now)))
    else
      let freq := if (beat s mod obs_bpb o) =? 0 then freq_accent m
                  else freq_normal m in
      ({| beat := (beat s + 1) mod obs_bpb o;
          next_t := next_t s + interval (obs_bpm o) |},
       Beep freq now).

(** The loop over a finite sequence of observations: the states and
    actions of the passes made, ending with the pass that leaves. *)
Fixpoint run (m : BeepMetronome) (s : LoopState) (obs : list Obs)
  : list (LoopState * Action) :=
  match obs with
  | [] => []
  | o :: rest =>
      let '(s', a) := iteration m s o in
      match a with
      | Exit => [(s', a)]
      | _ => (s', a) :: run m s' rest
      end
  end.

(** Clock readings of the beeps, in order. *)
Fixpoint beep_times (tr : list (LoopState * Action)) : list Q :=
  match tr with
  | [] => []
  | (_, Beep _ t) :: rest => t :: beep_times rest
  | _ :: rest => beep_times rest
  end.

(** [_run] starts with [beat = 0] and [next_t = time.perf_counter()]. *)
Definition run_init (t0 : Q) : LoopState := {| beat := 0; next_t := t0 |}.

(** The scheduling condition under which beat times are measured: the
    first clock reading comes at most [delta] after [prev], and every later
    reading at most [delta] after the one before it. *)
Fixpoint polled_within (delta prev : Q) (obs : list Obs) : Prop :=
  match obs with
  | [] => True
  | o :: rest =>
      (obs_now o <= prev + delta)%Q /\ polled_within delta (obs_now o) rest
  end.

(** What can happen to a metronome object: the three public calls, and the
    end of the thread, which comes only after the loop has seen the stop
    event. *)
Inductive event : Type :=
| CallUpdate (bpm' beats_per_bar' : Z)
| CallStart (bpm' beats_per_bar' : Z)
| CallStop
| ThreadExits.

Definition apply_event (m : BeepMetronome) (e : event) : BeepMetronome :=
  match e with
  | CallUpdate b p => update m b p
  | CallStart b p => start m b p
  | CallStop => stop m
  | ThreadExits =>
      if stop_set m then
        {| thread_alive := false;
           stop_set := stop_set m;
           bpm := bpm m;
           beats_per_bar := beats_per_bar m;
           freq_accent := freq_accent m;
           freq_normal := freq_normal m;
           beep_ms := beep_ms m |}
      else m
  end.

(** A metronome running at 120 bpm in 4. *)
Definition running_120_4 : BeepMetronome := start init 120 4.

(** A run at 400 bpm in 4 with the clock read every twentieth of a
    second, from 0 on. *)
Definition steady_polls : list Obs :=
  map (fun k => mkObs false 400 4 (Qmake k 20)) [0; 1; 2; 3; 4; 5; 6].

(** Frequencies of the beeps and durations of the sleeps of a run, in
    order. *)
Fixpoint beep_freqs (tr : list (LoopState * Action)) : list Z :=
  match tr with
  | [] => []
  | (_, Beep f _) :: rest => f :: beep_freqs rest
  | _ :: rest => beep_freqs rest
  end.


End Metronome.

(* ================================================================== *)
(** * IEEE doubles *)
(* ================================================================== *)

Module Binary64.

(** A Python [float]: a finite double, given by the rational it denotes
    ([m * 2^e] with [|m| < 2^53] and [-1074 <= e <= 971]), an infinity, or
    a NaN.  The sign of a zero is not kept; no operation below tells the
    two zeros apart. *)
Inductive f64 : Type :=
| Fin (q : Q)
| PosInf
| NegInf
| NaN.

(** [2^e] for an exponent of either sign. *)
Definition pow2 (e : Z) : Q :=
  match e with
  | Z0 => 1%Q
  | Zpos p => inject_Z (Z.pow_pos 2 p)
  | Zneg p => Qmake 1 (Pos.pow 2 p)
  end.

(** The integer nearest to [q], the even one of the two when [q] lies
    halfway. *)
Definition rne (q : Q) : Z :=
  let f := Qfloor q in
  match Qcompare (q - inject_Z f) (1 # 2) with
  | Lt => f
  | Gt => f + 1
  | Eq => if Z.even f then f else f + 1
  end.

(** The binade of a rational other than 0: the [k] with
    [2^k <= |q| < 2^(k+1)].  The difference of the two bit lengths is [k]
    or [k + 1]. *)
Definition ilog2 (q : Q) : Z :=
  let k := Z.log2 (Z.abs (Qnum q)) - Z.log2 (Zpos (Qden q)) in
  if Qle_bool (pow2 k) (Qabs q) then k else k - 1.

(** Rounding to the nearest double, ties to even: 53 significant bits,
    the last of weight [2^(k-52)] in binade [k] and never below
    [2^(-1074)]; a result of magnitude [2^1024] or more is an infinity. *)
Definition round64 (q : Q) : f64 :=
  if Qeq_bool q 0 then Fin 0
  else
    let e := Z.max (ilog2 q - 52) (-1074) in
    let r := (inject_Z (rne (q / pow2 e)) * pow2 e)%Q in
    if Qle_bool (pow2 1024) (Qabs r) then
      if Qle_bool 0 q then PosInf else NegInf
    else Fin (Qred r).

(** [x + y] on floats. *)
Definition fadd (x y : f64) : f64 :=
  match x, y with
  | NaN, _ | _, NaN => NaN
  | PosInf, NegInf | NegInf, PosInf => NaN
  | PosInf, _ | _, PosInf => PosInf
  | NegInf, _ | _, NegInf => NegInf
  | Fin a, Fin b => round64 (a + b)
  end.

(** [x - y] on floats. *)
Definition fsub (x y : f64) : f64 :=
  match x, y with
  | NaN, _ | _, NaN => NaN
  | PosInf, PosInf | NegInf, NegInf => NaN
  | PosInf, _ | _, NegInf => PosInf
  | NegInf, _ | _, PosInf => NegInf
  | Fin a, Fin b => round64 (a - b)
  end.

(** [x / y] on floats; a zero divisor raises. *)
Definition fdiv (x y : f64) : result f64 :=
  match y with
  | Fin b =>
      if Qeq_bool b 0 then Raise ZeroDivisionError
      else
        match x with
        | Fin a => Ok (round64 (a / b))
        | PosInf => Ok (if Qle_bool 0 b then PosInf else NegInf)
        | NegInf => Ok (if Qle_bool 0 b then NegInf else PosInf)
        | NaN => Ok NaN
        end
  | NaN => Ok NaN
  | _ =>
      match x with
      | Fin _ => Ok (Fin 0)
      | _ => Ok NaN
      end
  end.

(** [x < y] on floats; false whenever a NaN is compared. *)
Definition flt (x y : f64) : bool :=
  match x, y with
  | NaN, _ | _, NaN => false
  | Fin a, Fin b => negb (Qle_bool b a)
  | NegInf, NegInf => false
  | NegInf, _ => true
  | _, NegInf => false
  | PosInf, _ => false
  | Fin _, PosInf => true
  end.

(** [min(x, y)] of two floats: the second when it is smaller, else the
    first. *)
Definition fmin (x y : f64) : f64 := if flt y x then y else x.

(** The conversion of an [int] that stands as an operand next to a
    float: the nearest double, or [OverflowError] when that is not
    finite. *)
Definition of_int (n : Z) : result f64 :=
  match round64 (inject_Z n) with
  | Fin q => Ok (Fin q)
  | _ => Raise OverflowError
  end.

End Binary64.

(* ================================================================== *)
(** * The cadence thread in double arithmetic *)
(* ================================================================== *)

Module Metronome64.

Import Binary64.

(** The local state of [_run]: [beat] and [next_t], the latter a float. *)
Record LoopState : Type := mkLoop {
  beat : Z;
  next_t : f64
}.

(** What a pass does: leave the loop, sleep, beep, or end the thread with
    an exception.  A beep carries the frequency chosen and the clock
    reading of its pass. *)
Inductive Action : Type :=
| Exit
| Sleep (d : f64)
| Beep (freq : Z) (at_time : Q)
| Raises (e : exn).

(** [interval = 60.0 / max(1, bpm)] *)
Definition interval (bpm' : Z) : result f64 :=
  match of_int (Z.max 1 bpm') with
  | Raise e => Raise e
  | Ok d => fdiv (Fin 60) d
  end.

(** The literal [0.01]. *)
Definition lit_0_01 : f64 := round64 (1 # 100).

(** One pass of [while not self._stop.is_set()], on the observation
    [Metronome.Obs] of the pass: the stop event, the pair
    [(bpm, beats_per_bar)] and the clock reading [now], a finite double.
    [interval] is computed before the clock is read.  An exception of
    [winsound.Beep] is caught and dropped, so the two assignments after it
    are always made. *)
Definition iteration (m : Metronome.BeepMetronome) (s : LoopState)
  (o : Metronome.Obs) : LoopState * Action :=
  if Metronome.obs_stop o then (s, Exit)
  else
    match interval (Metronome.obs_bpm o) with
    | Raise e => (s, Raises e)
    | Ok iv =>
        let now := Fin (Metronome.obs_now o) in
        if flt now (next_t s) then
          (s, Sleep (fmin lit_0_01 (fsub (next_t s) now)))
        else if Metronome.obs_bpb o =? 0 then (s, Raises ZeroDivisionError)
        else
          let freq := if (beat s mod Metronome.obs_bpb o) =? 0
                      then Metronome.freq_accent m
                      else Metronome.freq_normal m in
          ({| beat := (beat s + 1) mod Metronome.obs_bpb o;
              next_t := fadd (next_t s) iv |},
           Beep freq (Metronome.obs_now o))
    end.

(** The loop over a finite sequence of observations: the states and
    actions of the passes made, ending with the pass that leaves or
    raises. *)
Fixpoint run (m : Metronome.BeepMetronome) (s : LoopState)
  (obs : list Metronome.Obs) : list (LoopState * Action) :=
  match obs with
  | [] => []
  | o :: rest =>
      let '(s', a) := iteration m s o in
      match a with
      | Exit | Raises _ => [(s', a)]
      | _ => (s', a) :: run m s' rest
      end
  end.

(** Clock readings of the beeps, in order. *)
Fixpoint beep_times (tr : list (LoopState * Action)) : list Q :=
  match tr with
  | [] => []
  | (_, Beep _ t) :: rest => t :: beep_times rest
  | _ :: rest => beep_times rest
  end.

(** [_run] starts with [beat = 0] and [next_t = time.perf_counter()]. *)
Definition run_init (t0 : Q) : LoopState := {| beat := 0; next_t := Fin t0 |}.

(** ** Vocabulary of the statements about the loop *)

(** The deadline after [k] beeps at a constant interval [iv], from the
    deadline [d0]: [k] float additions. *)
Fixpoint deadline (iv d0 : f64) (k : nat) : f64 :=
  match k with
  | O => d0
  | S k' => fadd (deadline iv d0 k') iv
  end.

(** Each of the next [k] additions of [iv], from the deadline [d] on, moves
    the deadline to a finite value more than [delta] later. *)
Fixpoint advances (delta : Q) (iv d : f64) (k : nat) : Prop :=
  match k with
  | O => True
  | S k' =>
      match d, fadd d iv with
      | Fin x, Fin y => (x + delta < y)%Q /\ advances delta iv (Fin y) k'
      | _, _ => False
      end
  end.


(** The interval of tempo [T] is a positive finite double within one part
    in [2^53] of [60/T]. *)
Definition interval_near (T : Z) : bool :=
  match interval T with
  | Ok (Fin q) =>
      negb (Qle_bool q 0) &&
      Qle_bool (Qabs (q - 60 / inject_Z T)) (60 / inject_Z T * pow2 (-53))
  | _ => false
  end.

(** The tempos [update] can store. *)
Definition stored_tempos : list Z := map Z.of_nat (seq 1 400).

(** A run at 400 bpm in 4 with the clock read every sixteenth of a
    second, from 0 on. *)
Definition steady_polls : list Metronome.Obs :=
  map (fun k => Metronome.mkObs false 400 4 (Qmake k 16))
      [0; 1; 2; 3; 4; 5; 6; 7; 8].

(** A run at 400 bpm in 4 in which each clock reading is the double the
    deadline has reached: 0.0, 0.15, 0.3 and 0.44999999999999996. *)
Definition deadline_polls : list Metronome.Obs :=
  map (fun q => Metronome.mkObs false 400 4 q)
      [0; 5404319552844595 # 36028797018963968;
       5404319552844595 # 18014398509481984;
       2026619832316723 # 4503599627370496]%Q.


End Metronome64.

(* ================================================================== *)
(** * Tempo suggestion *)
(* ================================================================== *)

Module Suggest.

(** A row of [sessions.csv] as [_compute_suggestion] sees it.  Every
    numeric field is read through [safe_int], so a field is kept as the
    outcome of [int(str(x).strip())]: [Some n], or [None] when the
    conversion raises (missing column, empty or non-numeric text).
    [timestamp_start] is the outcome of [parse_timestamp]: a point on the
    time line ([datetime], here the seconds since [datetime.min]) or
    [None]. *)
Definition datetime : Type := Z.
Definition datetime_min : datetime := 0.

Record Row : Type := mkRow {
  song_index : option Z;
  bar_start : option Z;
  bar_end : option Z;
  bpm : option Z;
  reps : option Z;
  success : option Z;
  timestamp_start : option datetime
}.

(** [safe_int(x, default)] with an integer default. *)
Definition safe_int (x : option Z) (default : Z) : Z :=
  match x with
  | Some n => n
  | None => default
  end.

(** [overlap(a1, a2, b1, b2)] *)
Definition overlap (a1 a2 b1 b2 : Z) : bool :=
  Z.max a1 b1 <=? Z.min a2 b2.

(** [if bs > be: bs, be = be, bs] *)
Definition swap_if_gt (bs be : Z) : Z * Z :=
  if be <? bs then (be, bs) else (bs, be).

(** [range(lo, hi + 1)] *)
Definition bar_range (lo hi : Z) : list Z :=
  map (fun i => lo + Z.of_nat i) (seq 0 (Z.to_nat (hi + 1 - lo))).

(** First loop: the rows of the song whose bar interval overlaps
    [[t_start, t_end]].  [safe_int(..., None)] followed by the [is None]
    test skips a row whose [bar_start] or [bar_end] does not convert. *)
Definition row_overlaps (song t_start t_end : Z) (r : Row) : bool :=
  if negb (safe_int (song_index r) (-1) =? song) then false
  else
    match bar_start r, bar_end r with
    | Some bs, Some be =>
        let '(bs, be) := swap_if_gt bs be in
        overlap t_start t_end bs be
    | _, _ => false
    end.

Definition overlapping_rows (sessions : list Row) (song t_start t_end : Z)
  : list Row :=
  filter (row_overlaps song t_start t_end) sessions.

(** [succ / reps >= SUCCESS_THRESHOLD] for [reps > 0].

    [succ / reps] on two ints is the double nearest to the exact quotient
    (ties to even), and the literal [0.90] is the double
    [8106479329266893 / 2^53], whose significand is odd.  So the quotient
    rounds to that double or higher exactly when it lies strictly above the
    midpoint [16212958658533785 / 2^54] between that double and its
    predecessor.  This is the comparison for a quotient within the double
    range; beyond it the division raises [OverflowError], see
    [SuggestExn.division_overflows]. *)
Definition acc_ge_threshold (succ reps : Z) : bool :=
  16212958658533785 * reps <? succ * 2 ^ 54.

(** Body of the inner loop for one row whose division does not overflow:
    [Some bpm] when the row reaches the comparison with [best_min_bpm],
    [None] on every [continue] and when [acc] is below the threshold.
    [SuggestExn.row_candidate] is the body with the exception. *)
Definition row_candidate (bar : Z) (r : Row) : option Z :=
  let '(bs, be) := swap_if_gt (safe_int (bar_start r) 0)
                              (safe_int (bar_end r) 0) in
  if negb ((bs <=? bar) && (bar <=? be)) then None
  else
    let reps' := safe_int (reps r) 0 in
    let succ := safe_int (success r) 0 in
    if reps' <=? 0 then None
    else
      let bpm' := safe_int (bpm r) 0 in
      if bpm' <=? 0 then None
      else if acc_ge_threshold succ reps' then Some bpm'
      else None.

(** One round of the inner loop: [best_min_bpm] after row [r]. *)
Definition keep_lower (bar : Z) (best : option Z) (r : Row) : option Z :=
  match row_candidate bar r with
  | None => best
  | Some b =>
      match best with
      | None => Some b
      | Some m => if b <? m then Some b else Some m
      end
  end.

(** The inner loop over [rows] for one bar. *)
Definition best_min_bpm (rows : list Row) (bar : Z) : option Z :=
  fold_left (keep_lower bar) rows None.

(** The dict [achieved_per_bar], as its items in insertion order (each bar
    is inserted at most once, in increasing order). *)
Definition achieved_per_bar (rows : list Row) (t_start t_end : Z)
  : list (Z * Z) :=
  flat_map
    (fun bar =>
       match best_min_bpm rows bar with
       | Some v => [(bar, v)]
       | None => []
       end)
    (bar_range t_start t_end).

(** [min(achieved_per_bar.values())] on a non-empty dict. *)
Definition min_value (first : Z * Z) (others : list (Z * Z)) : Z :=
  fold_left (fun m kv => Z.min m (snd kv)) others (snd first).

(** [[b for b, v in achieved_per_bar.items() if v == suggested]] *)
Definition bottlenecks (apb : list (Z * Z)) (suggested : Z) : list Z :=
  map fst (filter (fun kv => snd kv =? suggested) apb).

(** [[b for b in range(t_start, t_end + 1) if b not in achieved_per_bar]] *)
Definition missing (apb : list (Z * Z)) (t_start t_end : Z) : list Z :=
  filter (fun b => negb (existsb (fun kv => fst kv =? b) apb))
         (bar_range t_start t_end).

(** Fallback: rows paired with their parsed timestamp; rows whose
    timestamp does not parse are left out, unless none parses, in which
    case every row is paired with [datetime.min].  The rows are given as
    head and tail because the list is not empty at this point, and so is the
    result. *)
Definition parsed (r0 : Row) (rest : list Row)
  : (datetime * Row) * list (datetime * Row) :=
  let p := flat_map
             (fun r =>
                match timestamp_start r with
                | Some ts => [(ts, r)]
                | None => []
                end)
             (r0 :: rest) in
  match p with
  | [] => ((datetime_min, r0), map (fun r => (datetime_min, r)) rest)
  | q :: qs => (q, qs)
  end.

(** [max(ts for ts, _ in parsed)] on a non-empty list. *)
Definition max_ts (first : datetime * Row) (others : list (datetime * Row))
  : datetime :=
  fold_left (fun m p => Z.max m (fst p)) others (fst first).

Definition latest_group (ps : list (datetime * Row)) (m : datetime)
  : list Row :=
  map snd (filter (fun p => fst p =? m) ps).

(** One round of the loop that picks [chosen]: [chosen] after row [r]. *)
Definition choose_step (chosen : option Row) (r : Row) : option Row :=
  let bpm' := safe_int (bpm r) 0 in
  if bpm' <=? 0 then chosen
  else
    match chosen with
    | None => Some r
    | Some c =>
        if bpm' <? safe_int (bpm c) (10 ^ 9) then Some r else chosen
    end.

(** The loop that picks [chosen] from [latest_group]. *)
Definition choose (group : list Row) : option Row :=
  fold_left choose_step group None.

(** [acc = (succ / reps) if reps > 0 else 0.0], as an exact fraction. *)
Definition accuracy (r : Row) : Q :=
  let reps' := safe_int (reps r) 0 in
  let succ := safe_int (success r) 0 in
  if 0 <? reps' then Qmake succ (Z.to_pos reps') else 0%Q.

Inductive Kind : Type := none | achieved | latest.

(** What the [details] text is built from.  The lists of bars are cut to
    their first ten entries, with a flag for the ellipsis. *)
Inductive Details : Type :=
| NoLog
| AchievedDetail (suggested : Z)
    (bn_shown : list Z) (bn_more : bool)
    (missing_shown : list Z) (missing_more : bool)
| LatestInvalid
| LatestDetail (bpm' : Z) (acc : Q) (chosen : Row).

Record Suggestion : Type := mkSuggestion {
  kind : Kind;
  suggested_bpm_value : option Z;
  details : Details
}.

Definition _compute_suggestion
  (sessions : list Row) (song t_start t_end : Z) : Suggestion :=
  match overlapping_rows sessions song t_start t_end with
  | [] => {| kind := none; suggested_bpm_value := None; details := NoLog |}
  | r0 :: rest =>
      let rows := r0 :: rest in
      match achieved_per_bar rows t_start t_end with
      | first :: others =>
          let apb := first :: others in
          let suggested := min_value first others in
          let bns := bottlenecks apb suggested in
          let mis := missing apb t_start t_end in
          {| kind := achieved;
             suggested_bpm_value := Some suggested;
             details := AchievedDetail suggested
                          (firstn 10 bns) (10 <? Z.of_nat (List.length bns))
                          (firstn 10 mis) (10 <? Z.of_nat (List.length mis)) |}
      | [] =>
          let '(p, ps) := parsed r0 rest in
          let m := max_ts p ps in
          match choose (latest_group (p :: ps) m) with
          | None => {| kind := latest; suggested_bpm_value := None;
                       details := LatestInvalid |}
          | Some chosen =>
              let bpm' := safe_int (bpm chosen) 0 in
              {| kind := latest;
                 suggested_bpm_value := Some bpm';
                 details := LatestDetail bpm' (accuracy chosen) chosen |}
          end
      end
  end.

(** ** Vocabulary of the statements about [_compute_suggestion] *)

(** The normalized bar interval of a row contains [bar]. *)
Definition covers (r : Row) (bar : Z) : Prop :=
  exists bs be : Z,
    bar_start r = Some bs /\ bar_end r = Some be /\
    Z.min bs be <= bar <= Z.max bs be.

(** The rows the bar loop counts for a bar it covers: positive repetition
    count, positive tempo, and [success / reps >= 0.90] as the program
    evaluates it. *)
Definition achieving (r : Row) : Prop :=
  0 < safe_int (reps r) 0 /\
  0 < safe_int (bpm r) 0 /\
  acc_ge_threshold (safe_int (success r) 0) (safe_int (reps r) 0) = true.

Definition tempo (r : Row) : Z := safe_int (bpm r) 0.

(** [v] is the lowest tempo among the achieving rows that cover [bar]. *)
Definition bar_minimum (rows : list Row) (bar v : Z) : Prop :=
  (exists r, In r rows /\ covers r bar /\ achieving r /\ tempo r = v) /\
  (forall r, In r rows -> covers r bar -> achieving r -> v <= tempo r).

(** [r] belongs to the most recent rows: its timestamp parses and no
    parsed timestamp among [rows] is later; or no timestamp among [rows]
    parses at all. *)
Definition most_recent (rows : list Row) (r : Row) : Prop :=
  match timestamp_start r with
  | Some t =>
      forall r' t', In r' rows -> timestamp_start r' = Some t' -> t' <= t
  | None => forall r', In r' rows -> timestamp_start r' = None
  end.

(** Rows used in the examples: song 1, bars 1 to 8, started at second 0
    unless said otherwise. *)
Definition example_row (bpm' reps' success' : Z) (ts : datetime) : Row :=
  {| song_index := Some 1; bar_start := Some 1; bar_end := Some 8;
     bpm := Some bpm'; reps := Some reps'; success := Some success';
     timestamp_start := Some ts |}.

(** The two rows of the worked example of the achieved case, and the two
    rows, started at the same second, on which the fallback is tried. *)
Definition example_achieved_log : list Row :=
  [example_row 100 10 9 0; example_row 120 10 10 0].

Definition example_tie_log : list Row :=
  [example_row 0 5 2 100; example_row 120 5 2 100].

End Suggest.

(* ================================================================== *)
(** * Tempo suggestion with the overflow of the division *)
(* ================================================================== *)

Module SuggestExn.

Import Suggest.

(** [succ / reps] on two ints with [reps > 0] raises [OverflowError] when
    the quotient, rounded to 53 bits, is not a finite double: that is from
    the midpoint [2^1024 - 2^970] between the largest double and [2^1024]
    on, in either sign. *)
Definition division_overflows (succ reps : Z) : bool :=
  (2 ^ 1024 - 2 ^ 970) * reps <=? Z.abs succ.

(** Body of the inner loop for one row.  The division comes after the
    test of [reps] and before the test of [bpm]. *)
Definition row_candidate (bar : Z) (r : Row) : result (option Z) :=
  let '(bs, be) := swap_if_gt (safe_int (bar_start r) 0)
                              (safe_int (bar_end r) 0) in
  if negb ((bs <=? bar) && (bar <=? be)) then Ok None
  else
    let reps' := safe_int (reps r) 0 in
    let succ := safe_int (success r) 0 in
    if reps' <=? 0 then Ok None
    else if division_overflows succ reps' then Raise OverflowError
    else
      let bpm' := safe_int (bpm r) 0 in
      if bpm' <=? 0 then Ok None
      else if acc_ge_threshold succ reps' then Ok (Some bpm')
      else Ok None.

(** One round of the inner loop: [best_min_bpm] after row [r]. *)
Definition keep_lower (bar : Z) (best : option Z) (r : Row)
  : result (option Z) :=
  match row_candidate bar r with
  | Raise e => Raise e
  | Ok None => Ok best
  | Ok (Some b) =>
      match best with
      | None => Ok (Some b)
      | Some m => Ok (if b <? m then Some b else Some m)
      end
  end.

(** The inner loop over [rows] for one bar, from the value [best]. *)
Fixpoint best_min_bpm_from (bar : Z) (rows : list Row) (best : option Z)
  : result (option Z) :=
  match rows with
  | [] => Ok best
  | r :: rest =>
      match keep_lower bar best r with
      | Raise e => Raise e
      | Ok best' => best_min_bpm_from bar rest best'
      end
  end.

Definition best_min_bpm (rows : list Row) (bar : Z) : result (option Z) :=
  best_min_bpm_from bar rows None.

(** The outer loop over the bars: the items of [achieved_per_bar] in
    insertion order. *)
Fixpoint achieved_per_bar_of (rows : list Row) (bars : list Z)
  : result (list (Z * Z)) :=
  match bars with
  | [] => Ok []
  | bar :: rest =>
      match best_min_bpm rows bar with
      | Raise e => Raise e
      | Ok best =>
          match achieved_per_bar_of rows rest with
          | Raise e => Raise e
          | Ok apb =>
              Ok (match best with
                  | Some v => (bar, v) :: apb
                  | None => apb
                  end)
          end
      end
  end.

Definition achieved_per_bar (rows : list Row) (t_start t_end : Z)
  : result (list (Z * Z)) :=
  achieved_per_bar_of rows (bar_range t_start t_end).

(** [acc = (succ / reps) if reps > 0 else 0.0], as an exact fraction. *)
Definition accuracy (r : Row) : result Q :=
  let reps' := safe_int (reps r) 0 in
  let succ := safe_int (success r) 0 in
  if 0 <? reps' then
    if division_overflows succ reps' then Raise OverflowError
    else Ok (Qmake succ (Z.to_pos reps'))
  else Ok 0%Q.

Definition _compute_suggestion
  (sessions : list Row) (song t_start t_end : Z) : result Suggestion :=
  match overlapping_rows sessions song t_start t_end with
  | [] => Ok {| kind := none; suggested_bpm_value := None; details := NoLog |}
  | r0 :: rest =>
      let rows := r0 :: rest in
      match achieved_per_bar rows t_start t_end with
      | Raise e => Raise e
      | Ok (first :: others) =>
          let apb := first :: others in
          let suggested := min_value first others in
          let bns := bottlenecks apb suggested in
          let mis := missing apb t_start t_end in
          Ok {| kind := achieved;
                suggested_bpm_value := Some suggested;
                details := AchievedDetail suggested
                             (firstn 10 bns) (10 <? Z.of_nat (List.length bns))
                             (firstn 10 mis) (10 <? Z.of_nat (List.length mis)) |}
      | Ok [] =>
          let '(p, ps) := parsed r0 rest in
          let m := max_ts p ps in
          match choose (latest_group (p :: ps) m) with
          | None => Ok {| kind := latest; suggested_bpm_value := None;
                          details := LatestInvalid |}
          | Some chosen =>
              match accuracy chosen with
              | Raise e => Raise e
              | Ok acc =>
                  let bpm' := safe_int (bpm chosen) 0 in
                  Ok {| kind := latest;
                        suggested_bpm_value := Some bpm';
                        details := LatestDetail bpm' acc chosen |}
              end
          end
      end
  end.

(** ** Vocabulary of the statements *)

(** The division [success / reps] of the row is made, and overflows. *)
Definition row_overflows (r : Row) : bool :=
  (0 <? safe_int (reps r) 0) &&
  division_overflows (safe_int (success r) 0) (safe_int (reps r) 0).

(** The bar test of the inner loop. *)
Definition covers_bar (bar : Z) (r : Row) : bool :=
  let '(bs, be) := swap_if_gt (safe_int (bar_start r) 0)
                              (safe_int (bar_end r) 0) in
  (bs <=? bar) && (bar <=? be).

(** A row with one repetition and a success count of 401 digits. *)
Definition example_overflow_row : Row :=
  {| song_index := Some 1; bar_start := Some 9; bar_end := Some 12;
     bpm := Some 100; reps := Some 1; success := Some (10 ^ 400);
     timestamp_start := Some 0 |}.

End SuggestExn.

(* ================================================================== *)
(** * The session log file *)
(* ================================================================== *)

Module Log.

(** The dataclass [SessionRow].  [session_id] and [timestamp_start] are
    copied from attributes that hold [None] outside a session. *)
Record SessionRow : Type := mkSessionRow {
  session_id : option string;
  timestamp_start : option string;
  timestamp_end : string;
  duration_sec : Q;
  song_index : Z;
  song_name : string;
  bar_start : Z;
  bar_end : Z;
  bpm : Z;
  reps : Z;
  success : Z;
  note : string
}.

(** [append_csv(SESSIONS_CSV, SESSIONS_FIELDS, asdict(row))].  The file is
    the sequence of the data rows written to it.  The text of a row is
    written after the last byte of the file, so the rows read back are
    these rows when the file ends with a line end; after a last line
    without one the text continues that line.  Whether the operating
    system lets the file be opened and written is an input: with
    [disk_ok = false] the call raises; a failed call is taken to leave the
    file as it was. *)
Definition append_csv (file : list SessionRow) (disk_ok : bool)
  (row : SessionRow) : result (list SessionRow) :=
  if disk_ok then Ok (file ++ [row]) else Raise OSError.

End Log.

(* ================================================================== *)
(** * PracticeTracker: session state *)
(* ================================================================== *)

Module Tracker.

(** Text of an entry widget, as the validation reads it: empty after
    [strip()], or text on which [int()] gives [Some n] or raises ([None]). *)
Inductive entry : Type :=
| Blank
| Text (value : option Z).

(** The attributes of [PracticeTracker] that the session methods read or
    write. *)
Record PracticeTracker : Type := mkTracker {
  selected_song_index : option Z;
  selected_song_name : option string;
  selected_beats_per_bar : Z;
  bar_start_var : entry;
  bar_end_var : entry;
  bpm_var : entry;
  note_var : string;
  active : bool;
  session_id : option string;
  t_start_iso : option string;
  t_start_epoch : option Q;
  locked_bar_start : option Z;
  locked_bar_end : option Z;
  locked_bpm : option Z;
  reps : Z;
  success : Z;
  metro : Metronome.BeepMetronome
}.

(** Assignment to the session attributes; selection and entry widgets are
    kept. *)
Definition with_session (st : PracticeTracker) (active' : bool)
  (sid iso : option string) (epoch : option Q)
  (lbs lbe lbpm : option Z) (reps' success' : Z)
  (metro' : Metronome.BeepMetronome) : PracticeTracker :=
  {| selected_song_index := selected_song_index st;
     selected_song_name := selected_song_name st;
     selected_beats_per_bar := selected_beats_per_bar st;
     bar_start_var := bar_start_var st;
     bar_end_var := bar_end_var st;
     bpm_var := bpm_var st;
     note_var := note_var st;
     active := active';
     session_id := sid;
     t_start_iso := iso;
     t_start_epoch := epoch;
     locked_bar_start := lbs;
     locked_bar_end := lbe;
     locked_bpm := lbpm;
     reps := reps';
     success := success';
     metro := metro' |}.

Definition with_counters (st : PracticeTracker) (reps' success' : Z)
  : PracticeTracker :=
  with_session st (active st) (session_id st) (t_start_iso st)
    (t_start_epoch st) (locked_bar_start st) (locked_bar_end st)
    (locked_bpm st) reps' success' (metro st).

(** What a button callback reports: nothing (guard at the top), an error
    box, normal completion, or an exception that leaves the method. *)
Inductive outcome : Type :=
| Ignored
| ShowError
| Completed
| Saved (row : Log.SessionRow)
| Propagated (e : exn).

(** [_validate_before_start]: the locked triple, or [ValueError]. *)
Definition _validate_before_start (st : PracticeTracker)
  : result (Z * Z * Z) :=
  match selected_song_index st, selected_song_name st with
  | Some _, Some name =>
      if String.eqb name EmptyString then Raise ValueError
      else
        match bar_start_var st, bar_end_var st with
        | Text (Some bar_start), Text (Some bar_end) =>
            if (bar_start <=? 0) || (bar_end <=? 0) then Raise ValueError
            else if bar_end <? bar_start then Raise ValueError
            else
              match bpm_var st with
              | Text (Some bpm) =>
                  if (bpm <=? 0) || (400 <? bpm) then Raise ValueError
                  else Ok (bar_start, bar_end, bpm)
              | _ => Raise ValueError
              end
        | _, _ => Raise ValueError
        end
  | _, _ => Raise ValueError
  end.

(** [start_session].  [sid], [iso] and [epoch] are the values of
    [new_session_id()], [now_iso()] and [time.time()]. *)
Definition start_session (st : PracticeTracker) (sid iso : string)
  (epoch : Q) : PracticeTracker * outcome :=
  if active st then (st, Ignored)
  else
    match _validate_before_start st with
    | Raise _ => (st, ShowError)
    | Ok (bar_start, bar_end, bpm) =>
        let bpb := if selected_beats_per_bar st =? 0 then 4
                   else selected_beats_per_bar st in
        let metro' :=
          if Metronome.is_running (metro st)
          then Metronome.update (metro st) bpm bpb
          else Metronome.start (metro st) bpm bpb in
        (with_session st true (Some sid) (Some iso) (Some epoch)
           (Some bar_start) (Some bar_end) (Some bpm) 0 0 metro',
         Completed)
    end.

(** [add_rep] *)
Definition add_rep (st : PracticeTracker) (delta : Z) : PracticeTracker :=
  if negb (active st) then st
  else
    let reps' := Z.max 0 (reps st + delta) in
    let success' := if reps' <? success st then reps' else success st in
    with_counters st reps' success'.

(** [add_success] *)
Definition add_success (st : PracticeTracker) (delta : Z) : PracticeTracker :=
  if negb (active st) then st
  else
    let success' := Z.max 0 (success st + delta) in
    let success'' := if reps st <? success' then reps st else success' in
    with_counters st (reps st) success''.

(** [reset_counts] *)
Definition reset_counts (st : PracticeTracker) : PracticeTracker :=
  if negb (active st) then st else with_counters st 0 0.

(** The attribute resets shared by [cancel_session] and the end of
    [finish_and_save]: metronome stopped, session attributes cleared,
    [_set_idle_state]. *)
Definition end_session (st : PracticeTracker) : PracticeTracker :=
  with_session st false None None None None None None 0 0
    (Metronome.stop (metro st)).

(** [cancel_session].  The file is passed through: the method has no write
    to it ([_update_suggestion] only reads). *)
Definition cancel_session (st : PracticeTracker) (file : list Log.SessionRow)
  : PracticeTracker * list Log.SessionRow * outcome :=
  if negb (active st) then (st, file, Ignored)
  else (end_session st, file, Completed).

(** [round(x, 3)]: nearest multiple of 1/1000, ties to the even one. *)
Definition round3 (x : Q) : Q :=
  let y := (x * 1000)%Q in
  let f := Qfloor y in
  let n := match Qcompare (y - inject_Z f) (1 # 2) with
           | Lt => f
           | Gt => f + 1
           | Eq => if Z.even f then f else f + 1
           end in
  Qmake n 1000.

(** The construction of [row] in [finish_and_save], from the state after
    the clamp of [success].  [time.time() - None] and [int(None)] raise
    [TypeError]; [str(None)] is the text [None]. *)
Definition make_row (st : PracticeTracker) (t_end_iso : string) (now : Q)
  : result Log.SessionRow :=
  match t_start_epoch st, selected_song_index st,
        locked_bar_start st, locked_bar_end st, locked_bpm st with
  | Some t0, Some song, Some bs, Some be, Some bpm =>
      Ok {| Log.session_id := session_id st;
            Log.timestamp_start := t_start_iso st;
            Log.timestamp_end := t_end_iso;
            Log.duration_sec := round3 (now - t0);
            Log.song_index := song;
            Log.song_name := match selected_song_name st with
                             | Some name => name
                             | None => "None"%string
                             end;
            Log.bar_start := bs;
            Log.bar_end := be;
            Log.bpm := bpm;
            Log.reps := reps st;
            Log.success := success st;
            Log.note := note_var st |}
  | _, _, _, _, _ => Raise TypeError
  end.

(** [finish_and_save].  [t_end_iso] and [now] are the values of [now_iso()]
    and [time.time()]; [disk_ok] is passed to [append_csv].  An exception
    leaves the method at the point where it is raised, so everything after
    that point (stopping the metronome, the resets) is not done. *)
Definition finish_and_save (st : PracticeTracker) (t_end_iso : string)
  (now : Q) (disk_ok : bool) (file : list Log.SessionRow)
  : PracticeTracker * list Log.SessionRow * outcome :=
  if negb (active st) then (st, file, Ignored)
  else if reps st <=? 0 then (st, file, ShowError)
  else
    let st1 := with_counters st (reps st) (Z.min (success st) (reps st)) in
    match make_row st1 t_end_iso now with
    | Raise e => (st1, file, Propagated e)
    | Ok row =>
        match Log.append_csv file disk_ok row with
        | Raise e => (st1, file, Propagated e)
        | Ok file' => (end_session st1, file', Saved row)
        end
    end.

(** The callbacks as commands, with the values the environment supplies,
    and a tracker running a sequence of them against the log file. *)
Inductive command : Type :=
| StartSession (sid iso : string) (epoch : Q)
| AddRep (delta : Z)
| AddSuccess (delta : Z)
| ResetCounts
| CancelSession
| FinishAndSave (t_end_iso : string) (now : Q) (disk_ok : bool).

Definition exec (c : command) (st : PracticeTracker)
  (file : list Log.SessionRow)
  : PracticeTracker * list Log.SessionRow * outcome :=
  match c with
  | StartSession sid iso epoch =>
      let '(st', o) := start_session st sid iso epoch in (st', file, o)
  | AddRep delta => (add_rep st delta, file, Completed)
  | AddSuccess delta => (add_success st delta, file, Completed)
  | ResetCounts => (reset_counts st, file, Completed)
  | CancelSession => cancel_session st file
  | FinishAndSave t_end_iso now disk_ok =>
      finish_and_save st t_end_iso now disk_ok file
  end.

Fixpoint exec_all (cs : list command) (st : PracticeTracker)
  (file : list Log.SessionRow) : PracticeTracker * list Log.SessionRow :=
  match cs with
  | [] => (st, file)
  | c :: rest =>
      let '(st', file', _) := exec c st file in exec_all rest st' file'
  end.

(** The counters after each call of a sequence of [add_rep] and
    [add_success] calls. *)
Inductive adjust : Type :=
| Rep (delta : Z)
| Succ (delta : Z).

Definition adjust_counters (st : PracticeTracker) (a : adjust)
  : PracticeTracker :=
  match a with
  | Rep delta => add_rep st delta
  | Succ delta => add_success st delta
  end.

Fixpoint states_after (st : PracticeTracker) (calls : list adjust)
  : list PracticeTracker :=
  match calls with
  | [] => []
  | a :: rest =>
      let st' := adjust_counters st a in st' :: states_after st' rest
  end.

(** The invariant of the counters. *)
Definition counters_ordered (st : PracticeTracker) : Prop :=
  0 <= success st <= reps st.

(** A tracker with song 1 selected and bars 1 to 8 at 100 bpm entered, the
    session begun from it, and that session after one repetition. *)
Definition example_idle : PracticeTracker :=
  {| selected_song_index := Some 1;
     selected_song_name := Some "Etude"%string;
     selected_beats_per_bar := 4;
     bar_start_var := Text (Some 1);
     bar_end_var := Text (Some 8);
     bpm_var := Text (Some 100);
     note_var := EmptyString;
     active := false;
     session_id := None;
     t_start_iso := None;
     t_start_epoch := None;
     locked_bar_start := None;
     locked_bar_end := None;
     locked_bpm := None;
     reps := 0;
     success := 0;
     metro := Metronome.init |}.

Definition example_running : PracticeTracker :=
  fst (start_session example_idle "20260101_100000" "2026-01-01 10:00:00" 0).

Definition example_one_rep : PracticeTracker := add_rep example_running 1.

(** ** Suggestion and preview callbacks *)

(** [_parse_bar_inputs] *)
Definition _parse_bar_inputs (st : PracticeTracker) : option (Z * Z) :=
  match bar_start_var st, bar_end_var st with
  | Text (Some a), Text (Some b) =>
      if (a <=? 0) || (b <=? 0) then None
      else if b <? a then None
      else Some (a, b)
  | _, _ => None
  end.

(** [_update_suggestion]: the value it leaves in [_last_suggested_bpm].
    [sessions] is what [load_sessions] reads, [last] the value before the
    call, which stays when a session is active. *)
Definition _update_suggestion (st : PracticeTracker)
  (sessions : list Suggest.Row) (last : option Z) : option Z :=
  if active st then last
  else
    match selected_song_index st with
    | None => None
    | Some song =>
        match _parse_bar_inputs st with
        | None => None
        | Some (t1, t2) =>
            Suggest.suggested_bpm_value
              (Suggest._compute_suggestion sessions song t1 t2)
        end
    end.

Definition with_metro (st : PracticeTracker)
  (metro' : Metronome.BeepMetronome) : PracticeTracker :=
  with_session st (active st) (session_id st) (t_start_iso st)
    (t_start_epoch st) (locked_bar_start st) (locked_bar_end st)
    (locked_bpm st) (reps st) (success st) metro'.

(** [self.bpm_var.set(...)] *)
Definition with_bpm_var (st : PracticeTracker) (e : entry) : PracticeTracker :=
  {| selected_song_index := selected_song_index st;
     selected_song_name := selected_song_name st;
     selected_beats_per_bar := selected_beats_per_bar st;
     bar_start_var := bar_start_var st;
     bar_end_var := bar_end_var st;
     bpm_var := e;
     note_var := note_var st;
     active := active st;
     session_id := session_id st;
     t_start_iso := t_start_iso st;
     t_start_epoch := t_start_epoch st;
     locked_bar_start := locked_bar_start st;
     locked_bar_end := locked_bar_end st;
     locked_bpm := locked_bpm st;
     reps := reps st;
     success := success st;
     metro := metro st |}.

(** [_get_preview_params]: [safe_int(bpm_s, 0)] is 0 for an empty or
    non-numeric entry. *)
Definition _get_preview_params (st : PracticeTracker) : option (Z * Z) :=
  let bpm := match bpm_var st with
             | Text (Some n) => n
             | _ => 0
             end in
  if bpm <=? 0 then None
  else
    Some (bpm, if selected_beats_per_bar st =? 0 then 4
               else selected_beats_per_bar st).

(** [toggle_preview_metronome] *)
Definition toggle_preview_metronome (st : PracticeTracker)
  : PracticeTracker * outcome :=
  if active st then (st, Ignored)
  else if Metronome.is_running (metro st) then
    (with_metro st (Metronome.stop (metro st)), Completed)
  else
    match _get_preview_params st with
    | None => (st, ShowError)
    | Some (bpm, bpb) =>
        (with_metro st (Metronome.start (metro st) bpm bpb), Completed)
    end.

(** [_sync_preview_if_running] *)
Definition _sync_preview_if_running (st : PracticeTracker) : PracticeTracker :=
  if negb (Metronome.is_running (metro st)) then st
  else
    match _get_preview_params st with
    | None => st
    | Some (bpm, bpb) =>
        with_metro st (Metronome.update (metro st) bpm bpb)
    end.

(** [apply_suggested_bpm], with [last] the value of
    [_last_suggested_bpm]. *)
Definition apply_suggested_bpm (st : PracticeTracker) (last : option Z)
  : PracticeTracker :=
  if active st then st
  else
    match last with
    | None => st
    | Some v => _sync_preview_if_running (with_bpm_var st (Text (Some v)))
    end.

(** The cadence thread of the tracker's metronome comes to its end. *)
Definition thread_ends (st : PracticeTracker) : PracticeTracker :=
  with_metro st (Metronome.apply_event (metro st) Metronome.ThreadExits).

(** ** Vocabulary of the statements about saved rows *)

(** What the session methods keep true of a tracker in a session. *)
Definition session_wf (st : PracticeTracker) : Prop :=
  active st = true ->
  (exists song, selected_song_index st = Some song) /\
  (exists t0, t_start_epoch st = Some t0) /\
  (exists bs be bpm,
      locked_bar_start st = Some bs /\ locked_bar_end st = Some be /\
      locked_bpm st = Some bpm /\ 1 <= bs <= be /\ 1 <= bpm <= 400) /\
  0 <= success st <= reps st.

Definition row_valid (row : Log.SessionRow) : Prop :=
  1 <= Log.bar_start row <= Log.bar_end row /\
  1 <= Log.bpm row <= 400 /\
  0 < Log.reps row /\
  0 <= Log.success row <= Log.reps row.

(** 1 while a session is active, 0 otherwise. *)
Definition open_sessions (st : PracticeTracker) : nat :=
  if active st then 1%nat else 0%nat.

Fixpoint count_starts (cs : list command) : nat :=
  match cs with
  | [] => 0%nat
  | StartSession _ _ _ :: rest => S (count_starts rest)
  | _ :: rest => count_starts rest
  end.

End Tracker.

(* ================================================================== *)
(** * PracticeTracker: the song index *)
(* ================================================================== *)

Module Songs.

(** A meter field of [songs.csv]: blank after [strip()], or text on which
    [int()] gives [Some n] or raises ([None]). *)
Inductive cell : Type :=
| Blank
| Text (value : option Z).

(** A row of [songs.csv].  [song_index] is the outcome of [int()] on the
    field, [song_name] the field after [strip()]. *)
Record SongRow : Type := mkSong {
  song_index : option Z;
  song_name : string;
  beats_per_bar : cell;
  beat_unit : cell
}.

(** The in-memory completion of [load_songs]: a blank meter field
    becomes the text 4. *)
Definition fill_meter (c : cell) : cell :=
  match c with
  | Blank => Text (Some 4)
  | _ => c
  end.

Definition fill_defaults (r : SongRow) : SongRow :=
  {| song_index := song_index r;
     song_name := song_name r;
     beats_per_bar := fill_meter (beats_per_bar r);
     beat_unit := fill_meter (beat_unit r) |}.

(** [keyfun] of [load_songs] *)
Definition keyfun (r : SongRow) : Z :=
  match song_index r with
  | Some n => n
  | None => 10 ^ 9
  end.

(** [self.songs.sort(key=keyfun)]: the sort is stable, which fixes its
    result; it is written here as insertion from the right, each row going
    in front of the first row whose key is not smaller. *)
Fixpoint insert_by_key (r : SongRow) (l : list SongRow) : list SongRow :=
  match l with
  | [] => [r]
  | x :: xs =>
      if keyfun r <=? keyfun x then r :: x :: xs
      else x :: insert_by_key r xs
  end.

Definition sort_by_key (l : list SongRow) : list SongRow :=
  fold_right insert_by_key [] l.

(** The order of the keys. *)
Definition key_le (x y : SongRow) : Prop := keyfun x <= keyfun y.

(** [load_songs], from the rows of the file. *)
Definition load_songs (file : list SongRow) : list SongRow :=
  sort_by_key (map fill_defaults file).

(** [next_song_index] *)
Definition next_song_index (songs : list SongRow) : Z :=
  fold_left
    (fun max_idx r =>
       match song_index r with
       | Some n => Z.max max_idx n
       | None => max_idx
       end)
    songs 0 + 1.

(** [safe_int] on a meter field. *)
Definition cell_int (c : cell) (default : Z) : Z :=
  match c with
  | Text (Some n) => n
  | _ => default
  end.

(** The four attributes [select_song_by_index] assigns. *)
Record Selection : Type := mkSelection {
  selected_song_index : Z;
  selected_song_name : string;
  selected_beats_per_bar : Z;
  selected_beat_unit : Z
}.

Definition has_index (idx : Z) (r : SongRow) : bool :=
  match song_index r with
  | Some n => n =? idx
  | None => false
  end.

(** [select_song_by_index]: [None] stands for the return value [False],
    which leaves the selection as it was. *)
Definition select_song_by_index (songs : list SongRow) (idx : Z)
  : option Selection :=
  match find (has_index idx) songs with
  | None => None
  | Some found =>
      Some {| selected_song_index := idx;
              selected_song_name := song_name found;
              selected_beats_per_bar := cell_int (beats_per_bar found) 4;
              selected_beat_unit := cell_int (beat_unit found) 4 |}
  end.

(** [songs.csv] as [append_csv] finds it.  [NoFile]: the file does not
    exist, and the header is written before the row.  [File rows whole]:
    the file exists and [rows] are the rows [csv.DictReader] reads from
    it; [whole] tells whether its first line is the header
    [song_index,song_name,beats_per_bar,beat_unit,created_at] and its last
    line ends with a line end. *)
Inductive csv_file : Type :=
| NoFile
| File (rows : list SongRow) (whole : bool).

Definition rows_of (f : csv_file) : list SongRow :=
  match f with
  | NoFile => []
  | File rows _ => rows
  end.

(** [add_song].  [name] is the entry after [strip()]; the two meter
    fields are the combobox texts; [songs] is [self.songs], [file] is
    [songs.csv]; [disk_ok] tells whether [append_csv] can write.
    [append_csv] writes the text of the row at the end of the file: after
    a whole file it is a new row, and the file is read again and the song
    selected.  After a last line that is not ended, or in a file without
    the header line, the rows the file then holds depend on its text, which
    is not represented: the outcome is [Garbled]. *)
Inductive add_result : Type :=
| Rejected
| Failed
| Added (file' songs' : list SongRow) (selection : option Selection)
| Garbled.

Definition add_song (name : string) (new_bpb_var new_bu_var : cell)
  (songs : list SongRow) (file : csv_file) (disk_ok : bool) : add_result :=
  if String.eqb name EmptyString then Rejected
  else
    let bpb := cell_int new_bpb_var 4 in
    let bu := cell_int new_bu_var 4 in
    if (bpb <=? 0) || (32 <? bpb) then Rejected
    else if negb ((bu =? 2) || (bu =? 4) || (bu =? 8)) then Rejected
    else
      let idx := next_song_index songs in
      if negb disk_ok then Failed
      else
        match file with
        | File _ false => Garbled
        | _ =>
            let file' := rows_of file ++
                         [{| song_index := Some idx;
                             song_name := name;
                             beats_per_bar := Text (Some bpb);
                             beat_unit := Text (Some bu) |}] in
            let songs' := load_songs file' in
            Added file' songs' (select_song_by_index songs' idx)
        end.

(** Three songs as a file might hold them: one complete, one from before
    the meter columns, one with a damaged index. *)
Definition example_file : list SongRow :=
  [ {| song_index := Some 2; song_name := "Blue Bossa"%string;
       beats_per_bar := Text (Some 4); beat_unit := Text (Some 4) |};
    {| song_index := None; song_name := "Untitled"%string;
       beats_per_bar := Text (Some 3); beat_unit := Text (Some 4) |};
    {| song_index := Some 1; song_name := "Donna Lee"%string;
       beats_per_bar := Blank; beat_unit := Blank |} ].

End Songs.

(* ================================================================== *)
(** * Facts about the metronome *)
(* ================================================================== *)

Section MetronomeFacts.

Import Metronome.

Lemma update_bpm_range (m : BeepMetronome) (b p : Z) :
  1 <= bpm (update m b p) <= 400.
Proof. unfold update; simpl; lia. Qed.

Lemma update_bpb_range (m : BeepMetronome) (b p : Z) :
  1 <= beats_per_bar (update m b p) <= 32.
Proof. unfold update; simpl; lia. Qed.

Lemma start_params (m : BeepMetronome) (b p : Z) :
  bpm (start m b p) = bpm (update m b p) /\
  beats_per_bar (start m b p) = beats_per_bar (update m b p).
Proof. unfold start; destruct (is_running (update m b p)); simpl; auto. Qed.

Lemma start_running (m : BeepMetronome) (b p : Z) :
  is_running m = true -> start m b p = update m b p.
Proof.
  intros Hrun. unfold start.
  replace (is_running (update m b p)) with true; reflexivity.
Qed.

Lemma events_keep_range (es : list event) (m : BeepMetronome) :
  1 <= bpm m <= 400 /\ 1 <= beats_per_bar m <= 32 ->
  1 <= bpm (fold_left apply_event es m) <= 400 /\
  1 <= beats_per_bar (fold_left apply_event es m) <= 32.
Proof.
  revert m. induction es as [|e es IH]; intros m Hm; simpl; [exact Hm|].
  apply IH. destruct e as [b p|b p| |]; cbn [apply_event].
  - split; [apply update_bpm_range | apply update_bpb_range].
  - destruct (start_params m b p) as [-> ->].
    split; [apply update_bpm_range | apply update_bpb_range].
  - exact Hm.
  - destruct (stop_set m); [simpl|]; exact Hm.
Qed.

(** C10: [update], and [start] which calls it first, leave the stored
    tempo in [1,400] and the stored beats-per-bar in [1,32]; an argument
    outside the range is replaced by the nearest bound; hence the range
    holds after every sequence of calls on a new metronome. *)
Theorem cadence_parameters_clamped :
  forall (m : BeepMetronome) (b p : Z),
    (1 <= bpm (update m b p) <= 400 /\
     1 <= beats_per_bar (update m b p) <= 32) /\
    (1 <= bpm (start m b p) <= 400 /\
     1 <= beats_per_bar (start m b p) <= 32) /\
    bpm (update m b p) = (if b <? 1 then 1 else if 400 <? b then 400 else b) /\
    beats_per_bar (update m b p) =
      (if p <? 1 then 1 else if 32 <? p then 32 else p) /\
    (forall es : list event,
        1 <= bpm (fold_left apply_event es init) <= 400 /\
        1 <= beats_per_bar (fold_left apply_event es init) <= 32).
Proof.
  intros m b p.
  pose proof (start_params m b p) as [Hb Hp].
  pose proof (update_bpm_range m b p) as Hr1.
  pose proof (update_bpb_range m b p) as Hr2.
  split; [split; assumption|].
  split; [rewrite Hb, Hp; split; assumption|].
  split; [|split].
  - unfold update; simpl.
    destruct (b <? 1) eqn:E1; [lia|]. destruct (400 <? b) eqn:E2; lia.
  - unfold update; simpl.
    destruct (p <? 1) eqn:E1; [lia|]. destruct (32 <? p) eqn:E2; lia.
  - intros es. apply events_keep_range. simpl. lia.
Qed.

(** C3, as stated, fails: a metronome started at 120 bpm in 4 is running,
    and [start 90 3] on it replaces both parameters. *)
Lemma start_on_running_replaces_parameters :
  is_running running_120_4 = true /\
  bpm (start running_120_4 90 3) <> bpm running_120_4 /\
  beats_per_bar (start running_120_4 90 3) <> beats_per_bar running_120_4.
Proof. cbv. repeat split; discriminate. Qed.

(** C3, amended: on a running metronome [start] does what [update] does
    and nothing more.  The thread and the stop event are as before (no
    second cadence is begun), and the tempo and beats-per-bar become the
    arguments clamped to [1,400] and [1,32]. *)
Theorem start_on_running_is_update :
  forall (m : BeepMetronome) (b p : Z),
    is_running m = true ->
    start m b p = update m b p /\
    thread_alive (start m b p) = thread_alive m /\
    stop_set (start m b p) = stop_set m /\
    bpm (start m b p) = Z.max 1 (Z.min 400 b) /\
    beats_per_bar (start m b p) = Z.max 1 (Z.min 32 p).
Proof.
  intros m b p Hrun.
  rewrite (start_running m b p Hrun).
  repeat split.
Qed.

Lemma start_on_running_is_update_witness :
  start running_120_4 90 3 = update running_120_4 90 3 /\
  thread_alive (start running_120_4 90 3) = thread_alive running_120_4 /\
  stop_set (start running_120_4 90 3) = stop_set running_120_4 /\
  bpm (start running_120_4 90 3) = Z.max 1 (Z.min 400 90) /\
  beats_per_bar (start running_120_4 90 3) = Z.max 1 (Z.min 32 3).
Proof.
  exact (start_on_running_is_update running_120_4 90 3 eq_refl).
Defined.

(** ** The stop event *)

Lemma stop_idempotent (m : BeepMetronome) : stop (stop m) = stop m.
Proof. reflexivity. Qed.

(** The pass that reads the stop event as set leaves the loop without a
    beep, whatever the clock says. *)
Lemma run_leaves_on_stop (m : BeepMetronome) (s : LoopState) (o : Obs)
  (rest : list Obs) :
  obs_stop o = true ->
  run m s (o :: rest) = [(s, Exit)] /\
  beep_times (run m s (o :: rest)) = [].
Proof.
  intros H. simpl. unfold iteration. rewrite H. split; reflexivity.
Qed.

End MetronomeFacts.

(* ================================================================== *)
(** * Facts about the cadence in double arithmetic *)
(* ================================================================== *)

Section DeadlineFacts.

Import Binary64 Metronome64.

(** ** The interval *)

Lemma stored_tempos_spec (T : Z) : 1 <= T <= 400 -> In T stored_tempos.
Proof.
  intros H. unfold stored_tempos. apply in_map_iff. exists (Z.to_nat T).
  split; [lia|]. apply in_seq. lia.
Qed.

Lemma interval_near_stored : forallb interval_near stored_tempos = true.
Proof. vm_compute. reflexivity. Qed.

(** For every tempo [update] can store, [interval] raises nothing and is
    a positive finite double within one part in [2^53] of [60/T]. *)
Lemma interval_of_stored_tempo (T : Z) :
  1 <= T <= 400 ->
  exists q : Q,
    interval T = Ok (Fin q) /\ (0 < q)%Q /\
    (Qabs (q - 60 / inject_Z T) <= 60 / inject_Z T * pow2 (-53))%Q.
Proof.
  intros H. pose proof interval_near_stored as Hall.
  rewrite forallb_forall in Hall. specialize (Hall T (stored_tempos_spec T H)).
  unfold interval_near in Hall.
  destruct (interval T) as [[q| | |]|e]; try discriminate.
  apply andb_true_iff in Hall as [Hpos Hnear].
  exists q. split; [reflexivity|]. split.
  - apply negb_true_iff in Hpos.
    destruct (Qlt_le_dec 0 q) as [Hlt|Hle]; [exact Hlt|].
    apply Qle_bool_iff in Hle. congruence.
  - apply Qle_bool_iff. exact Hnear.
Qed.

(** ** Rounding *)

(** [round64] on some values whose nearest double is known: one tenth; two
    ties above [2^53], which go to the even significand; the two sides of
    the overflow threshold; two ties among the subnormals. *)
Example round64_samples :
  round64 (1 # 10) = Fin (3602879701896397 # 36028797018963968) /\
  round64 (inject_Z (2 ^ 53 + 1)) = Fin (inject_Z (2 ^ 53)) /\
  round64 (inject_Z (2 ^ 53 + 3)) = Fin (inject_Z (2 ^ 53 + 4)) /\
  round64 (inject_Z (2 ^ 1024 - 2 ^ 970)) = PosInf /\
  round64 (inject_Z (2 ^ 1024 - 2 ^ 970 - 1)) =
    Fin (inject_Z (2 ^ 1024 - 2 ^ 971)) /\
  round64 (1 # 2 ^ 1075) = Fin 0 /\
  round64 (3 # 2 ^ 1075) = Fin (1 # 2 ^ 1073).
Proof. repeat split; vm_compute; reflexivity. Qed.

Lemma pow2_Qpower (e : Z) : (pow2 e == 2 ^ e)%Q.
Proof.
  destruct e as [|p|p].
  - reflexivity.
  - unfold pow2. change (Z.pow_pos 2 p) with (2 ^ Z.pos p).
    rewrite Zpower_Qpower by lia. reflexivity.
  - unfold pow2. change (2 ^ Z.neg p)%Q with (/ (2 ^ Z.pos p))%Q.
    change 2%Q with (inject_Z 2). rewrite <- Zpower_Qpower by lia.
    rewrite <- Pos2Z.inj_pow. reflexivity.
Qed.

Lemma pow2_pos (e : Z) : (0 < pow2 e)%Q.
Proof. rewrite pow2_Qpower. apply Qpower_0_lt. reflexivity. Qed.

Lemma pow2_add (a b : Z) : (pow2 (a + b) == pow2 a * pow2 b)%Q.
Proof.
  rewrite !pow2_Qpower. apply Qpower_plus. intros H. discriminate H.
Qed.

Lemma rne_near (z : Q) : (Qabs (inject_Z (rne z) - z) <= 1 # 2)%Q.
Proof.
  pose proof (Qfloor_le z) as Hlo. pose proof (Qlt_floor z) as Hhi.
  rewrite inject_Z_plus in Hhi. change (inject_Z 1) with 1%Q in Hhi.
  unfold rne.
  destruct (Qcompare (z - inject_Z (Qfloor z)) (1 # 2)) eqn:E.
  - apply Qeq_alt in E.
    destruct (Z.even (Qfloor z)).
    + apply Qabs_Qle_condition. split; lra.
    + rewrite inject_Z_plus. change (inject_Z 1) with 1%Q.
      apply Qabs_Qle_condition. split; lra.
  - apply Qlt_alt in E. apply Qabs_Qle_condition. split; lra.
  - apply Qgt_alt in E. rewrite inject_Z_plus. change (inject_Z 1) with 1%Q.
    apply Qabs_Qle_condition. split; lra.
Qed.

Lemma ilog2_le (x : Q) : ~ (x == 0)%Q -> (pow2 (ilog2 x) <= Qabs x)%Q.
Proof.
  intros Hx. unfold ilog2.
  set (n := Z.abs (Qnum x)). set (d := Z.pos (Qden x)).
  destruct (Qle_bool (pow2 (Z.log2 n - Z.log2 d)) (Qabs x)) eqn:E.
  - apply Qle_bool_iff. exact E.
  - assert (Hn : 0 < n).
    { unfold n. destruct x as [xn xd]. unfold Qeq in Hx. simpl in *. lia. }
    assert (Hd : 0 < d) by (unfold d; lia).
    pose proof (Z.log2_spec n Hn) as [Hn1 _].
    pose proof (Z.log2_spec d Hd) as [_ Hd2].
    pose proof (Z.log2_nonneg n) as Hln. pose proof (Z.log2_nonneg d) as Hld.
    assert (Habs : (Qabs x == inject_Z n / inject_Z d)%Q).
    { destruct x as [xn xd]. unfold n, d. simpl.
      unfold Qabs, Qeq, Qdiv, Qmult, Qinv, inject_Z. simpl. lia. }
    rewrite Habs.
    assert (Hdq : (0 < inject_Z d)%Q) by (unfold Qlt; simpl; lia).
    apply Qle_shift_div_l; [exact Hdq|].
    assert (Hd3 : (inject_Z d <= pow2 (Z.log2 d + 1))%Q).
    { rewrite pow2_Qpower. change 2%Q with (inject_Z 2).
      rewrite <- Zpower_Qpower by lia. rewrite <- Zle_Qle.
      unfold Z.succ in Hd2. lia. }
    assert (Hn3 : (pow2 (Z.log2 n) <= inject_Z n)%Q).
    { rewrite pow2_Qpower. change 2%Q with (inject_Z 2).
      rewrite <- Zpower_Qpower by lia. rewrite <- Zle_Qle. exact Hn1. }
    replace (Z.log2 n) with ((Z.log2 n - Z.log2 d - 1) + (Z.log2 d + 1)) in Hn3 by lia.
    rewrite pow2_add in Hn3.
    pose proof (pow2_pos (Z.log2 n - Z.log2 d - 1)) as Hp.
    assert (pow2 (Z.log2 n - Z.log2 d - 1) * inject_Z d <=
            pow2 (Z.log2 n - Z.log2 d - 1) * pow2 (Z.log2 d + 1))%Q.
    { apply Qmult_le_l; assumption. }
    lra.
Qed.

Lemma round64_error (x y : Q) :
  round64 x = Fin y ->
  (Qabs (y - x) <= Qabs x * pow2 (-53) + pow2 (-1075))%Q.
Proof.
  unfold round64. destruct (Qeq_bool x 0) eqn:E0.
  - apply Qeq_bool_iff in E0. intros H. injection H as <-.
    pose proof (pow2_pos (-1075)). pose proof (pow2_pos (-53)).
    pose proof (Qabs_nonneg x).
    assert (Qabs (0 - x) == Qabs x)%Q.
    { rewrite E0. reflexivity. }
    rewrite H2. rewrite E0. change (Qabs 0) with 0%Q. lra.
  - apply Qeq_bool_neq in E0.
    set (e := Z.max (ilog2 x - 52) (-1074)).
    destruct (Qle_bool (pow2 1024) _); [destruct (Qle_bool 0 x); discriminate|].
    intros H. injection H as <-.
    rewrite (Qred_correct (inject_Z (rne (x / pow2 e)) * pow2 e)).
    pose proof (pow2_pos e) as He.
    pose proof (rne_near (x / pow2 e)) as Hr.
    assert (Hdiff : (Qabs (inject_Z (rne (x / pow2 e)) * pow2 e - x) <=
                     (1 # 2) * pow2 e)%Q).
    { assert (Heq : (inject_Z (rne (x / pow2 e)) * pow2 e - x ==
                     (inject_Z (rne (x / pow2 e)) - x / pow2 e) * pow2 e)%Q).
      { field. intros H0. rewrite H0 in He. apply (Qlt_irrefl 0). exact He. }
      rewrite Heq, Qabs_Qmult. rewrite (Qabs_pos (pow2 e)) by lra.
      apply Qmult_le_compat_r; [exact Hr|lra]. }
    pose proof (ilog2_le x E0) as Hlog.
    pose proof (Qabs_nonneg x) as Hax.
    pose proof (pow2_pos (-53)) as H53. pose proof (pow2_pos (-1075)) as H1075.
    destruct (Z.max_spec (ilog2 x - 52) (-1074)) as [[_ Hm]|[_ Hm]]; fold e in Hm.
    + (* subnormal *)
      assert (Hh : ((1 # 2) * pow2 e == pow2 (-1075))%Q).
      { rewrite Hm. reflexivity. }
      rewrite Hh in Hdiff.
      assert (0 <= Qabs x * pow2 (-53))%Q by (apply Qmult_le_0_compat; lra).
      lra.
    + assert (Hh : ((1 # 2) * pow2 e == pow2 (ilog2 x) * pow2 (-53))%Q).
      { rewrite Hm. replace (ilog2 x - 52) with (ilog2 x + (-52)) by lia.
        rewrite pow2_add. 
        assert (Hc : (pow2 (-53) == (1 # 2) * pow2 (-52))%Q) by reflexivity.
        rewrite Hc. ring. }
      rewrite Hh in Hdiff.
      assert (pow2 (ilog2 x) * pow2 (-53) <= Qabs x * pow2 (-53))%Q.
      { apply Qmult_le_compat_r; lra. }
      lra.
Qed.

(** A double sum differs from the exact sum by at most one part in [2^53]
    of it, or by half the smallest double. *)
Lemma fadd_error (a b y : Q) :
  fadd (Fin a) (Fin b) = Fin y ->
  (Qabs (y - (a + b)) <= Qabs (a + b) * pow2 (-53) + pow2 (-1075))%Q.
Proof. apply round64_error. Qed.

Lemma inject_succ (N : nat) :
  (inject_Z (Z.of_nat (S N)) == 1 + inject_Z (Z.of_nat N))%Q.
Proof.
  rewrite Nat2Z.inj_succ. unfold Z.succ. rewrite inject_Z_plus.
  change (inject_Z 1) with 1%Q. lra.
Qed.

(** After [N] additions the deadline differs from the exact sum
    [t0 + N * q] by at most [N] rounding errors. *)
Lemma deadline_error (q t0 M : Q) :
  forall (N : nat) (yN : Q),
    (forall (k : nat) (y : Q),
        (k < N)%nat -> deadline (Fin q) (Fin t0) k = Fin y ->
        (Qabs (y + q) <= M)%Q) ->
    deadline (Fin q) (Fin t0) N = Fin yN ->
    (Qabs (yN - (t0 + inject_Z (Z.of_nat N) * q)) <=
     inject_Z (Z.of_nat N) * (M * pow2 (-53) + pow2 (-1075)))%Q.
Proof.
  induction N as [|N IH]; intros yN HM HN.
  - injection HN as <-. change (inject_Z (Z.of_nat 0)) with 0%Q.
    apply Qabs_Qle_condition. split; lra.
  - cbn [deadline] in HN.
    destruct (deadline (Fin q) (Fin t0) N) as [y| | |] eqn:Ey;
      try discriminate.
    pose proof (fadd_error y q yN HN) as Hstep.
    pose proof (HM N y (Nat.lt_succ_diag_r N) Ey) as Hy.
    assert (Hprev : (Qabs (y - (t0 + inject_Z (Z.of_nat N) * q)) <=
                     inject_Z (Z.of_nat N) * (M * pow2 (-53) + pow2 (-1075)))%Q).
    { apply IH; [|reflexivity]. intros k y' Hk. apply HM. lia. }
    pose proof (pow2_pos (-53)) as H53.
    assert (Hm : (Qabs (y + q) * pow2 (-53) <= M * pow2 (-53))%Q)
      by (apply Qmult_le_compat_r; lra).
    rewrite inject_succ.
    apply Qabs_Qle_condition in Hprev as [Hp1 Hp2].
    assert (Hs : (Qabs (yN - (y + q)) <= M * pow2 (-53) + pow2 (-1075))%Q) by lra.
    apply Qabs_Qle_condition in Hs as [Hs1 Hs2].
    apply Qabs_Qle_condition. split; lra.
Qed.

(** ** One pass *)

(** A pass either leaves the state alone or, when it beeps, adds the
    interval to the deadline it found, in double arithmetic.  The clock
    reading of the pass decides which, and does not enter the new value. *)
Lemma iteration_deadline (m : Metronome.BeepMetronome) (s : LoopState)
  (o : Metronome.Obs) (iv : f64) :
  interval (Metronome.obs_bpm o) = Ok iv ->
  match snd (iteration m s o) with
  | Beep _ t =>
      next_t (fst (iteration m s o)) = fadd (next_t s) iv /\
      t = Metronome.obs_now o /\
      flt (Fin t) (next_t s) = false
  | _ => fst (iteration m s o) = s
  end.
Proof.
  intros Hiv. unfold iteration. rewrite Hiv.
  destruct (Metronome.obs_stop o); [reflexivity|].
  destruct (flt (Fin (Metronome.obs_now o)) (next_t s)) eqn:E; [reflexivity|].
  destruct (Metronome.obs_bpb o =? 0); [reflexivity|].
  simpl. auto.
Qed.

Lemma flt_fin (a b : Q) : flt (Fin a) (Fin b) = true <-> (a < b)%Q.
Proof.
  simpl. rewrite negb_true_iff. split.
  - intros H. destruct (Qlt_le_dec a b) as [Hlt|Hle]; [exact Hlt|].
    apply Qle_bool_iff in Hle. congruence.
  - intros H. destruct (Qle_bool b a) eqn:E; [|reflexivity].
    apply Qle_bool_iff in E. lra.
Qed.

Lemma flt_fin_false (a b : Q) : flt (Fin a) (Fin b) = false <-> (b <= a)%Q.
Proof.
  simpl. rewrite negb_false_iff. apply Qle_bool_iff.
Qed.

(** ** The deadlines *)

Lemma deadline_shift (iv d : f64) (k : nat) :
  deadline iv (fadd d iv) k = deadline iv d (S k).
Proof.
  induction k as [|k IH]; [reflexivity|].
  change (deadline iv (fadd d iv) (S k)) with (fadd (deadline iv (fadd d iv) k) iv).
  rewrite IH. reflexivity.
Qed.

Lemma deadline_add (iv d : f64) (j k : nat) :
  deadline iv d (j + k) = deadline iv (deadline iv d j) k.
Proof.
  revert d. induction j as [|j IH]; intros d; [reflexivity|].
  change (S j + k)%nat with (S (j + k)).
  rewrite <- !deadline_shift. rewrite IH. reflexivity.
Qed.

Lemma advances_step (delta : Q) (iv : f64) (x : Q) (k : nat) :
  advances delta iv (Fin x) (S k) ->
  exists y : Q,
    fadd (Fin x) iv = Fin y /\ (x + delta < y)%Q /\
    advances delta iv (Fin y) k.
Proof.
  cbn [advances]. destruct (fadd (Fin x) iv) as [y| | |]; try contradiction.
  intros [H1 H2]. exists y. auto.
Qed.

Lemma advances_weaken (delta : Q) (iv : f64) (k : nat) :
  forall x : Q,
    advances delta iv (Fin x) (S k) -> advances delta iv (Fin x) k.
Proof.
  induction k as [|k IH]; intros x H; [exact I|].
  apply advances_step in H as (y & Hy & Hlt & H).
  cbn [advances]. rewrite Hy. split; [exact Hlt|]. apply IH. exact H.
Qed.

Lemma advances_le (delta : Q) (iv : f64) (x : Q) (j k : nat) :
  (j <= k)%nat -> advances delta iv (Fin x) k -> advances delta iv (Fin x) j.
Proof.
  induction 1 as [|k Hle IH]; [auto|].
  intros H. apply IH. apply advances_weaken. exact H.
Qed.

(** While the deadline advances, it is finite and does not go back. *)
Lemma advances_deadline (delta : Q) (iv : f64) (k : nat) :
  (0 <= delta)%Q ->
  forall (x : Q) (j : nat),
    advances delta iv (Fin x) k -> (j <= k)%nat ->
    exists y : Q,
      deadline iv (Fin x) j = Fin y /\ (x <= y)%Q /\
      advances delta iv (Fin y) (k - j).
Proof.
  intros Hdelta. induction k as [|k IH]; intros x j Hadv Hj.
  - assert (j = 0)%nat by lia. subst j. exists x.
    split; [reflexivity|]. split; [lra|exact I].
  - destruct j as [|j].
    + exists x. split; [reflexivity|]. split; [lra|exact Hadv].
    + apply advances_step in Hadv as (y1 & Hy1 & Hlt & Hadv).
      destruct (IH y1 j Hadv) as (y & Hy & Hle & Hrest); [lia|].
      exists y. rewrite <- deadline_shift, Hy1.
      split; [exact Hy|]. split; [lra|exact Hrest].
Qed.

Lemma deadline_mono (delta : Q) (iv : f64) (x : Q) (k j j' : nat) (a b : Q) :
  (0 <= delta)%Q ->
  advances delta iv (Fin x) k ->
  (j <= j')%nat -> (j' <= k)%nat ->
  deadline iv (Fin x) j = Fin a ->
  deadline iv (Fin x) j' = Fin b ->
  (a <= b)%Q.
Proof.
  intros Hdelta Hadv Hj Hj' Ha Hb.
  destruct (advances_deadline delta iv k Hdelta x j Hadv) as (a' & Ha' & _ & Hrest);
    [lia|].
  rewrite Ha in Ha'. injection Ha' as <-.
  destruct (advances_deadline delta iv (k - j) Hdelta a (j' - j) Hrest)
    as (b' & Hb' & Hle & _); [lia|].
  replace j' with (j + (j' - j))%nat in Hb by lia.
  rewrite deadline_add, Ha, Hb' in Hb. injection Hb as <-. exact Hle.
Qed.

(** ** Beeps and deadlines *)

Lemma beeps_le_passes (m : Metronome.BeepMetronome) (obs : list Metronome.Obs) :
  forall s : LoopState,
    (List.length (beep_times (run m s obs)) <= List.length obs)%nat.
Proof.
  induction obs as [|o rest IH]; intros s; [simpl; lia|].
  cbn [run]. destruct (iteration m s o) as [s' a].
  destruct a; cbn [beep_times List.length]; try lia.
  - specialize (IH s'). lia.
  - specialize (IH s'). lia.
Qed.

(** Beep number [N] of a run is made by a pass whose clock reading is not
    before the deadline after [N] additions: the deadline does not depend
    on the readings. *)
Lemma beep_not_before_deadline (m : Metronome.BeepMetronome) (iv : f64)
  (obs : list Metronome.Obs) :
  Forall (fun o => interval (Metronome.obs_bpm o) = Ok iv) obs ->
  forall (s : LoopState) (N : nat) (t : Q),
    nth_error (beep_times (run m s obs)) N = Some t ->
    flt (Fin t) (deadline iv (next_t s) N) = false.
Proof.
  induction 1 as [|o rest Ho _ IH]; intros s N t Hn.
  - destruct N; discriminate.
  - cbn [run] in Hn. pose proof (iteration_deadline m s o iv Ho) as Hd.
    destruct (iteration m s o) as [s' a]. cbn [fst snd] in Hd.
    destruct a as [|d|freq at_time|e].
    + destruct N; discriminate.
    + subst s'. cbn [beep_times] in Hn. apply IH. exact Hn.
    + destruct Hd as (Hnext & Hat & Hflt). cbn [beep_times] in Hn.
      destruct N as [|N]; cbn [nth_error] in Hn.
      * injection Hn as <-. exact Hflt.
      * apply IH in Hn. rewrite Hnext, deadline_shift in Hn. exact Hn.
    + destruct N; discriminate.
Qed.

(** When no clock reading comes more than [delta] after the one before
    it, and each addition moves the deadline by more than [delta], no beep
    is more than [delta] after its deadline, however many came before. *)
Lemma beep_on_time (m : Metronome.BeepMetronome) (iv : f64) (delta : Q)
  (obs : list Metronome.Obs) :
  Forall (fun o => interval (Metronome.obs_bpm o) = Ok iv) obs ->
  forall (s : LoopState) (x prev : Q) (N : nat) (t : Q),
    next_t s = Fin x -> (prev <= x)%Q ->
    Metronome.polled_within delta prev obs ->
    advances delta iv (Fin x) (List.length obs) ->
    nth_error (beep_times (run m s obs)) N = Some t ->
    exists y : Q,
      deadline iv (Fin x) N = Fin y /\ (y <= t)%Q /\ (t <= y + delta)%Q.
Proof.
  induction 1 as [|o rest Ho _ IH]; intros s x prev N t Hs Hprev Hpoll Hadv Hn.
  - destruct N; discriminate.
  - cbn [run] in Hn. destruct Hpoll as [Hnow Hpoll].
    unfold iteration in Hn. rewrite Ho, Hs in Hn.
    destruct (Metronome.obs_stop o); [destruct N; discriminate|].
    destruct (flt (Fin (Metronome.obs_now o)) (Fin x)) eqn:E.
    + apply flt_fin in E. cbn [beep_times] in Hn.
      apply (IH s x (Metronome.obs_now o) N t); auto; [lra|].
      apply advances_weaken. exact Hadv.
    + apply flt_fin_false in E.
      destruct (Metronome.obs_bpb o =? 0); [destruct N; discriminate|].
      cbn [beep_times] in Hn.
      apply advances_step in Hadv as (y1 & Hy1 & Hlt & Hadv).
      destruct N as [|N]; cbn [nth_error] in Hn.
      * injection Hn as <-. exists x. split; [reflexivity|]. split; lra.
      * rewrite <- deadline_shift, Hy1.
        eapply IH with (x := y1) (prev := Metronome.obs_now o);
          [ | |exact Hpoll|exact Hadv|exact Hn]; [exact Hy1|lra].
Qed.

(** Under the same conditions a loop that is not stopped is never behind:
    the deadline it holds after its last pass is later than every clock
    reading it made. *)
Lemma loop_keeps_up (m : Metronome.BeepMetronome) (iv : f64) (delta : Q)
  (obs : list Metronome.Obs) :
  (0 <= delta)%Q ->
  Forall (fun o => interval (Metronome.obs_bpm o) = Ok iv) obs ->
  Forall (fun o => Metronome.obs_stop o = false /\ Metronome.obs_bpb o <> 0) obs ->
  forall (s : LoopState) (x prev : Q),
    next_t s = Fin x -> (prev <= x)%Q ->
    Metronome.polled_within delta prev obs ->
    advances delta iv (Fin x) (List.length obs) ->
    exists y : Q,
      deadline iv (Fin x) (List.length (beep_times (run m s obs))) = Fin y /\
      forall o, In o obs -> (Metronome.obs_now o < y)%Q.
Proof.
  intros Hdelta Hiv. induction Hiv as [|o rest Ho _ IH];
    intros Hlive s x prev Hs Hprev Hpoll Hadv.
  - exists x. split; [reflexivity|]. intros o [].
  - apply Forall_cons_iff in Hlive as [[Hstop Hbpb] Hlive].
    specialize (IH Hlive). destruct Hpoll as [Hnow Hpoll].
    pose proof (beeps_le_passes m rest) as Hcount.
    cbn [run]. unfold iteration. rewrite Ho, Hs, Hstop.
    destruct (flt (Fin (Metronome.obs_now o)) (Fin x)) eqn:E.
    + apply flt_fin in E. cbn [beep_times].
      apply advances_weaken in Hadv.
      destruct (IH s x (Metronome.obs_now o) Hs) as (y & Hy & Hall);
        auto; [lra|].
      exists y. split; [exact Hy|]. intros o' [<-|Hin]; [|auto].
      destruct (advances_deadline delta iv _ Hdelta x _ Hadv (Hcount s))
        as (y' & Hy' & Hle & _).
      rewrite Hy in Hy'. injection Hy' as <-. lra.
    + apply flt_fin_false in E.
      apply Z.eqb_neq in Hbpb. rewrite Hbpb. cbn [beep_times List.length].
      apply advances_step in Hadv as (y1 & Hy1 & Hlt & Hadv).
      set (s' := {| beat := (beat s + 1) mod Metronome.obs_bpb o;
                    next_t := fadd (Fin x) iv |}).
      destruct (IH s' y1 (Metronome.obs_now o)) as (y & Hy & Hall);
        auto; [lra|].
      exists y. rewrite <- deadline_shift, Hy1.
      split; [exact Hy|]. intros o' [<-|Hin]; [|auto].
      destruct (advances_deadline delta iv _ Hdelta y1 _ Hadv (Hcount s'))
        as (y' & Hy' & Hle & _).
      rewrite Hy in Hy'. injection Hy' as <-. lra.
Qed.

(** Hence a beep whose deadline has been reached by some clock reading has
    been made. *)
Lemma due_beep_is_made (m : Metronome.BeepMetronome) (iv : f64) (delta : Q)
  (obs : list Metronome.Obs) (s : LoopState) (x prev : Q) :
  (0 <= delta)%Q ->
  Forall (fun o => interval (Metronome.obs_bpm o) = Ok iv) obs ->
  Forall (fun o => Metronome.obs_stop o = false /\ Metronome.obs_bpb o <> 0) obs ->
  next_t s = Fin x -> (prev <= x)%Q ->
  Metronome.polled_within delta prev obs ->
  advances delta iv (Fin x) (List.length obs) ->
  forall (N : nat) (y : Q) (o : Metronome.Obs),
    (N <= List.length obs)%nat ->
    deadline iv (Fin x) N = Fin y ->
    In o obs -> (y <= Metronome.obs_now o)%Q ->
    exists t : Q, nth_error (beep_times (run m s obs)) N = Some t.
Proof.
  intros Hdelta Hiv Hlive Hs Hprev Hpoll Hadv N y o HN Hy Hin Hdue.
  destruct (loop_keeps_up m iv delta obs Hdelta Hiv Hlive s x prev Hs Hprev Hpoll Hadv)
    as (yk & Hyk & Hall).
  specialize (Hall o Hin).
  destruct (nth_error (beep_times (run m s obs)) N) as [t|] eqn:E;
    [exists t; reflexivity|].
  apply nth_error_None in E. exfalso.
  pose proof (deadline_mono delta iv x _ _ _ yk y Hdelta Hadv E HN Hyk Hy).
  lra.
Qed.

(** ** The deadline of the next beat *)

(** C2, as stated, fails: at 400 bpm the interval added is the double
    nearest to 60/400, which is less than 60/400.  From the deadline 0
    three additions give 0.44999999999999996, not 3 * 60/400, and the pass
    that reads the clock at that value makes beep number 3 (counting from
    0) before [0 + 3 * 60/400]. *)
Lemma third_deadline_is_below_three_intervals :
  interval 400 = Ok (Fin (5404319552844595 # 36028797018963968)) /\
  (5404319552844595 # 36028797018963968 < 60 / inject_Z 400)%Q /\
  deadline (Fin (5404319552844595 # 36028797018963968)) (Fin 0) 3 =
    Fin (2026619832316723 # 4503599627370496) /\
  ~ (2026619832316723 # 4503599627370496 == 0 + 3 * (60 / inject_Z 400))%Q /\
  nth_error (beep_times (run Metronome.init (run_init 0) deadline_polls)) 3 =
    Some (2026619832316723 # 4503599627370496)%Q /\
  (2026619832316723 # 4503599627370496 <
   0 + inject_Z (Z.of_nat 3) * (60 / inject_Z 400))%Q.
Proof.
  split; [vm_compute; reflexivity|].
  split; [reflexivity|].
  split; [vm_compute; reflexivity|].
  split; [intros H; vm_compute in H; discriminate|].
  split; [vm_compute; reflexivity|].
  reflexivity.
Qed.

(** C2, amended: the interval of a tempo [T] in [1,400] is a double [q]
    within one part in [2^53] of [60/T].  A pass that beeps sets the
    deadline to the double sum of the previous deadline and [q], a value in
    which the clock reading of the pass does not occur, and every other
    pass leaves the deadline as it is; so the deadline of beep [N] is the
    result [D N] of [N] double additions of [q] to the start time, whatever
    the delays of the passes were.  [D N] differs from [t0 + N * q] by at
    most [N * (M * 2^-53 + 2^-1075)], where [M] bounds the magnitude of
    the sums made.  Beep [N] is never made before [D N].
    When the clock is read at least every [delta] seconds and every
    addition moves the deadline by more than [delta], beep [N] is made at
    most [delta] after [D N], whatever [N] is, and a loop that is not
    stopped makes every beep whose deadline a clock reading has reached. *)
Theorem deadline_is_rounded_sum_of_intervals :
  forall (m : Metronome.BeepMetronome) (T : Z) (t0 : Q)
         (obs : list Metronome.Obs),
    1 <= T <= 400 ->
    Forall (fun o => Metronome.obs_bpm o = T) obs ->
    exists q : Q,
      interval T = Ok (Fin q) /\ (0 < q)%Q /\
      (Qabs (q - 60 / inject_Z T) <= 60 / inject_Z T * pow2 (-53))%Q /\
      (forall (s : LoopState) (o : Metronome.Obs),
          Metronome.obs_bpm o = T ->
          match snd (iteration m s o) with
          | Beep _ _ =>
              next_t (fst (iteration m s o)) = fadd (next_t s) (Fin q)
          | _ => next_t (fst (iteration m s o)) = next_t s
          end) /\
      (forall (N : nat) (t : Q),
          nth_error (beep_times (run m (run_init t0) obs)) N = Some t ->
          flt (Fin t) (deadline (Fin q) (Fin t0) N) = false) /\
      (forall (M : Q) (N : nat) (yN : Q),
          (forall (k : nat) (y : Q),
              (k < N)%nat -> deadline (Fin q) (Fin t0) k = Fin y ->
              (Qabs (y + q) <= M)%Q) ->
          deadline (Fin q) (Fin t0) N = Fin yN ->
          (Qabs (yN - (t0 + inject_Z (Z.of_nat N) * q)) <=
           inject_Z (Z.of_nat N) * (M * pow2 (-53) + pow2 (-1075)))%Q) /\
      (forall delta : Q,
          (0 <= delta)%Q ->
          Metronome.polled_within delta t0 obs ->
          advances delta (Fin q) (Fin t0) (List.length obs) ->
          (forall (N : nat) (t : Q),
              nth_error (beep_times (run m (run_init t0) obs)) N = Some t ->
              exists y : Q,
                deadline (Fin q) (Fin t0) N = Fin y /\
                (y <= t)%Q /\ (t <= y + delta)%Q) /\
          (Forall (fun o => Metronome.obs_stop o = false /\
                            Metronome.obs_bpb o <> 0) obs ->
           forall (N : nat) (y : Q) (o : Metronome.Obs),
             (N <= List.length obs)%nat ->
             deadline (Fin q) (Fin t0) N = Fin y ->
             In o obs -> (y <= Metronome.obs_now o)%Q ->
             exists t : Q,
               nth_error (beep_times (run m (run_init t0) obs)) N = Some t)).
Proof.
  intros m T t0 obs HT Hobs.
  destruct (interval_of_stored_tempo T HT) as (q & Hq & Hpos & Hnear).
  assert (Hiv : Forall (fun o => interval (Metronome.obs_bpm o) = Ok (Fin q)) obs).
  { apply Forall_forall. intros o Ho.
    rewrite Forall_forall in Hobs. rewrite (Hobs o Ho). exact Hq. }
  exists q. split; [exact Hq|]. split; [exact Hpos|]. split; [exact Hnear|].
  split; [|split; [|split; [exact (deadline_error q t0)|]]].
  - intros s o Ho.
    assert (Hi : interval (Metronome.obs_bpm o) = Ok (Fin q))
      by (rewrite Ho; exact Hq).
    pose proof (iteration_deadline m s o (Fin q) Hi) as Hd.
    destruct (snd (iteration m s o)).
    + rewrite Hd. reflexivity.
    + rewrite Hd. reflexivity.
    + apply Hd.
    + rewrite Hd. reflexivity.
  - intros N t Hn.
    apply (beep_not_before_deadline m (Fin q) obs Hiv (run_init t0) N t Hn).
  - intros delta Hdelta Hpoll Hadv. split.
    + intros N t Hn.
      apply (beep_on_time m (Fin q) delta obs Hiv (run_init t0) t0 t0 N t);
        [reflexivity|lra|exact Hpoll|exact Hadv|exact Hn].
    + intros Hlive N y o HN Hy Hin Hdue.
      apply (due_beep_is_made m (Fin q) delta obs (run_init t0) t0 t0
               Hdelta Hiv Hlive eq_refl (Qle_refl t0) Hpoll Hadv N y o HN Hy Hin Hdue).
Qed.

Lemma deadline_is_rounded_sum_of_intervals_witness :
  exists q y : Q,
    interval 400 = Ok (Fin q) /\
    flt (Fin (5 # 16)) (deadline (Fin q) (Fin 0) 2) = false /\
    deadline (Fin q) (Fin 0) 2 = Fin y /\
    (y <= 5 # 16)%Q /\ (5 # 16 <= y + (1 # 16))%Q /\
    exists t : Q,
      nth_error (beep_times (run Metronome.init (run_init 0) steady_polls)) 3 =
      Some t.
Proof.
  destruct (deadline_is_rounded_sum_of_intervals
              Metronome.init 400 0 steady_polls)
    as (q & Hq & _ & _ & _ & Hearly & _ & Hrest).
  - lia.
  - repeat constructor.
  - assert (Eq : q = (5404319552844595 # 36028797018963968)%Q).
    { assert (H : interval 400 =
                  Ok (Fin (5404319552844595 # 36028797018963968)))
        by (vm_compute; reflexivity).
      rewrite H in Hq. injection Hq as <-. reflexivity. }
    subst q.
    destruct (Hrest (1 # 16)%Q) as [Hlate Hmade].
    + unfold Qle; simpl; lia.
    + simpl; unfold Qle; simpl; repeat split; lia.
    + vm_compute. repeat split.
    + destruct (Hlate 2%nat (5 # 16)%Q) as (y & Hy & Hlo & Hhi);
        [vm_compute; reflexivity|].
      exists (5404319552844595 # 36028797018963968)%Q, y.
      split; [vm_compute; reflexivity|].
      split; [apply Hearly; vm_compute; reflexivity|].
      split; [exact Hy|]. split; [exact Hlo|]. split; [exact Hhi|].
      apply (Hmade
               ltac:(repeat constructor; discriminate)
               3%nat (2026619832316723 # 4503599627370496)%Q
               (Metronome.mkObs false 400 4 (8 # 16))).
      * simpl; lia.
      * vm_compute; reflexivity.
      * simpl; auto 20.
      * unfold Qle; simpl; lia.
Defined.

(** ** A tempo change while the metronome runs *)

(** X5: [update] during a run does not move the beat that is already due:
    from whatever state the loop is in, with a finite deadline [x], once
    every pass reads the tempo [T], beep number [N] from there on is due
    at the deadline [N] double additions of the new interval after [x].
    It is never made before that deadline; when the clock is read at least
    every [delta] seconds, the loop is not behind at the start and every
    addition moves the deadline by more than [delta], it is made at most
    [delta] after it, and it is made whenever a clock reading has reached
    its deadline and the loop has not been stopped. *)
Theorem new_tempo_spaces_later_beats :
  forall (m : Metronome.BeepMetronome) (T : Z) (s : LoopState) (x : Q)
         (obs : list Metronome.Obs),
    1 <= T <= 400 ->
    Forall (fun o => Metronome.obs_bpm o = T) obs ->
    next_t s = Fin x ->
    exists q : Q,
      interval T = Ok (Fin q) /\
      (forall (N : nat) (t : Q),
          nth_error (beep_times (run m s obs)) N = Some t ->
          flt (Fin t) (deadline (Fin q) (Fin x) N) = false) /\
      (forall delta prev : Q,
          (0 <= delta)%Q -> (prev <= x)%Q ->
          Metronome.polled_within delta prev obs ->
          advances delta (Fin q) (Fin x) (List.length obs) ->
          (forall (N : nat) (t : Q),
              nth_error (beep_times (run m s obs)) N = Some t ->
              exists y : Q,
                deadline (Fin q) (Fin x) N = Fin y /\
                (y <= t)%Q /\ (t <= y + delta)%Q) /\
          (Forall (fun o => Metronome.obs_stop o = false /\
                            Metronome.obs_bpb o <> 0) obs ->
           forall (N : nat) (y : Q) (o : Metronome.Obs),
             (N <= List.length obs)%nat ->
             deadline (Fin q) (Fin x) N = Fin y ->
             In o obs -> (y <= Metronome.obs_now o)%Q ->
             exists t : Q, nth_error (beep_times (run m s obs)) N = Some t)).
Proof.
  intros m T s x obs HT Hobs Hs.
  destruct (interval_of_stored_tempo T HT) as (q & Hq & _ & _).
  assert (Hiv : Forall (fun o => interval (Metronome.obs_bpm o) = Ok (Fin q)) obs).
  { apply Forall_forall. intros o Ho.
    rewrite Forall_forall in Hobs. rewrite (Hobs o Ho). exact Hq. }
  exists q. split; [exact Hq|]. split.
  - intros N t Hn. rewrite <- Hs.
    apply (beep_not_before_deadline m (Fin q) obs Hiv s N t Hn).
  - intros delta prev Hdelta Hprev Hpoll Hadv. split.
    + intros N t Hn.
      apply (beep_on_time m (Fin q) delta obs Hiv s x prev N t); auto.
    + intros Hlive N y o HN Hy Hin Hdue.
      apply (due_beep_is_made m (Fin q) delta obs s x prev
               Hdelta Hiv Hlive Hs Hprev Hpoll Hadv N y o HN Hy Hin Hdue).
Qed.

Lemma new_tempo_spaces_later_beats_witness :
  exists q y : Q,
    interval 400 = Ok (Fin q) /\
    deadline (Fin q) (Fin 5) 1 = Fin y /\
    (y <= 83 # 16)%Q /\ (83 # 16 <= y + (1 # 16))%Q.
Proof.
  destruct (new_tempo_spaces_later_beats
              Metronome.init 400 {| beat := 3; next_t := Fin 5 |} 5
              (map (fun k => Metronome.mkObs false 400 4 (Qmake k 16))
                   [80; 81; 82; 83]))
    as (q & Hq & _ & Hrest).
  - lia.
  - repeat constructor.
  - reflexivity.
  - assert (Eq : q = (5404319552844595 # 36028797018963968)%Q).
    { assert (H : interval 400 =
                  Ok (Fin (5404319552844595 # 36028797018963968)))
        by (vm_compute; reflexivity).
      rewrite H in Hq. injection Hq as <-. reflexivity. }
    subst q.
    destruct (Hrest (1 # 16)%Q 5%Q) as [Hlate _].
    + unfold Qle; simpl; lia.
    + unfold Qle; simpl; lia.
    + simpl; unfold Qle; simpl; repeat split; lia.
    + vm_compute. repeat split.
    + destruct (Hlate 1%nat (83 # 16)%Q) as (y & Hy & Hlo & Hhi);
        [vm_compute; reflexivity|].
      exists (5404319552844595 # 36028797018963968)%Q, y.
      split; [vm_compute; reflexivity|]. auto.
Defined.

(** ** After [stop()] *)




End DeadlineFacts.

(* ================================================================== *)
(** * Facts about the tempo suggestion *)
(* ================================================================== *)

Section SuggestFacts.

Import Suggest.

(** ** The rows that are read *)

Lemma overlap_spec (a1 a2 b1 b2 : Z) :
  overlap a1 a2 b1 b2 = true <-> Z.max a1 b1 <= Z.min a2 b2.
Proof. unfold overlap. apply Z.leb_le. Qed.

Lemma swap_if_gt_spec (bs be : Z) :
  swap_if_gt bs be = (Z.min bs be, Z.max bs be).
Proof.
  unfold swap_if_gt. destruct (be <? bs) eqn:E.
  - apply Z.ltb_lt in E. rewrite Z.min_r, Z.max_l by lia. reflexivity.
  - apply Z.ltb_ge in E. rewrite Z.min_l, Z.max_r by lia. reflexivity.
Qed.

Lemma row_overlaps_spec (song a b : Z) (r : Row) :
  row_overlaps song a b r = true <->
  safe_int (song_index r) (-1) = song /\
  exists bs be : Z,
    bar_start r = Some bs /\ bar_end r = Some be /\
    Z.max a (Z.min bs be) <= Z.min b (Z.max bs be).
Proof.
  unfold row_overlaps.
  destruct (safe_int (song_index r) (-1) =? song) eqn:Es; simpl.
  - apply Z.eqb_eq in Es.
    destruct (bar_start r) as [bs|], (bar_end r) as [be|].
    + rewrite swap_if_gt_spec, overlap_spec. split.
      * intros H. split; [exact Es|]. exists bs, be. auto.
      * intros [_ (bs' & be' & Hs & He & H)].
        injection Hs as <-. injection He as <-. exact H.
    + split; [discriminate|]. intros [_ (bs' & be' & _ & He & _)]. discriminate.
    + split; [discriminate|]. intros [_ (bs' & be' & Hs & _)]. discriminate.
    + split; [discriminate|]. intros [_ (bs' & be' & Hs & _)]. discriminate.
  - apply Z.eqb_neq in Es. split; [discriminate|]. intros [H _]. contradiction.
Qed.

Lemma overlapping_rows_spec (sessions : list Row) (song a b : Z) (r : Row) :
  In r (overlapping_rows sessions song a b) <->
  In r sessions /\
  safe_int (song_index r) (-1) = song /\
  exists bs be : Z,
    bar_start r = Some bs /\ bar_end r = Some be /\
    Z.max a (Z.min bs be) <= Z.min b (Z.max bs be).
Proof.
  unfold overlapping_rows. rewrite filter_In, row_overlaps_spec. reflexivity.
Qed.

Lemma kind_none_iff (sessions : list Row) (song a b : Z) :
  kind (_compute_suggestion sessions song a b) = none <->
  overlapping_rows sessions song a b = [].
Proof.
  unfold _compute_suggestion.
  destruct (overlapping_rows sessions song a b) as [|r0 rest].
  - simpl. split; reflexivity.
  - destruct (achieved_per_bar (r0 :: rest) a b).
    + destruct (parsed r0 rest) as [p ps].
      destruct (choose (latest_group (p :: ps) (max_ts p ps))); simpl;
        split; discriminate.
    + simpl. split; discriminate.
Qed.

(** C8: the rows [_compute_suggestion] works on are the rows of the log
    that belong to the song and whose normalized bar interval [[bs,be]]
    satisfies [max(a,bs) <= min(b,be)]; the result is a function of these
    rows alone; it has kind [none], with no tempo, when there is no such
    row, and only then.  [[1,8]] and [[5,10]] overlap, [[1,4]] and [[5,10]]
    do not. *)
Theorem suggestion_reads_overlapping_rows :
  forall (sessions : list Row) (song a b : Z),
    1 <= a <= b ->
    (forall r : Row,
        In r (overlapping_rows sessions song a b) <->
        In r sessions /\
        safe_int (song_index r) (-1) = song /\
        exists bs be : Z,
          bar_start r = Some bs /\ bar_end r = Some be /\
          Z.max a (Z.min bs be) <= Z.min b (Z.max bs be)) /\
    (forall sessions' : list Row,
        overlapping_rows sessions' song a b =
        overlapping_rows sessions song a b ->
        _compute_suggestion sessions' song a b =
        _compute_suggestion sessions song a b) /\
    (overlapping_rows sessions song a b = [] ->
     _compute_suggestion sessions song a b =
     {| kind := none; suggested_bpm_value := None; details := NoLog |}) /\
    (kind (_compute_suggestion sessions song a b) = none <->
     overlapping_rows sessions song a b = []) /\
    overlap 1 8 5 10 = true /\
    overlap 1 4 5 10 = false.
Proof.
  intros sessions song a b _.
  split; [intros r; apply overlapping_rows_spec|].
  split; [intros sessions' H; unfold _compute_suggestion; rewrite H; reflexivity|].
  split; [intros H; unfold _compute_suggestion; rewrite H; reflexivity|].
  split; [apply kind_none_iff|].
  split; reflexivity.
Qed.

Lemma suggestion_reads_overlapping_rows_witness :
  _compute_suggestion [] 1 1 8 =
  {| kind := none; suggested_bpm_value := None; details := NoLog |} /\
  (In (example_row 100 10 9 0)
      (overlapping_rows [example_row 100 10 9 0] 1 5 10)).
Proof.
  destruct (suggestion_reads_overlapping_rows [] 1 1 8) as (_ & _ & H & _).
  - lia.
  - split; [apply H; reflexivity|].
    destruct (suggestion_reads_overlapping_rows [example_row 100 10 9 0] 1 5 10)
      as (H1 & _).
    + lia.
    + apply H1. split; [left; reflexivity|]. split; [reflexivity|].
      exists 1, 8. repeat split; simpl; lia.
Defined.

(** ** The bar loop *)

Lemma bar_range_spec (lo hi n : Z) :
  In n (bar_range lo hi) <-> lo <= n <= hi.
Proof.
  unfold bar_range. rewrite in_map_iff. split.
  - intros (i & <- & Hi). apply in_seq in Hi. lia.
  - intros H. exists (Z.to_nat (n - lo)). split; [lia|].
    apply in_seq. lia.
Qed.

(** A row of the overlapping rows has both bar fields, so the bar test of
    the second loop, which reads them with default 0, is the covering of
    the bar by the normalized interval. *)
Lemma row_candidate_spec (bar : Z) (r : Row) (v : Z) :
  (exists bs be, bar_start r = Some bs /\ bar_end r = Some be) ->
  row_candidate bar r = Some v <->
  covers r bar /\ achieving r /\ tempo r = v.
Proof.
  intros (bs & be & Hs & He).
  unfold row_candidate, covers, achieving, tempo.
  rewrite Hs, He. simpl safe_int at 1 2. rewrite swap_if_gt_spec.
  destruct ((Z.min bs be <=? bar) && (bar <=? Z.max bs be)) eqn:Ecov; simpl.
  - apply andb_true_iff in Ecov as [E1 E2].
    apply Z.leb_le in E1. apply Z.leb_le in E2.
    destruct (safe_int (reps r) 0 <=? 0) eqn:Er.
    + apply Z.leb_le in Er. split; [discriminate|]. intros (_ & (H & _) & _). lia.
    + apply Z.leb_gt in Er.
      destruct (safe_int (bpm r) 0 <=? 0) eqn:Eb.
      * apply Z.leb_le in Eb. split; [discriminate|].
        intros (_ & (_ & H & _) & _). lia.
      * apply Z.leb_gt in Eb.
        destruct (acc_ge_threshold (safe_int (success r) 0) (safe_int (reps r) 0))
          eqn:Ea.
        -- split.
           ++ intros H. injection H as <-.
              split; [exists bs, be; auto|]. auto.
           ++ intros (_ & _ & <-). reflexivity.
        -- split; [discriminate|]. intros (_ & (_ & _ & H) & _). discriminate.
  - split; [discriminate|]. intros ((bs' & be' & Hs' & He' & Hc) & _).
    injection Hs' as <-. injection He' as <-.
    apply andb_false_iff in Ecov as [E|E]; apply Z.leb_gt in E; lia.
Qed.

Lemma fold_keep_lower_none (bar : Z) (rows : list Row) (best : option Z) :
  fold_left (keep_lower bar) rows best = None <->
  best = None /\ forall r, In r rows -> row_candidate bar r = None.
Proof.
  revert best. induction rows as [|r rows IH]; intros best; simpl.
  - split; [intros H; split; [exact H|intros r []]|intros [H _]; exact H].
  - rewrite IH. unfold keep_lower.
    destruct (row_candidate bar r) as [b|] eqn:Ec.
    + split.
      * intros [H _]. destruct best as [m|]; [destruct (b <? m)|]; discriminate.
      * intros [_ H]. specialize (H r (or_introl eq_refl)). congruence.
    + split.
      * intros [Hb H]. split; [exact Hb|]. intros r' [<-|Hin]; auto.
      * intros [Hb H]. split; [exact Hb|]. intros r' Hin. apply H. right. exact Hin.
Qed.

Lemma fold_keep_lower_some (bar : Z) (rows : list Row) (best : option Z) (v : Z) :
  fold_left (keep_lower bar) rows best = Some v ->
  (best = Some v \/ exists r, In r rows /\ row_candidate bar r = Some v) /\
  (forall m, best = Some m -> v <= m) /\
  (forall r b, In r rows -> row_candidate bar r = Some b -> v <= b).
Proof.
  revert best. induction rows as [|r rows IH]; intros best H; simpl in H.
  - subst best. split; [left; reflexivity|].
    split; [intros m Hm; injection Hm as <-; lia|intros r b []].
  - apply IH in H as (Hex & Hacc & Hall).
    unfold keep_lower in Hex, Hacc.
    destruct (row_candidate bar r) as [b|] eqn:Ec.
    + assert (Hvb : v <= b /\ forall m, best = Some m -> v <= m).
      { destruct best as [m|].
        - destruct (b <? m) eqn:E.
          + apply Z.ltb_lt in E. specialize (Hacc b eq_refl).
            split; [lia|]. intros m' Hm'. injection Hm' as <-. lia.
          + apply Z.ltb_ge in E. specialize (Hacc m eq_refl).
            split; [lia|]. intros m' Hm'. injection Hm' as <-. lia.
        - specialize (Hacc b eq_refl). split; [lia|discriminate]. }
      destruct Hvb as [Hvb Hbest].
      split; [|split].
      * destruct Hex as [Hs|(r' & Hin & Hr')].
        -- destruct best as [m|].
           ++ destruct (b <? m) eqn:E.
              ** right. exists r. split; [left; reflexivity|]. congruence.
              ** left. exact Hs.
           ++ right. exists r. split; [left; reflexivity|]. congruence.
        -- right. exists r'. split; [right; exact Hin|exact Hr'].
      * exact Hbest.
      * intros r' b' [<-|Hin] Hr'; [|eapply Hall; eauto].
        rewrite Ec in Hr'. injection Hr' as <-. exact Hvb.
    + split; [|split].
      * destruct Hex as [Hs|(r' & Hin & Hr')]; [left; exact Hs|].
        right. exists r'. split; [right; exact Hin|exact Hr'].
      * exact Hacc.
      * intros r' b' [<-|Hin] Hr'; [congruence|eapply Hall; eauto].
Qed.

Lemma overlapping_rows_have_bars (sessions : list Row) (song a b : Z) (r : Row) :
  In r (overlapping_rows sessions song a b) ->
  exists bs be, bar_start r = Some bs /\ bar_end r = Some be.
Proof.
  intros H. apply overlapping_rows_spec in H as (_ & _ & bs & be & Hs & He & _).
  exists bs, be. auto.
Qed.

Section BarLoop.

Variable rows : list Row.
Hypothesis rows_have_bars :
  forall r, In r rows -> exists bs be, bar_start r = Some bs /\ bar_end r = Some be.

Lemma best_min_bpm_some (bar v : Z) :
  best_min_bpm rows bar = Some v <-> bar_minimum rows bar v.
Proof.
  unfold best_min_bpm, bar_minimum. split.
  - intros H. apply fold_keep_lower_some in H as (Hex & _ & Hall).
    destruct Hex as [Hn|(r & Hin & Hr)]; [discriminate|]. split.
    + exists r. split; [exact Hin|].
      apply row_candidate_spec; auto.
    + intros r' Hin' Hc Ha. apply (Hall r' (tempo r') Hin').
      apply row_candidate_spec; auto.
  - intros [(r & Hin & Hc & Ha & Ht) Hlow].
    destruct (fold_left (keep_lower bar) rows None) as [w|] eqn:E.
    + apply fold_keep_lower_some in E as (Hex & _ & Hall).
      destruct Hex as [Hn|(r' & Hin' & Hr')]; [discriminate|].
      apply row_candidate_spec in Hr' as (Hc' & Ha' & Ht'); auto.
      assert (w <= v).
      { apply (Hall r v Hin). apply row_candidate_spec; auto. }
      assert (v <= w) by (rewrite <- Ht'; apply Hlow; auto).
      f_equal. lia.
    + apply fold_keep_lower_none in E as [_ E].
      specialize (E r Hin).
      assert (row_candidate bar r = Some v) by (apply row_candidate_spec; auto).
      congruence.
Qed.

Lemma best_min_bpm_none (bar : Z) :
  best_min_bpm rows bar = None <->
  forall r, In r rows -> covers r bar -> ~ achieving r.
Proof.
  unfold best_min_bpm. rewrite fold_keep_lower_none. split.
  - intros [_ H] r Hin Hc Ha. specialize (H r Hin).
    assert (row_candidate bar r = Some (tempo r))
      by (apply row_candidate_spec; auto).
    congruence.
  - intros H. split; [reflexivity|]. intros r Hin.
    destruct (row_candidate bar r) as [v|] eqn:E; [|reflexivity].
    apply row_candidate_spec in E as (Hc & Ha & _); auto.
    exfalso. exact (H r Hin Hc Ha).
Qed.

Lemma achieved_per_bar_spec (a b n v : Z) :
  In (n, v) (achieved_per_bar rows a b) <->
  a <= n <= b /\ bar_minimum rows n v.
Proof.
  unfold achieved_per_bar. rewrite in_flat_map. split.
  - intros (bar & Hbar & Hin). apply bar_range_spec in Hbar.
    destruct (best_min_bpm rows bar) as [w|] eqn:E; [|destruct Hin].
    destruct Hin as [Heq|[]]. injection Heq as <- <-.
    split; [exact Hbar|]. apply best_min_bpm_some. exact E.
  - intros [Hn Hmin]. exists n. split; [apply bar_range_spec; exact Hn|].
    apply best_min_bpm_some in Hmin. rewrite Hmin. left. reflexivity.
Qed.

Lemma achieved_per_bar_nil (a b : Z) :
  achieved_per_bar rows a b = [] <->
  forall n r, a <= n <= b -> In r rows -> covers r n -> ~ achieving r.
Proof.
  split.
  - intros E n r Hn Hin Hc Ha.
    destruct (best_min_bpm rows n) as [v|] eqn:Eb.
    + assert (In (n, v) (achieved_per_bar rows a b)).
      { apply achieved_per_bar_spec. split; [exact Hn|].
        apply best_min_bpm_some. exact Eb. }
      rewrite E in H. destruct H.
    + exact (proj1 (best_min_bpm_none n) Eb r Hin Hc Ha).
  - intros H. destruct (achieved_per_bar rows a b) as [|[n v] l] eqn:E;
      [reflexivity|].
    assert (Hin : In (n, v) (achieved_per_bar rows a b))
      by (rewrite E; left; reflexivity).
    apply achieved_per_bar_spec in Hin as [Hn [(r & Hr & Hc & Ha & _) _]].
    exfalso. exact (H n r Hn Hr Hc Ha).
Qed.

End BarLoop.

(** ** Minimum, bottlenecks and gaps *)

Lemma fold_min_spec (l : list (Z * Z)) (acc : Z) :
  let m := fold_left (fun m kv => Z.min m (snd kv)) l acc in
  m <= acc /\
  (forall kv, In kv l -> m <= snd kv) /\
  (m = acc \/ exists kv, In kv l /\ snd kv = m).
Proof.
  revert acc. induction l as [|kv l IH]; intros acc; simpl.
  - split; [lia|]. split; [intros kv []|left; reflexivity].
  - destruct (IH (Z.min acc (snd kv))) as (H1 & H2 & H3).
    split; [lia|]. split.
    + intros kv' [<-|Hin]; [lia|apply H2; exact Hin].
    + destruct H3 as [H3|(kv' & Hin & H3)].
      * destruct (Z.min_spec acc (snd kv)) as [[_ E]|[_ E]].
        -- left. congruence.
        -- right. exists kv. split; [left; reflexivity|congruence].
      * right. exists kv'. split; [right; exact Hin|exact H3].
Qed.

Lemma min_value_spec (first : Z * Z) (others : list (Z * Z)) :
  (exists kv, In kv (first :: others) /\ snd kv = min_value first others) /\
  (forall kv, In kv (first :: others) -> min_value first others <= snd kv).
Proof.
  unfold min_value.
  destruct (fold_min_spec others (snd first)) as (H1 & H2 & H3). split.
  - destruct H3 as [H3|(kv & Hin & H3)].
    + exists first. split; [left; reflexivity|symmetry; exact H3].
    + exists kv. split; [right; exact Hin|exact H3].
  - intros kv [<-|Hin]; [exact H1|apply H2; exact Hin].
Qed.

Lemma bottlenecks_spec (apb : list (Z * Z)) (m n : Z) :
  In n (bottlenecks apb m) <-> In (n, m) apb.
Proof.
  unfold bottlenecks. rewrite in_map_iff. split.
  - intros ([k v] & Hk & Hin). apply filter_In in Hin as [Hin Hv].
    simpl in Hk, Hv. apply Z.eqb_eq in Hv. subst. exact Hin.
  - intros Hin. exists (n, m). split; [reflexivity|].
    apply filter_In. split; [exact Hin|]. simpl. apply Z.eqb_refl.
Qed.

Lemma missing_spec (apb : list (Z * Z)) (a b n : Z) :
  In n (missing apb a b) <->
  a <= n <= b /\ forall v, ~ In (n, v) apb.
Proof.
  unfold missing. rewrite filter_In, bar_range_spec, negb_true_iff. split.
  - intros [Hn Hex]. split; [exact Hn|]. intros v Hin.
    assert (existsb (fun kv : Z * Z => fst kv =? n) apb = true).
    { apply existsb_exists. exists (n, v). split; [exact Hin|].
      simpl. apply Z.eqb_refl. }
    congruence.
  - intros [Hn Hno]. split; [exact Hn|].
    destruct (existsb (fun kv : Z * Z => fst kv =? n) apb) eqn:E;
      [|reflexivity].
    apply existsb_exists in E as ([k v] & Hin & Hk). simpl in Hk.
    apply Z.eqb_eq in Hk. subst k. exfalso. exact (Hno v Hin).
Qed.

(** The comparison of the rounded quotient with the double [0.90] agrees
    with the comparison of the exact fraction with nine tenths for every
    repetition count below [2^51]. *)
Lemma acc_ge_threshold_exact (succ reps' : Z) :
  0 < reps' < 2 ^ 51 ->
  acc_ge_threshold succ reps' = (9 * reps' <=? 10 * succ).
Proof.
  intros H. unfold acc_ge_threshold.
  change (2 ^ 54) with 18014398509481984.
  change (2 ^ 51) with 2251799813685248 in H.
  destruct (9 * reps' <=? 10 * succ) eqn:E.
  - apply Z.leb_le in E. apply Z.ltb_lt. lia.
  - apply Z.leb_gt in E. apply Z.ltb_ge. lia.
Qed.

(** The achieved branch of [Suggest._compute_suggestion].  Call a row
    achieving when its repetition count and its tempo are positive and its
    success/reps is at least 0.90.  If some bar of [[a,b]] is covered by an
    achieving overlapping row, the result has kind [achieved]; its tempo
    is the least, over the bars of [[a,b]], of the per-bar lowest tempo
    among the achieving rows covering the bar; the bottleneck bars are the
    bars whose per-bar lowest tempo is that value, the gap bars are the
    bars of [[a,b]] no achieving row covers.  For a repetition count below
    [2^51] the test on success/reps is the test on the exact fraction. *)
Lemma achieved_without_overflow :
  forall (sessions : list Row) (song a b : Z),
    (exists n r,
        a <= n <= b /\ In r (overlapping_rows sessions song a b) /\
        covers r n /\ achieving r) ->
    exists m : Z,
      let rows := overlapping_rows sessions song a b in
      let res := _compute_suggestion sessions song a b in
      let bns := bottlenecks (achieved_per_bar rows a b) m in
      let mis := missing (achieved_per_bar rows a b) a b in
      kind res = achieved /\
      suggested_bpm_value res = Some m /\
      (exists n, a <= n <= b /\ bar_minimum rows n m) /\
      (forall n v, a <= n <= b -> bar_minimum rows n v -> m <= v) /\
      (forall n, In n bns <-> a <= n <= b /\ bar_minimum rows n m) /\
      (forall n, In n mis <->
                 a <= n <= b /\
                 forall r, In r rows -> covers r n -> ~ achieving r) /\
      details res =
        AchievedDetail m (firstn 10 bns) (10 <? Z.of_nat (List.length bns))
                       (firstn 10 mis) (10 <? Z.of_nat (List.length mis)) /\
      (forall r, 0 < safe_int (reps r) 0 < 2 ^ 51 ->
                 (achieving r <->
                  0 < tempo r /\
                  9 * safe_int (reps r) 0 <= 10 * safe_int (success r) 0)).
Proof.
  intros sessions song a b (n0 & r0 & Hn0 & Hin0 & Hc0 & Ha0).
  pose proof (overlapping_rows_have_bars sessions song a b) as Hbars.
  set (rows := overlapping_rows sessions song a b) in *.
  destruct (achieved_per_bar rows a b) as [|first others] eqn:Eapb.
  { exfalso.
    exact (proj1 (achieved_per_bar_nil rows Hbars a b) Eapb n0 r0 Hn0 Hin0 Hc0 Ha0). }
  exists (min_value first others).
  destruct (min_value_spec first others) as [([n v] & Hkv & Hv) Hlow].
  simpl in Hv. rewrite <- Eapb in Hkv, Hlow.
  assert (Hres : _compute_suggestion sessions song a b =
                 let apb := first :: others in
                 let m := min_value first others in
                 {| kind := achieved; suggested_bpm_value := Some m;
                    details := AchievedDetail m
                      (firstn 10 (bottlenecks apb m))
                      (10 <? Z.of_nat (List.length (bottlenecks apb m)))
                      (firstn 10 (missing apb a b))
                      (10 <? Z.of_nat (List.length (missing apb a b))) |}).
  { unfold _compute_suggestion. fold rows.
    destruct rows as [|r1 rest]; [destruct Hin0|].
    rewrite Eapb. reflexivity. }
  cbv zeta. rewrite Hres. cbv zeta. cbn [kind suggested_bpm_value details].
  split; [reflexivity|]. split; [reflexivity|].
  split.
  { exists n. apply (achieved_per_bar_spec rows Hbars). rewrite <- Hv. exact Hkv. }
  split.
  { intros n' v' Hn' Hmin.
    apply (Hlow (n', v')). apply (achieved_per_bar_spec rows Hbars). auto. }
  split.
  { intros n'. rewrite bottlenecks_spec.
    apply (achieved_per_bar_spec rows Hbars). }
  split.
  { intros n'. rewrite missing_spec. split.
    - intros [Hn' Hno]. split; [exact Hn'|].
      apply (best_min_bpm_none rows Hbars).
      destruct (best_min_bpm rows n') as [w|] eqn:Ew; [|reflexivity].
      exfalso. apply (Hno w). apply (achieved_per_bar_spec rows Hbars).
      split; [exact Hn'|]. apply (best_min_bpm_some rows Hbars). exact Ew.
    - intros [Hn' Hno]. split; [exact Hn'|]. intros w Hin.
      apply (achieved_per_bar_spec rows Hbars) in Hin
        as [_ [(r & Hr & Hc & Ha & _) _]].
      exact (Hno r Hr Hc Ha). }
  split; [rewrite Eapb; reflexivity|].
  intros r Hr. unfold achieving, tempo.
  rewrite (acc_ge_threshold_exact _ _ Hr). rewrite Z.leb_le.
  split; [intros (_ & H1 & H2)|intros [H1 H2]]; repeat split; try lia; auto.
Qed.

(** The worked example of the achieved case: tempo 100, every bar a
    bottleneck, no gap. *)
Example example_achieved_log_suggestion :
  _compute_suggestion example_achieved_log 1 1 8 =
  {| kind := achieved; suggested_bpm_value := Some 100;
     details := AchievedDetail 100 [1; 2; 3; 4; 5; 6; 7; 8] false [] false |}.
Proof. vm_compute. reflexivity. Qed.

(** ** The fallback to the most recent rows *)

Lemma fold_max_spec (l : list (Z * Row)) (acc : Z) :
  let m := fold_left (fun m p => Z.max m (fst p)) l acc in
  acc <= m /\
  (forall q, In q l -> fst q <= m) /\
  (m = acc \/ exists q, In q l /\ fst q = m).
Proof.
  revert acc. induction l as [|q l IH]; intros acc; simpl.
  - split; [lia|]. split; [intros q []|left; reflexivity].
  - destruct (IH (Z.max acc (fst q))) as (H1 & H2 & H3).
    split; [lia|]. split.
    + intros q' [<-|Hin]; [lia|apply H2; exact Hin].
    + destruct H3 as [H3|(q' & Hin & H3)].
      * destruct (Z.max_spec acc (fst q)) as [[_ E]|[_ E]].
        -- right. exists q. split; [left; reflexivity|congruence].
        -- left. congruence.
      * right. exists q'. split; [right; exact Hin|exact H3].
Qed.

Lemma max_ts_spec (p : datetime * Row) (ps : list (datetime * Row)) :
  (exists q, In q (p :: ps) /\ fst q = max_ts p ps) /\
  (forall q, In q (p :: ps) -> fst q <= max_ts p ps).
Proof.
  unfold max_ts.
  destruct (fold_max_spec ps (fst p)) as (H1 & H2 & H3). split.
  - destruct H3 as [H3|(q & Hin & H3)].
    + exists p. split; [left; reflexivity|symmetry; exact H3].
    + exists q. split; [right; exact Hin|exact H3].
  - intros q [<-|Hin]; [exact H1|apply H2; exact Hin].
Qed.

Lemma latest_group_spec (l : list (datetime * Row)) (m : datetime) (r : Row) :
  In r (latest_group l m) <-> In (m, r) l.
Proof.
  unfold latest_group. rewrite in_map_iff. split.
  - intros ([t r'] & Hr & Hin). apply filter_In in Hin as [Hin Ht].
    simpl in Hr, Ht. apply Z.eqb_eq in Ht. subst. exact Hin.
  - intros Hin. exists (m, r). split; [reflexivity|].
    apply filter_In. split; [exact Hin|]. simpl. apply Z.eqb_refl.
Qed.

Lemma parsed_spec (r0 : Row) (rest : list Row) (t : datetime) (r : Row) :
  In (t, r) (fst (parsed r0 rest) :: snd (parsed r0 rest)) <->
  In r (r0 :: rest) /\
  (timestamp_start r = Some t \/
   (t = datetime_min /\
    forall r', In r' (r0 :: rest) -> timestamp_start r' = None)).
Proof.
  unfold parsed.
  set (one := fun r1 : Row =>
                match timestamp_start r1 with
                | Some ts => [(ts, r1)]
                | None => []
                end).
  assert (Hfm : forall t1 r1 l,
             In (t1, r1) (flat_map one l) <->
             In r1 l /\ timestamp_start r1 = Some t1).
  { intros t1 r1 l. rewrite in_flat_map. unfold one. split.
    - intros (x & Hx & Hin). destruct (timestamp_start x) eqn:E; [|destruct Hin].
      destruct Hin as [Heq|[]]. injection Heq as <- <-. auto.
    - intros [Hin E]. exists r1. rewrite E. split; [exact Hin|left; reflexivity]. }
  destruct (flat_map one (r0 :: rest)) as [|q qs] eqn:E.
  - assert (Hnone : forall r', In r' (r0 :: rest) -> timestamp_start r' = None).
    { intros r' Hin. destruct (timestamp_start r') as [t'|] eqn:E'; [|reflexivity].
      assert (In (t', r') (flat_map one (r0 :: rest))) by (apply Hfm; auto).
      rewrite E in H. destruct H. }
    cbn [fst snd].
    change ((datetime_min, r0) :: map (fun r1 => (datetime_min, r1)) rest)
      with (map (fun r1 : Row => (datetime_min, r1)) (r0 :: rest)).
    rewrite in_map_iff. split.
    + intros (x & Hx & Hin). injection Hx as <- <-. auto.
    + intros [Hin [Ht|[-> _]]].
      * rewrite (Hnone r Hin) in Ht. discriminate.
      * exists r. auto.
  - cbn [fst snd]. rewrite <- E, Hfm. split.
    + intros [Hin Ht]. auto.
    + intros [Hin [Ht|[_ Hnone]]]; [auto|].
      assert (In q (flat_map one (r0 :: rest))) by (rewrite E; left; reflexivity).
      destruct q as [tq rq]. apply Hfm in H as [Hq Hts].
      rewrite (Hnone rq Hq) in Hts. discriminate.
Qed.

Lemma latest_group_most_recent (r0 : Row) (rest : list Row) (r : Row) :
  In r (latest_group (fst (parsed r0 rest) :: snd (parsed r0 rest))
                     (max_ts (fst (parsed r0 rest)) (snd (parsed r0 rest)))) <->
  In r (r0 :: rest) /\ most_recent (r0 :: rest) r.
Proof.
  rewrite latest_group_spec.
  destruct (max_ts_spec (fst (parsed r0 rest)) (snd (parsed r0 rest)))
    as [([tq rq] & Hq & Hm) Hmax].
  set (m := max_ts (fst (parsed r0 rest)) (snd (parsed r0 rest))) in *.
  simpl in Hm. subst tq. unfold most_recent. split.
  - intros Hin. apply parsed_spec in Hin as [Hin [Ht|[Ht Hnone]]].
    + split; [exact Hin|]. rewrite Ht. intros r' t' Hin' Ht'.
      apply (Hmax (t', r')). apply parsed_spec. auto.
    + split; [exact Hin|]. rewrite (Hnone r Hin). exact Hnone.
  - intros [Hin Hrec]. apply parsed_spec. split; [exact Hin|].
    apply parsed_spec in Hq as [Hinq Hq].
    destruct (timestamp_start r) as [t|] eqn:Et.
    + left. f_equal. destruct Hq as [Hq|[_ Hnone]].
      * assert (m <= t) by (apply (Hrec rq m); auto).
        assert (t <= m).
        { apply (Hmax (t, r)). apply parsed_spec. auto. }
        lia.
      * rewrite (Hnone r Hin) in Et. discriminate.
    + right. split; [|exact Hrec].
      destruct Hq as [Hq|[Hq _]]; [|exact Hq].
      rewrite (Hrec rq Hinq) in Hq. discriminate.
Qed.

Lemma positive_tempo_parses (c : Row) :
  0 < tempo c -> safe_int (bpm c) (10 ^ 9) = tempo c.
Proof.
  unfold tempo. destruct (bpm c); simpl; [reflexivity|lia].
Qed.

Lemma fold_choose_none (g : list Row) (acc : option Row) :
  fold_left choose_step g acc = None <->
  acc = None /\ forall r, In r g -> tempo r <= 0.
Proof.
  revert acc. induction g as [|r g IH]; intros acc; simpl.
  - split; [intros H; split; [exact H|intros r []]|intros [H _]; exact H].
  - rewrite IH. unfold choose_step. fold (tempo r).
    destruct (tempo r <=? 0) eqn:E.
    + apply Z.leb_le in E. split.
      * intros [Ha H]. split; [exact Ha|]. intros r' [<-|Hin]; auto.
      * intros [Ha H]. split; [exact Ha|]. intros r' Hin. apply H. right. exact Hin.
    + apply Z.leb_gt in E. split.
      * intros [Ha _]. destruct acc as [c|];
          [destruct (tempo r <? safe_int (bpm c) (10 ^ 9))|]; discriminate.
      * intros [_ H]. specialize (H r (or_introl eq_refl)). lia.
Qed.

Lemma fold_choose_some (g : list Row) (acc : option Row) (c : Row) :
  (forall c0, acc = Some c0 -> 0 < tempo c0) ->
  fold_left choose_step g acc = Some c ->
  (acc = Some c \/ In c g) /\
  0 < tempo c /\
  (forall c0, acc = Some c0 -> tempo c <= tempo c0) /\
  (forall r, In r g -> 0 < tempo r -> tempo c <= tempo r).
Proof.
  revert acc. induction g as [|r g IH]; intros acc Hacc H; simpl in H.
  - subst acc. split; [left; reflexivity|]. split; [apply Hacc; reflexivity|].
    split; [intros c0 Hc0; injection Hc0 as <-; lia|intros r []].
  - assert (Hstep : forall c0, choose_step acc r = Some c0 -> 0 < tempo c0).
    { intros c0. unfold choose_step. fold (tempo r).
      destruct (tempo r <=? 0) eqn:E; [apply Hacc|].
      apply Z.leb_gt in E. destruct acc as [c1|].
      - destruct (tempo r <? safe_int (bpm c1) (10 ^ 9));
          intros Hc; injection Hc as <-; [exact E|apply Hacc; reflexivity].
      - intros Hc; injection Hc as <-; exact E. }
    destruct (IH _ Hstep H) as (Hex & Hpos & Hlow & Hall).
    unfold choose_step in Hex, Hlow. fold (tempo r) in Hex, Hlow.
    destruct (tempo r <=? 0) eqn:E.
    + apply Z.leb_le in E. split; [|split; [exact Hpos|split; [exact Hlow|]]].
      * destruct Hex as [Hex|Hex]; [left; exact Hex|right; right; exact Hex].
      * intros r' [<-|Hin] Hr'; [lia|apply Hall; auto].
    + apply Z.leb_gt in E. destruct acc as [c1|].
      * rewrite (positive_tempo_parses c1 (Hacc c1 eq_refl)) in Hex, Hlow.
        destruct (tempo r <? tempo c1) eqn:E1.
        -- apply Z.ltb_lt in E1. specialize (Hlow r eq_refl).
           split; [|split; [exact Hpos|split]].
           ++ right. destruct Hex as [Hex|Hex];
                [injection Hex as <-; left; reflexivity|right; exact Hex].
           ++ intros c0 Hc0. injection Hc0 as <-. lia.
           ++ intros r' [<-|Hin] Hr'; [lia|apply Hall; auto].
        -- apply Z.ltb_ge in E1. specialize (Hlow c1 eq_refl).
           split; [|split; [exact Hpos|split]].
           ++ destruct Hex as [Hex|Hex]; [left; exact Hex|right; right; exact Hex].
           ++ intros c0 Hc0. injection Hc0 as <-. lia.
           ++ intros r' [<-|Hin] Hr'; [lia|apply Hall; auto].
      * specialize (Hlow r eq_refl).
        split; [|split; [exact Hpos|split; [discriminate|]]].
        -- right. destruct Hex as [Hex|Hex];
             [injection Hex as <-; left; reflexivity|right; exact Hex].
        -- intros r' [<-|Hin] Hr'; [lia|apply Hall; auto].
Qed.

Lemma choose_spec (g : list Row) :
  match choose g with
  | Some c =>
      In c g /\ 0 < tempo c /\
      (forall r, In r g -> 0 < tempo r -> tempo c <= tempo r)
  | None => forall r, In r g -> tempo r <= 0
  end.
Proof.
  unfold choose. destruct (fold_left choose_step g None) as [c|] eqn:E.
  - apply fold_choose_some in E as (Hex & Hpos & _ & Hall); [|discriminate].
    destruct Hex as [Hex|Hex]; [discriminate|]. auto.
  - apply fold_choose_none in E as [_ E]. exact E.
Qed.

(** The fallback branch of [Suggest._compute_suggestion].  When there are
    overlapping rows and no bar of the range is covered by an achieving
    one, the result has kind [latest].  The group searched is the
    overlapping rows whose timestamp is the most recent of those that
    parse (every overlapping row when none parses).  Rows of the group
    with a non-positive tempo are passed over: if the group has a row of
    positive tempo, the suggestion is the lowest positive tempo of the
    group; if it has none, the suggested tempo is absent. *)
Lemma latest_without_overflow :
  forall (sessions : list Row) (song a b : Z),
    overlapping_rows sessions song a b <> [] ->
    (forall n r,
        a <= n <= b -> In r (overlapping_rows sessions song a b) ->
        covers r n -> ~ achieving r) ->
    let rows := overlapping_rows sessions song a b in
    let res := _compute_suggestion sessions song a b in
    kind res = latest /\
    ((exists c : Row,
         In c rows /\ most_recent rows c /\ 0 < tempo c /\
         (forall r, In r rows -> most_recent rows r -> 0 < tempo r ->
                    tempo c <= tempo r) /\
         suggested_bpm_value res = Some (tempo c) /\
         details res = LatestDetail (tempo c) (accuracy c) c) \/
     ((forall r, In r rows -> most_recent rows r -> tempo r <= 0) /\
      suggested_bpm_value res = None /\
      details res = LatestInvalid)).
Proof.
  intros sessions song a b Hne Hnone.
  pose proof (overlapping_rows_have_bars sessions song a b) as Hbars.
  cbv zeta. unfold _compute_suggestion.
  destruct (overlapping_rows sessions song a b) as [|r0 rest] eqn:Erows;
    [contradiction|].
  rewrite (proj2 (achieved_per_bar_nil (r0 :: rest) Hbars a b) Hnone).
  pose proof (latest_group_most_recent r0 rest) as Hgroup.
  destruct (parsed r0 rest) as [p ps]. cbn [fst snd] in Hgroup.
  pose proof (choose_spec (latest_group (p :: ps) (max_ts p ps))) as Hch.
  destruct (choose (latest_group (p :: ps) (max_ts p ps))) as [c|];
    cbn [kind suggested_bpm_value details].
  - split; [reflexivity|]. left. exists c.
    destruct Hch as (Hin & Hpos & Hlow).
    apply Hgroup in Hin as [Hin Hrec].
    split; [exact Hin|]. split; [exact Hrec|]. split; [exact Hpos|].
    split; [|split; reflexivity].
    intros r Hr Hrecr Hposr. apply Hlow; [|exact Hposr].
    apply Hgroup. auto.
  - split; [reflexivity|]. right.
    split; [|split; reflexivity].
    intros r Hr Hrecr. apply Hch. apply Hgroup. auto.
Qed.

(** The worked example of the fallback: one row, tempo 140, 2 successes
    in 5 repetitions. *)
Example example_latest_suggestion :
  _compute_suggestion [example_row 140 5 2 0] 1 1 8 =
  {| kind := latest; suggested_bpm_value := Some 140;
     details := LatestDetail 140 (2 # 5) (example_row 140 5 2 0) |} /\
  (2 # 5 == 4 # 10)%Q.
Proof. split; reflexivity. Qed.

End SuggestFacts.

(* ================================================================== *)
(** * Facts about the session *)
(* ================================================================== *)

Section SessionFacts.

Import Tracker.

(** ** Counters *)

Lemma add_rep_ordered (st : PracticeTracker) (delta : Z) :
  counters_ordered st -> counters_ordered (add_rep st delta).
Proof.
  unfold counters_ordered, add_rep. intros H.
  destruct (active st); simpl; [|exact H].
  destruct (Z.max 0 (reps st + delta) <? success st) eqn:E.
  - lia.
  - apply Z.ltb_ge in E. lia.
Qed.

Lemma add_success_ordered (st : PracticeTracker) (delta : Z) :
  counters_ordered st -> counters_ordered (add_success st delta).
Proof.
  unfold counters_ordered, add_success. intros H.
  destruct (active st); simpl; [|exact H].
  destruct (reps st <? Z.max 0 (success st + delta)) eqn:E.
  - lia.
  - apply Z.ltb_ge in E. lia.
Qed.

Lemma adjust_keeps_active (st : PracticeTracker) (a : adjust) :
  active (adjust_counters st a) = active st.
Proof.
  destruct a; simpl; [unfold add_rep|unfold add_success];
    destruct (active st) eqn:E; simpl; auto.
Qed.

Lemma states_after_ordered (calls : list adjust) (st : PracticeTracker) :
  active st = true -> counters_ordered st ->
  Forall (fun s => active s = true /\ counters_ordered s)
         (states_after st calls).
Proof.
  revert st. induction calls as [|a calls IH]; intros st Hact Hord; simpl.
  - constructor.
  - assert (Hact' : active (adjust_counters st a) = true)
      by (rewrite adjust_keeps_active; exact Hact).
    assert (Hord' : counters_ordered (adjust_counters st a))
      by (destruct a; [apply add_rep_ordered|apply add_success_ordered];
          exact Hord).
    constructor; [split; assumption|]. apply IH; assumption.
Qed.

Lemma start_session_completed (st st0 : PracticeTracker) (sid iso : string)
  (epoch : Q) :
  start_session st sid iso epoch = (st0, Completed) ->
  active st0 = true /\ reps st0 = 0 /\ success st0 = 0.
Proof.
  unfold start_session. destruct (active st); [discriminate|].
  destruct (_validate_before_start st) as [[[bs be] bpm]|e]; [|discriminate].
  intros H. injection H as <-. simpl. auto.
Qed.

Lemma add_success_beyond_reps (st : PracticeTracker) (delta : Z) :
  active st = true -> 0 <= reps st -> reps st < success st + delta ->
  success (add_success st delta) = reps st /\
  reps (add_success st delta) = reps st.
Proof.
  intros Hact Hr Hd. unfold add_success. rewrite Hact. simpl.
  replace (reps st <? Z.max 0 (success st + delta)) with true; [auto|].
  symmetry. apply Z.ltb_lt. lia.
Qed.

(** C7: in a session begun by [start_session], after each call of any
    sequence of [add_rep] and [add_success] calls, with any integer
    arguments, [0 <= success <= reps]; and [add_success] with an argument
    that takes [success] beyond [reps] leaves [success] equal to [reps]. *)
Theorem counters_stay_ordered :
  forall (st st0 : PracticeTracker) (sid iso : string) (epoch : Q)
         (calls : list adjust),
    start_session st sid iso epoch = (st0, Completed) ->
    Forall (fun s => 0 <= success s <= reps s) (states_after st0 calls) /\
    (forall (s : PracticeTracker) (delta : Z),
        In s (st0 :: states_after st0 calls) ->
        reps s < success s + delta ->
        success (add_success s delta) = reps s /\
        reps (add_success s delta) = reps s).
Proof.
  intros st st0 sid iso epoch calls Hstart.
  apply start_session_completed in Hstart as (Hact & Hr & Hs).
  assert (Hord : counters_ordered st0) by (unfold counters_ordered; lia).
  pose proof (states_after_ordered calls st0 Hact Hord) as Hall.
  split.
  - eapply Forall_impl; [|exact Hall]. intros s [_ H]. exact H.
  - intros s delta [<-|Hin] Hd.
    + apply add_success_beyond_reps; auto. lia.
    + rewrite Forall_forall in Hall. destruct (Hall s Hin) as [Ha Ho].
      unfold counters_ordered in Ho. apply add_success_beyond_reps; auto. lia.
Qed.

Lemma counters_stay_ordered_witness :
  Forall (fun s => 0 <= success s <= reps s)
         (states_after example_running [Succ 3; Rep 2; Succ 5; Rep (-1)]) /\
  success (add_success example_running 3) = reps example_running.
Proof.
  destruct (counters_stay_ordered example_idle example_running
              "20260101_100000" "2026-01-01 10:00:00" 0
              [Succ 3; Rep 2; Succ 5; Rep (-1)] eq_refl) as [H1 H2].
  split; [exact H1|].
  apply (H2 example_running 3); [left; reflexivity|simpl; lia].
Defined.

(** ** What reaches the log file *)

Lemma make_row_reps (st : PracticeTracker) (t : string) (now : Q)
  (row : Log.SessionRow) :
  make_row st t now = Ok row ->
  Log.reps row = reps st /\ Log.success row = success st /\
  Log.timestamp_end row = t.
Proof.
  unfold make_row.
  destruct (t_start_epoch st), (selected_song_index st),
    (locked_bar_start st), (locked_bar_end st), (locked_bpm st);
    try discriminate.
  intros H. injection H as <-. simpl. auto.
Qed.

Lemma finish_and_save_appends (st : PracticeTracker) (t : string) (now : Q)
  (ok : bool) (file : list Log.SessionRow) :
  let file' := snd (fst (finish_and_save st t now ok file)) in
  file' = file \/
  exists row, file' = file ++ [row] /\ 0 < Log.reps row.
Proof.
  unfold finish_and_save.
  destruct (active st); simpl; [|left; reflexivity].
  destruct (reps st <=? 0) eqn:Er; [left; reflexivity|].
  apply Z.leb_gt in Er.
  destruct (make_row _ t now) as [row|e] eqn:Erow; [|left; reflexivity].
  apply make_row_reps in Erow as (Hreps & _). simpl in Hreps.
  unfold Log.append_csv. destruct ok; simpl; [|left; reflexivity].
  right. exists row. split; [reflexivity|lia].
Qed.

Lemma exec_appends (c : command) (st : PracticeTracker)
  (file : list Log.SessionRow) :
  let file' := snd (fst (exec c st file)) in
  file' = file \/
  exists row, file' = file ++ [row] /\ 0 < Log.reps row.
Proof.
  destruct c; simpl; try (left; reflexivity).
  - destruct (start_session st sid iso epoch). left. reflexivity.
  - unfold cancel_session. destruct (active st); left; reflexivity.
  - apply finish_and_save_appends.
Qed.

Lemma exec_all_appends (cs : list command) (st : PracticeTracker)
  (file : list Log.SessionRow) :
  exists added,
    snd (exec_all cs st file) = file ++ added /\
    Forall (fun r => 0 < Log.reps r) added.
Proof.
  revert st file. induction cs as [|c cs IH]; intros st file; simpl.
  - exists []. rewrite app_nil_r. split; [reflexivity|constructor].
  - pose proof (exec_appends c st file) as Hc.
    destruct (exec c st file) as [[st' file'] o]. simpl in Hc.
    destruct (IH st' file') as (added & Hfile & Hadded).
    destruct Hc as [->|(row & -> & Hrow)].
    + exists added. auto.
    + exists (row :: added). rewrite Hfile, <- app_assoc. simpl.
      split; [reflexivity|]. constructor; assumption.
Qed.

(** C6: whatever sequence of callbacks runs, the log file only grows, and
    every row added to it has [reps > 0]; so a log whose rows all have
    [reps > 0] stays such.  [finish_and_save] in a session with [reps = 0]
    ends in the error box and changes neither the file nor the tracker;
    [cancel_session], after any counter adjustments, leaves the file as it
    was. *)
Theorem persisted_rows_have_positive_reps :
  forall (cs : list command) (st : PracticeTracker)
         (file : list Log.SessionRow),
    (exists added,
        snd (exec_all cs st file) = file ++ added /\
        Forall (fun r => 0 < Log.reps r) added) /\
    (Forall (fun r => 0 < Log.reps r) file ->
     Forall (fun r => 0 < Log.reps r) (snd (exec_all cs st file))) /\
    (forall (t : string) (now : Q) (ok : bool),
        active st = true -> reps st = 0 ->
        finish_and_save st t now ok file = (st, file, ShowError)) /\
    (forall calls : list adjust,
        snd (fst (cancel_session (fold_left adjust_counters calls st) file))
        = file).
Proof.
  intros cs st file.
  destruct (exec_all_appends cs st file) as (added & Hfile & Hadded).
  split; [exists added; auto|].
  split; [intros H; rewrite Hfile; apply Forall_app; auto|].
  split.
  - intros t now ok Hact Hr. unfold finish_and_save.
    rewrite Hact, Hr. reflexivity.
  - intros calls. unfold cancel_session.
    destruct (active (fold_left adjust_counters calls st)); reflexivity.
Qed.

Lemma persisted_rows_have_positive_reps_witness :
  finish_and_save example_running "2026-01-01 10:05:00" 300 true [] =
  (example_running, [], ShowError) /\
  snd (fst (cancel_session
              (fold_left adjust_counters [Rep 4; Succ 3] example_running) []))
  = [].
Proof.
  destruct (persisted_rows_have_positive_reps [] example_running [])
    as (_ & _ & Hfinish & Hcancel).
  split.
  - apply Hfinish; reflexivity.
  - apply Hcancel.
Defined.

(** ** A failed append *)

Lemma with_counters_clamped_again (st : PracticeTracker) :
  let st1 := with_counters st (reps st) (Z.min (success st) (reps st)) in
  with_counters st1 (reps st1) (Z.min (success st1) (reps st1)) = st1.
Proof.
  unfold with_counters, with_session. simpl.
  rewrite Z.min_l by lia. reflexivity.
Qed.

(** C5, as stated, fails: a session with one repetition is finished at
    10:00:10 while the file cannot be written; the exception leaves the
    method, and the tracker it leaves behind is the session as it was.
    Finishing again at 10:00:20 with the file writable appends a row that
    is not the row built in the first attempt: it is built anew, with the
    end time and duration of the second attempt. *)
Lemma failed_append_discards_row :
  exists row1 row2 : Log.SessionRow,
    make_row example_one_rep "2026-01-01 10:00:10" 10 = Ok row1 /\
    finish_and_save example_one_rep "2026-01-01 10:00:10" 10 false [] =
      (example_one_rep, [], Propagated OSError) /\
    finish_and_save example_one_rep "2026-01-01 10:00:20" 20 true [] =
      (end_session example_one_rep, [row2], Saved row2) /\
    Log.timestamp_end row1 = "2026-01-01 10:00:10"%string /\
    Log.timestamp_end row2 = "2026-01-01 10:00:20"%string /\
    row2 <> row1.
Proof.
  eexists. eexists.
  split; [reflexivity|]. split; [reflexivity|]. split; [reflexivity|].
  split; [reflexivity|]. split; [reflexivity|].
  intros H. apply (f_equal Log.timestamp_end) in H. discriminate H.
Qed.

(** C5, amended: when the append fails in [finish_and_save], the exception
    leaves the method, nothing is added to the file, and the tracker keeps
    the session: still active, metronome not stopped, identifier, start
    times, locked bars and tempo and repetition count as before, [success]
    clamped to [reps].  The row that was built is not kept.  A later
    [finish_and_save] builds a row again from the kept session, with its
    own end time and duration, and appends that one. *)
Theorem failed_append_keeps_session :
  forall (st : PracticeTracker) (t : string) (now : Q)
         (file : list Log.SessionRow) (row : Log.SessionRow),
    active st = true ->
    0 < reps st ->
    let st1 := with_counters st (reps st) (Z.min (success st) (reps st)) in
    make_row st1 t now = Ok row ->
    finish_and_save st t now false file = (st1, file, Propagated OSError) /\
    (active st1 = true /\ metro st1 = metro st /\
     session_id st1 = session_id st /\ t_start_iso st1 = t_start_iso st /\
     t_start_epoch st1 = t_start_epoch st /\
     locked_bar_start st1 = locked_bar_start st /\
     locked_bar_end st1 = locked_bar_end st /\
     locked_bpm st1 = locked_bpm st /\
     reps st1 = reps st /\ success st1 = Z.min (success st) (reps st)) /\
    (forall (t' : string) (now' : Q),
        exists row' : Log.SessionRow,
          make_row st1 t' now' = Ok row' /\
          finish_and_save st1 t' now' true file =
            (end_session st1, file ++ [row'], Saved row') /\
          Log.timestamp_end row' = t' /\
          Log.reps row' = Log.reps row /\
          Log.success row' = Log.success row).
Proof.
  intros st t now file row Hact Hreps st1 Hrow.
  split; [|split].
  - unfold finish_and_save. rewrite Hact. simpl.
    replace (reps st <=? 0) with false by (symmetry; apply Z.leb_gt; lia).
    fold st1. rewrite Hrow. reflexivity.
  - subst st1. simpl. repeat split; auto.
  - intros t' now'.
    assert (Hrow' : exists row', make_row st1 t' now' = Ok row').
    { revert Hrow. unfold make_row.
      destruct (t_start_epoch st1), (selected_song_index st1),
        (locked_bar_start st1), (locked_bar_end st1), (locked_bpm st1);
        try discriminate.
      intros _. eexists. reflexivity. }
    destruct Hrow' as [row' Hrow']. exists row'.
    split; [exact Hrow'|].
    apply make_row_reps in Hrow as (Hr1 & Hs1 & _).
    pose proof (make_row_reps _ _ _ _ Hrow') as (Hr2 & Hs2 & Ht2).
    split; [|split; [exact Ht2|split; congruence]].
    unfold finish_and_save.
    replace (active st1) with true by (subst st1; simpl; auto).
    replace (reps st1) with (reps st) by reflexivity.
    simpl negb. cbv iota.
    replace (reps st <=? 0) with false by (symmetry; apply Z.leb_gt; lia).
    change (with_counters st1 (reps st) (Z.min (success st1) (reps st)))
      with (with_counters st1 (reps st1) (Z.min (success st1) (reps st1))).
    subst st1. rewrite with_counters_clamped_again.
    rewrite Hrow'. reflexivity.
Qed.

Lemma failed_append_keeps_session_witness :
  finish_and_save example_one_rep "2026-01-01 10:00:10" 10 false [] =
  (with_counters example_one_rep (reps example_one_rep)
     (Z.min (success example_one_rep) (reps example_one_rep)),
   [], Propagated OSError).
Proof.
  edestruct (failed_append_keeps_session example_one_rep
               "2026-01-01 10:00:10" 10 []) as [H _].
  - reflexivity.
  - simpl. lia.
  - reflexivity.
  - exact H.
Defined.

End SessionFacts.

(* ================================================================== *)
(** * More about the metronome *)
(* ================================================================== *)

Section MetronomeLoop.

Import Metronome.

(** ** Accents *)

Lemma beep_freqs_from (m : BeepMetronome) (bpb : Z) (obs : list Obs) :
  1 <= bpb ->
  Forall (fun o => obs_bpb o = bpb) obs ->
  forall (s : LoopState) (N : nat) (f : Z),
    0 <= beat s < bpb ->
    nth_error (beep_freqs (run m s obs)) N = Some f ->
    f = if (beat s + Z.of_nat N) mod bpb =? 0 then freq_accent m
        else freq_normal m.
Proof.
  intros Hbpb. induction 1 as [|o rest Ho _ IH]; intros s N f Hbeat Hn.
  - destruct N; discriminate.
  - simpl in Hn. unfold iteration in Hn.
    destruct (obs_stop o); [destruct N; discriminate|].
    destruct (Qlt_le_dec (obs_now o) (next_t s)); simpl in Hn.
    + apply IH; assumption.
    + rewrite Ho in Hn. destruct N as [|N]; simpl in Hn.
      * injection Hn as <-. rewrite Z.add_0_r. reflexivity.
      * apply IH in Hn.
        -- cbn [beat] in Hn. rewrite Zplus_mod_idemp_l in Hn.
           replace (beat s + Z.of_nat (S N)) with (beat s + 1 + Z.of_nat N)
             by lia.
           exact Hn.
        -- cbn [beat]. apply Z.mod_pos_bound. lia.
Qed.

(** X1: while the meter read by the loop stays at [bpb], the beeps of [_run]
    are accented exactly at positions 0, [bpb], [2 bpb], ...: beep number
    [N] has the accent frequency when [N mod bpb = 0] and the normal
    frequency otherwise, whatever the tempo and the clock do. *)
Theorem accent_every_bar :
  forall (m : BeepMetronome) (bpb : Z) (t0 : Q) (obs : list Obs)
         (N : nat) (f : Z),
    1 <= bpb ->
    Forall (fun o => obs_bpb o = bpb) obs ->
    nth_error (beep_freqs (run m (run_init t0) obs)) N = Some f ->
    f = if Z.of_nat N mod bpb =? 0 then freq_accent m else freq_normal m.
Proof.
  intros m bpb t0 obs N f Hbpb Hobs Hn.
  apply (beep_freqs_from m bpb obs Hbpb Hobs (run_init t0) N f) in Hn.
  - exact Hn.
  - simpl. lia.
Qed.

Lemma accent_every_bar_witness :
  beep_freqs (run init (run_init 0) steady_polls) = [1100; 800; 800] /\
  800 = (if Z.of_nat 1 mod 4 =? 0 then freq_accent init else freq_normal init).
Proof.
  split; [reflexivity|].
  apply (accent_every_bar init 4 0 steady_polls 1 800).
  - lia.
  - repeat constructor.
  - reflexivity.
Defined.

(** ** Sleeps *)



(** ** Leaving the loop *)

Lemma beep_times_app (tr1 tr2 : list (LoopState * Action)) :
  beep_times (tr1 ++ tr2) = beep_times tr1 ++ beep_times tr2.
Proof.
  induction tr1 as [|[s a] tr1 IH]; simpl; [reflexivity|].
  destruct a; simpl; rewrite IH; reflexivity.
Qed.

Lemma run_cons_continue (m : BeepMetronome) (s : LoopState) (x : Obs)
  (l : list Obs) :
  obs_stop x = false ->
  run m s (x :: l) = iteration m s x :: run m (fst (iteration m s x)) l.
Proof.
  intros Hx. simpl. unfold iteration. rewrite Hx.
  destruct (Qlt_le_dec (obs_now x) (next_t s)); reflexivity.
Qed.

(** X3: the first pass that reads the stop event as set is the last pass:
    the passes before it are made as if it were not there, it adds one
    [Exit] and no beep, and nothing that would be read after it is read. *)
Theorem loop_ends_at_first_stop :
  forall (m : BeepMetronome) (pre : list Obs) (o : Obs) (rest : list Obs)
         (s : LoopState),
    Forall (fun x => obs_stop x = false) pre ->
    obs_stop o = true ->
    exists s' : LoopState,
      run m s (pre ++ o :: rest) = run m s pre ++ [(s', Exit)] /\
      beep_times (run m s (pre ++ o :: rest)) = beep_times (run m s pre) /\
      List.length (run m s pre) = List.length pre.
Proof.
  intros m pre o rest s Hpre Ho. revert s.
  induction Hpre as [|x pre Hx _ IH]; intros s.
  - exists s. simpl. unfold iteration. rewrite Ho. auto.
  - rewrite <- app_comm_cons. rewrite !run_cons_continue by exact Hx.
    destruct (IH (fst (iteration m s x))) as (s' & H1 & H2 & H3).
    exists s'. rewrite H1. split; [reflexivity|]. split.
    + rewrite app_comm_cons, beep_times_app. simpl. apply app_nil_r.
    + simpl. rewrite H3. reflexivity.
Qed.

Lemma loop_ends_at_first_stop_witness :
  exists s' : LoopState,
    run init (run_init 0)
        (steady_polls ++ mkObs true 400 4 (7 # 20) :: steady_polls) =
    run init (run_init 0) steady_polls ++ [(s', Exit)] /\
    beep_times (run init (run_init 0)
                    (steady_polls ++ mkObs true 400 4 (7 # 20) :: steady_polls)) =
    beep_times (run init (run_init 0) steady_polls) /\
    List.length (run init (run_init 0) steady_polls) = List.length steady_polls.
Proof.
  apply (loop_ends_at_first_stop init steady_polls
           (mkObs true 400 4 (7 # 20)) steady_polls (run_init 0)).
  - repeat constructor.
  - reflexivity.
Defined.

(** ** Stop followed by start *)

(** X4: [start] clears the stop event only when the thread is no longer
    alive.  Called on a running metronome that has just been stopped, it
    leaves the event set, so the thread ends at its next test and the
    metronome is then not running although [start] was the last call; once
    the thread has ended, [start] begins a cadence with the event
    cleared. *)
Theorem start_after_stop_needs_thread_end :
  forall (m : BeepMetronome) (b p : Z),
    thread_alive m = true ->
    stop_set (start (stop m) b p) = true /\
    is_running (apply_event (start (stop m) b p) ThreadExits) = false /\
    is_running (start (apply_event (stop m) ThreadExits) b p) = true /\
    stop_set (start (apply_event (stop m) ThreadExits) b p) = false.
Proof.
  intros m b p Halive.
  unfold start, is_running, update, stop, apply_event. simpl.
  rewrite Halive. simpl. auto.
Qed.

Lemma start_after_stop_needs_thread_end_witness :
  stop_set (start (stop running_120_4) 90 3) = true /\
  is_running (apply_event (start (stop running_120_4) 90 3) ThreadExits) = false /\
  is_running (start (apply_event (stop running_120_4) ThreadExits) 90 3) = true /\
  stop_set (start (apply_event (stop running_120_4) ThreadExits) 90 3) = false.
Proof.
  exact (start_after_stop_needs_thread_end running_120_4 90 3 eq_refl).
Defined.

End MetronomeLoop.

(* ================================================================== *)
(** * More about the tempo suggestion *)
(* ================================================================== *)

Section SuggestMore.

Import Suggest.

(** X6: [overlap] holds exactly when the two closed intervals share a bar,
    and does not depend on which interval is given first.  (An interval
    given with its ends the wrong way round shares a bar with nothing.) *)
Theorem overlap_is_shared_bar :
  forall a1 a2 b1 b2 : Z,
    (overlap a1 a2 b1 b2 = true <->
     exists n : Z, a1 <= n <= a2 /\ b1 <= n <= b2) /\
    overlap a1 a2 b1 b2 = overlap b1 b2 a1 a2.
Proof.
  intros a1 a2 b1 b2. split.
  - rewrite overlap_spec. split.
    + intros H. exists (Z.max a1 b1). lia.
    + intros (n & H1 & H2). lia.
  - unfold overlap. rewrite (Z.max_comm a1 b1), (Z.min_comm a2 b2). reflexivity.
Qed.

(** ** What a suggested tempo is *)

Lemma covered_row_overlaps (sessions : list Row) (song a b n : Z) (r : Row) :
  a <= n <= b ->
  (In r (overlapping_rows sessions song a b) /\ covers r n <->
   In r sessions /\ safe_int (song_index r) (-1) = song /\ covers r n).
Proof.
  intros Hn. rewrite overlapping_rows_spec. unfold covers. split.
  - intros [(Hin & Hsong & _) Hc]. auto.
  - intros (Hin & Hsong & bs & be & Hs & He & Hc).
    split; [|exists bs, be; auto].
    split; [exact Hin|]. split; [exact Hsong|].
    exists bs, be. split; [exact Hs|]. split; [exact He|]. lia.
Qed.

(** The achieved branch, read off the rows. *)
Lemma achieved_branch (sessions : list Row) (song a b : Z) :
  achieved_per_bar (overlapping_rows sessions song a b) a b <> [] ->
  exists m : Z,
    kind (_compute_suggestion sessions song a b) = achieved /\
    suggested_bpm_value (_compute_suggestion sessions song a b) = Some m /\
    (exists n, a <= n <= b /\
               bar_minimum (overlapping_rows sessions song a b) n m) /\
    (forall n v, a <= n <= b ->
                 bar_minimum (overlapping_rows sessions song a b) n v ->
                 m <= v).
Proof.
  intros Hne.
  pose proof (overlapping_rows_have_bars sessions song a b) as Hbars.
  unfold _compute_suggestion.
  destruct (overlapping_rows sessions song a b) as [|r0 rest] eqn:Erows.
  { exfalso. apply Hne. apply (achieved_per_bar_nil [] Hbars a b).
    intros n r _ []. }
  destruct (achieved_per_bar (r0 :: rest) a b) as [|first others] eqn:Eapb;
    [contradiction|].
  exists (min_value first others). cbn [kind suggested_bpm_value].
  destruct (min_value_spec first others) as [([n v] & Hkv & Hv) Hlow].
  simpl in Hv. rewrite <- Eapb in Hkv, Hlow.
  split; [reflexivity|]. split; [reflexivity|]. split.
  - exists n. apply (achieved_per_bar_spec (r0 :: rest) Hbars).
    rewrite <- Hv. exact Hkv.
  - intros n' v' Hn' Hmin. apply (Hlow (n', v')).
    apply (achieved_per_bar_spec (r0 :: rest) Hbars). auto.
Qed.

(** The fallback branch, read off the rows. *)
Lemma latest_branch (sessions : list Row) (song a b : Z) :
  overlapping_rows sessions song a b <> [] ->
  achieved_per_bar (overlapping_rows sessions song a b) a b = [] ->
  kind (_compute_suggestion sessions song a b) = latest /\
  match suggested_bpm_value (_compute_suggestion sessions song a b) with
  | Some v =>
      exists c, In c (overlapping_rows sessions song a b) /\
                most_recent (overlapping_rows sessions song a b) c /\
                tempo c = v /\ 0 < v /\
                forall r, In r (overlapping_rows sessions song a b) ->
                          most_recent (overlapping_rows sessions song a b) r ->
                          0 < tempo r -> v <= tempo r
  | None =>
      forall r, In r (overlapping_rows sessions song a b) ->
                most_recent (overlapping_rows sessions song a b) r ->
                tempo r <= 0
  end.
Proof.
  intros Hne Hnil. unfold _compute_suggestion.
  destruct (overlapping_rows sessions song a b) as [|r0 rest] eqn:Erows;
    [contradiction|].
  rewrite Hnil.
  pose proof (latest_group_most_recent r0 rest) as Hgroup.
  destruct (parsed r0 rest) as [p ps]. cbn [fst snd] in Hgroup.
  pose proof (choose_spec (latest_group (p :: ps) (max_ts p ps))) as Hch.
  destruct (choose (latest_group (p :: ps) (max_ts p ps))) as [c|];
    cbn [kind suggested_bpm_value]; (split; [reflexivity|]).
  - destruct Hch as (Hin & Hpos & Hlow).
    apply Hgroup in Hin as [Hin Hrec]. exists c.
    split; [exact Hin|]. split; [exact Hrec|]. split; [reflexivity|].
    split; [exact Hpos|].
    intros r Hr Hrecr Hposr. apply Hlow; [|exact Hposr]. apply Hgroup. auto.
  - intros r Hr Hrecr. apply Hch. apply Hgroup. auto.
Qed.

Lemma suggested_tempo_positive (sessions : list Row) (song a b v : Z) :
  suggested_bpm_value (_compute_suggestion sessions song a b) = Some v ->
  0 < v.
Proof.
  intros Hv.
  destruct (overlapping_rows sessions song a b) as [|r0 rest] eqn:Erows.
  { unfold _compute_suggestion in Hv. rewrite Erows in Hv. discriminate. }
  assert (Hne : overlapping_rows sessions song a b <> [])
    by (rewrite Erows; discriminate).
  destruct (achieved_per_bar (overlapping_rows sessions song a b) a b)
    as [|kv l] eqn:Eapb.
  - destruct (latest_branch sessions song a b Hne Eapb) as [_ Hs].
    rewrite Hv in Hs. destruct Hs as (c & _ & _ & _ & Hpos & _). exact Hpos.
  - destruct (achieved_branch sessions song a b) as (m & _ & Hs & Hex & _).
    { rewrite Eapb. discriminate. }
    rewrite Hv in Hs. injection Hs as <-.
    destruct Hex as (n & _ & (r & _ & _ & (_ & Hpos & _) & Ht) & _).
    unfold tempo in Ht. lia.
Qed.

(** X7: a suggested tempo is never zero or negative and never made up: when
    [_compute_suggestion] returns a tempo, the result is not of kind
    [none], the tempo is positive, and it is the tempo of one of the
    overlapping rows of the log. *)
Theorem suggested_tempo_is_positive_row_tempo :
  forall (sessions : list Row) (song a b v : Z),
    suggested_bpm_value (_compute_suggestion sessions song a b) = Some v ->
    kind (_compute_suggestion sessions song a b) <> none /\
    0 < v /\
    exists r, In r (overlapping_rows sessions song a b) /\ tempo r = v.
Proof.
  intros sessions song a b v Hv.
  destruct (overlapping_rows sessions song a b) as [|r0 rest] eqn:Erows.
  { unfold _compute_suggestion in Hv. rewrite Erows in Hv. discriminate. }
  assert (Hne : overlapping_rows sessions song a b <> [])
    by (rewrite Erows; discriminate).
  rewrite <- Erows.
  destruct (achieved_per_bar (overlapping_rows sessions song a b) a b)
    as [|kv l] eqn:Eapb.
  - destruct (latest_branch sessions song a b Hne Eapb) as [Hk Hs].
    rewrite Hv in Hs. destruct Hs as (c & Hin & _ & Ht & Hpos & _).
    split; [rewrite Hk; discriminate|]. split; [exact Hpos|].
    exists c. auto.
  - destruct (achieved_branch sessions song a b) as (m & Hk & Hs & Hex & _).
    { rewrite Eapb. discriminate. }
    rewrite Hv in Hs. injection Hs as <-.
    destruct Hex as (n & _ & (r & Hin & _ & (_ & Hpos & _) & Ht) & _).
    split; [rewrite Hk; discriminate|].
    split; [unfold tempo in Ht; lia|]. exists r. auto.
Qed.

Lemma suggested_tempo_is_positive_row_tempo_witness :
  kind (_compute_suggestion example_tie_log 1 1 8) <> none /\
  0 < 120 /\
  exists r, In r (overlapping_rows example_tie_log 1 1 8) /\ tempo r = 120.
Proof.
  exact (suggested_tempo_is_positive_row_tempo example_tie_log 1 1 8 120 eq_refl).
Defined.

(** ** Order and repetition of the rows *)

Lemma bar_minimum_membership (rows rows' : list Row) (n v : Z) :
  (forall r, In r rows /\ covers r n <-> In r rows' /\ covers r n) ->
  bar_minimum rows n v -> bar_minimum rows' n v.
Proof.
  intros Hmem [(r & Hin & Hc & Ha & Ht) Hlow]. split.
  - exists r. destruct (proj1 (Hmem r) (conj Hin Hc)) as [Hin' _]. auto.
  - intros r' Hin' Hc' Ha'.
    destruct (proj2 (Hmem r') (conj Hin' Hc')) as [Hin'' _]. auto.
Qed.

Lemma most_recent_membership (rows rows' : list Row) (r : Row) :
  (forall x, In x rows <-> In x rows') ->
  most_recent rows r -> most_recent rows' r.
Proof.
  intros Hmem. unfold most_recent. destruct (timestamp_start r).
  - intros H r' t' Hin. apply H. apply Hmem. exact Hin.
  - intros H r' Hin. apply H. apply Hmem. exact Hin.
Qed.

Lemma achieved_per_bar_membership (rows rows' : list Row) (a b : Z) :
  (forall r, In r rows -> exists bs be, bar_start r = Some bs /\ bar_end r = Some be) ->
  (forall r, In r rows <-> In r rows') ->
  achieved_per_bar rows a b = achieved_per_bar rows' a b.
Proof.
  intros Hbars Hmem.
  assert (Hbars' : forall r, In r rows' ->
                     exists bs be, bar_start r = Some bs /\ bar_end r = Some be)
    by (intros r Hin; apply Hbars, Hmem, Hin).
  unfold achieved_per_bar. apply flat_map_ext. intros bar.
  assert (Hcov : forall r, In r rows /\ covers r bar <-> In r rows' /\ covers r bar)
    by (intros r; rewrite (Hmem r); reflexivity).
  assert (Hcov' : forall r, In r rows' /\ covers r bar <-> In r rows /\ covers r bar)
    by (intros r; rewrite (Hmem r); reflexivity).
  destruct (best_min_bpm rows bar) as [v|] eqn:E.
  - apply (best_min_bpm_some rows Hbars) in E.
    apply (bar_minimum_membership rows rows' bar v Hcov) in E.
    apply (best_min_bpm_some rows' Hbars') in E. rewrite E. reflexivity.
  - assert (E' : best_min_bpm rows' bar = None).
    { apply (best_min_bpm_none rows' Hbars'). intros r Hin.
      apply (proj1 (best_min_bpm_none rows Hbars bar) E). apply Hmem. exact Hin. }
    rewrite E'. reflexivity.
Qed.

(** X8: the kind and the tempo of a suggestion depend only on which rows the
    log contains: two logs with the same rows, in any order and with any
    repetitions, get the same kind and the same suggested tempo. *)
Theorem suggestion_ignores_row_order :
  forall (sessions sessions' : list Row) (song a b : Z),
    (forall r, In r sessions <-> In r sessions') ->
    kind (_compute_suggestion sessions song a b) =
    kind (_compute_suggestion sessions' song a b) /\
    suggested_bpm_value (_compute_suggestion sessions song a b) =
    suggested_bpm_value (_compute_suggestion sessions' song a b).
Proof.
  intros sessions sessions' song a b Hlog.
  assert (Hmem : forall r, In r (overlapping_rows sessions song a b) <->
                           In r (overlapping_rows sessions' song a b)).
  { intros r. rewrite !overlapping_rows_spec, (Hlog r). reflexivity. }
  pose proof (overlapping_rows_have_bars sessions song a b) as Hbars.
  pose proof (achieved_per_bar_membership _ _ a b Hbars Hmem) as Hapb.
  destruct (overlapping_rows sessions song a b) as [|r0 rest] eqn:Erows.
  - assert (Erows' : overlapping_rows sessions' song a b = []).
    { destruct (overlapping_rows sessions' song a b) as [|x l];
        [reflexivity|].
      destruct (proj2 (Hmem x) (or_introl eq_refl)). }
    unfold _compute_suggestion. rewrite Erows, Erows'. auto.
  - assert (Hne : overlapping_rows sessions song a b <> [])
      by (rewrite Erows; discriminate).
    assert (Hne' : overlapping_rows sessions' song a b <> []).
    { intros E. rewrite E in Hmem.
      destruct (proj1 (Hmem r0) (or_introl eq_refl)). }
    rewrite <- Erows in Hmem, Hapb.
    destruct (achieved_per_bar (overlapping_rows sessions song a b) a b)
      as [|kv l] eqn:Eapb.
    + destruct (latest_branch sessions song a b Hne Eapb) as [Hk Hs].
      destruct (latest_branch sessions' song a b Hne' (eq_sym Hapb))
        as [Hk' Hs'].
      split; [congruence|].
      destruct (suggested_bpm_value (_compute_suggestion sessions song a b))
        as [v|];
        destruct (suggested_bpm_value (_compute_suggestion sessions' song a b))
        as [v'|].
      * destruct Hs as (c & Hin & Hrec & Ht & Hpos & Hlow).
        destruct Hs' as (c' & Hin' & Hrec' & Ht' & Hpos' & Hlow').
        assert (v <= v').
        { rewrite <- Ht'. apply Hlow; [apply Hmem; exact Hin'| |lia].
          apply (most_recent_membership _ _ c' (fun x => iff_sym (Hmem x))).
          exact Hrec'. }
        assert (v' <= v).
        { rewrite <- Ht. apply Hlow'; [apply Hmem; exact Hin| |lia].
          apply (most_recent_membership _ _ c Hmem). exact Hrec. }
        f_equal. lia.
      * destruct Hs as (c & Hin & Hrec & Ht & Hpos & _).
        assert (tempo c <= 0).
        { apply Hs'; [apply Hmem; exact Hin|].
          apply (most_recent_membership _ _ c Hmem). exact Hrec. }
        lia.
      * destruct Hs' as (c' & Hin' & Hrec' & Ht' & Hpos' & _).
        assert (tempo c' <= 0).
        { apply Hs; [apply Hmem; exact Hin'|].
          apply (most_recent_membership _ _ c' (fun x => iff_sym (Hmem x))).
          exact Hrec'. }
        lia.
      * reflexivity.
    + destruct (achieved_branch sessions song a b)
        as (m & Hk & Hs & (n & Hn & Hmin) & Hlow);
        [rewrite Eapb; discriminate|].
      destruct (achieved_branch sessions' song a b)
        as (m' & Hk' & Hs' & (n' & Hn' & Hmin') & Hlow');
        [rewrite <- Hapb; discriminate|].
      split; [congruence|]. rewrite Hs, Hs'. f_equal.
      assert (m' <= m).
      { apply (Hlow' n m Hn).
        apply (bar_minimum_membership
                 (overlapping_rows sessions song a b)
                 (overlapping_rows sessions' song a b) n m); [|exact Hmin].
        intros r. rewrite (Hmem r). reflexivity. }
      assert (m <= m').
      { apply (Hlow n' m' Hn').
        apply (bar_minimum_membership
                 (overlapping_rows sessions' song a b)
                 (overlapping_rows sessions song a b) n' m'); [|exact Hmin'].
        intros r. rewrite (Hmem r). reflexivity. }
      lia.
Qed.

Lemma suggestion_ignores_row_order_witness :
  kind (_compute_suggestion example_tie_log 1 1 8) =
  kind (_compute_suggestion (rev example_tie_log ++ example_tie_log) 1 1 8) /\
  suggested_bpm_value (_compute_suggestion example_tie_log 1 1 8) =
  suggested_bpm_value
    (_compute_suggestion (rev example_tie_log ++ example_tie_log) 1 1 8).
Proof.
  apply (suggestion_ignores_row_order example_tie_log
           (rev example_tie_log ++ example_tie_log) 1 1 8).
  intros r. rewrite in_app_iff, <- in_rev. split; [auto|intros [H|H]; exact H].
Defined.

(** ** Widening the range *)

Lemma kind_achieved_has_bars (sessions : list Row) (song a b : Z) :
  kind (_compute_suggestion sessions song a b) = achieved ->
  achieved_per_bar (overlapping_rows sessions song a b) a b <> [].
Proof.
  intros Hk Hnil.
  destruct (overlapping_rows sessions song a b) as [|r0 rest] eqn:Erows.
  - unfold _compute_suggestion in Hk. rewrite Erows in Hk. discriminate.
  - rewrite <- Erows in Hnil.
    destruct (latest_branch sessions song a b) as [Hk' _];
      [rewrite Erows; discriminate|exact Hnil|].
    congruence.
Qed.

(** On a log where no division overflows, asking about more bars never
    raises an achieved suggestion. *)
Lemma wider_range_without_overflow :
  forall (sessions : list Row) (song a b a' b' m : Z),
    a' <= a -> b <= b' ->
    kind (_compute_suggestion sessions song a b) = achieved ->
    suggested_bpm_value (_compute_suggestion sessions song a b) = Some m ->
    kind (_compute_suggestion sessions song a' b') = achieved /\
    exists m' : Z,
      suggested_bpm_value (_compute_suggestion sessions song a' b') = Some m' /\
      m' <= m.
Proof.
  intros sessions song a b a' b' m Ha Hb Hk Hs.
  destruct (achieved_branch sessions song a b (kind_achieved_has_bars _ _ _ _ Hk))
    as (m0 & _ & Hs0 & (n & Hn & Hmin) & _).
  rewrite Hs in Hs0. injection Hs0 as <-.
  assert (Hn' : a' <= n <= b') by lia.
  assert (Hmin' : bar_minimum (overlapping_rows sessions song a' b') n m).
  { apply (bar_minimum_membership
             (overlapping_rows sessions song a b)
             (overlapping_rows sessions song a' b') n m); [|exact Hmin].
    intros r. rewrite (covered_row_overlaps sessions song a b n r Hn).
    rewrite (covered_row_overlaps sessions song a' b' n r Hn'). reflexivity. }
  pose proof (overlapping_rows_have_bars sessions song a' b') as Hbars'.
  destruct (achieved_branch sessions song a' b') as (m' & Hk' & Hs' & _ & Hlow').
  - intros Hnil.
    assert (Hin : In (n, m) (achieved_per_bar (overlapping_rows sessions song a' b') a' b'))
      by (apply (achieved_per_bar_spec _ Hbars'); auto).
    rewrite Hnil in Hin. destruct Hin.
  - split; [exact Hk'|]. exists m'. split; [exact Hs'|].
    apply (Hlow' n m Hn' Hmin').
Qed.

End SuggestMore.

(* ================================================================== *)
(** * The suggestion and the overflow of the division *)
(* ================================================================== *)

Section SuggestExnFacts.

Import Suggest.

(** ** The loops with and without the exception *)

Lemma row_candidate_exn (bar : Z) (r : Row) :
  SuggestExn.row_candidate bar r =
  if SuggestExn.covers_bar bar r && SuggestExn.row_overflows r
  then Raise OverflowError
  else Ok (row_candidate bar r).
Proof.
  unfold SuggestExn.row_candidate, row_candidate, SuggestExn.covers_bar,
    SuggestExn.row_overflows.
  destruct (swap_if_gt (safe_int (bar_start r) 0) (safe_int (bar_end r) 0))
    as [bs be].
  destruct ((bs <=? bar) && (bar <=? be)); cbn [negb andb]; [|reflexivity].
  destruct (safe_int (reps r) 0 <=? 0) eqn:E.
  - apply Z.leb_le in E.
    replace (0 <? safe_int (reps r) 0) with false
      by (symmetry; apply Z.ltb_ge; exact E).
    reflexivity.
  - apply Z.leb_gt in E.
    replace (0 <? safe_int (reps r) 0) with true
      by (symmetry; apply Z.ltb_lt; exact E).
    cbn [andb].
    destruct (SuggestExn.division_overflows (safe_int (success r) 0)
                (safe_int (reps r) 0)); [reflexivity|].
    destruct (safe_int (bpm r) 0 <=? 0); [reflexivity|].
    destruct (acc_ge_threshold (safe_int (success r) 0) (safe_int (reps r) 0));
      reflexivity.
Qed.

Lemma best_min_bpm_from_exn (bar : Z) (rows : list Row) :
  forall best : option Z,
    SuggestExn.best_min_bpm_from bar rows best =
    if existsb (fun r => SuggestExn.covers_bar bar r && SuggestExn.row_overflows r)
               rows
    then Raise OverflowError
    else Ok (fold_left (keep_lower bar) rows best).
Proof.
  induction rows as [|r rest IH]; intros best; [reflexivity|].
  cbn [SuggestExn.best_min_bpm_from existsb fold_left].
  unfold SuggestExn.keep_lower. rewrite row_candidate_exn.
  destruct (SuggestExn.covers_bar bar r && SuggestExn.row_overflows r);
    [reflexivity|].
  cbn [orb]. unfold keep_lower at 2.
  destruct (row_candidate bar r) as [v|]; [|apply IH].
  destruct best as [w|]; apply IH.
Qed.

Lemma achieved_per_bar_of_exn (rows : list Row) (bars : list Z) :
  SuggestExn.achieved_per_bar_of rows bars =
  if existsb
       (fun bar =>
          existsb (fun r => SuggestExn.covers_bar bar r &&
                            SuggestExn.row_overflows r) rows)
       bars
  then Raise OverflowError
  else Ok (flat_map
             (fun bar =>
                match best_min_bpm rows bar with
                | Some v => [(bar, v)]
                | None => []
                end)
             bars).
Proof.
  induction bars as [|bar rest IH]; [reflexivity|].
  cbn [SuggestExn.achieved_per_bar_of existsb flat_map].
  unfold SuggestExn.best_min_bpm. rewrite best_min_bpm_from_exn.
  destruct (existsb (fun r => SuggestExn.covers_bar bar r &&
                              SuggestExn.row_overflows r) rows);
    [reflexivity|].
  cbn [orb]. rewrite IH.
  destruct (existsb _ rest); [reflexivity|].
  fold (best_min_bpm rows bar).
  destruct (best_min_bpm rows bar); reflexivity.
Qed.

(** An overlapping row is met by the bar loop: it covers a bar of the
    range. *)
Lemma overlapping_row_covers_a_bar (sessions : list Row) (song a b : Z) (r : Row) :
  In r (overlapping_rows sessions song a b) ->
  exists bar : Z, In bar (bar_range a b) /\ SuggestExn.covers_bar bar r = true.
Proof.
  intros Hin. apply overlapping_rows_spec in Hin
    as (_ & _ & bs & be & Hs & He & Hov).
  exists (Z.max a (Z.min bs be)). split; [apply bar_range_spec; lia|].
  unfold SuggestExn.covers_bar. rewrite Hs, He. cbn [safe_int].
  rewrite swap_if_gt_spec. apply andb_true_iff.
  split; apply Z.leb_le; lia.
Qed.

Lemma existsb_false (A : Type) (f : A -> bool) (l : list A) :
  existsb f l = false <-> forall x, In x l -> f x = false.
Proof.
  split.
  - intros H x Hin. destruct (f x) eqn:E; [|reflexivity].
    assert (existsb f l = true) by (apply existsb_exists; exists x; auto).
    congruence.
  - intros H. destruct (existsb f l) eqn:E; [|reflexivity].
    apply existsb_exists in E as (x & Hin & Hx). rewrite (H x Hin) in Hx.
    discriminate.
Qed.

Lemma bar_loop_raises (sessions : list Row) (song a b : Z) :
  existsb
    (fun bar =>
       existsb (fun r => SuggestExn.covers_bar bar r &&
                         SuggestExn.row_overflows r)
               (overlapping_rows sessions song a b))
    (bar_range a b) =
  existsb SuggestExn.row_overflows (overlapping_rows sessions song a b).
Proof.
  destruct (existsb SuggestExn.row_overflows (overlapping_rows sessions song a b))
    eqn:E.
  - apply existsb_exists in E as (r & Hin & Hr).
    destruct (overlapping_row_covers_a_bar sessions song a b r Hin)
      as (bar & Hbar & Hc).
    apply existsb_exists. exists bar. split; [exact Hbar|].
    apply existsb_exists. exists r. split; [exact Hin|].
    rewrite Hc, Hr. reflexivity.
  - apply existsb_false. intros bar _. apply existsb_false. intros r Hin.
    rewrite (proj1 (existsb_false _ _ _) E r Hin). apply andb_false_r.
Qed.

(** [_compute_suggestion] raises [OverflowError] exactly when the division
    of some overlapping row overflows, and otherwise returns what
    [Suggest._compute_suggestion] gives. *)
Lemma compute_suggestion_exn (sessions : list Row) (song a b : Z) :
  SuggestExn._compute_suggestion sessions song a b =
  if existsb SuggestExn.row_overflows (overlapping_rows sessions song a b)
  then Raise OverflowError
  else Ok (_compute_suggestion sessions song a b).
Proof.
  pose proof (bar_loop_raises sessions song a b) as Hraise.
  unfold SuggestExn._compute_suggestion, _compute_suggestion.
  destruct (overlapping_rows sessions song a b) as [|r0 rest] eqn:Erows;
    [reflexivity|].
  unfold SuggestExn.achieved_per_bar. rewrite achieved_per_bar_of_exn, Hraise.
  destruct (existsb SuggestExn.row_overflows (r0 :: rest)) eqn:E;
    [reflexivity|].
  fold (achieved_per_bar (r0 :: rest) a b).
  destruct (achieved_per_bar (r0 :: rest) a b) as [|first others];
    [|reflexivity].
  pose proof (latest_group_most_recent r0 rest) as Hgroup.
  destruct (parsed r0 rest) as [p ps]. cbn [fst snd] in Hgroup.
  pose proof (choose_spec (latest_group (p :: ps) (max_ts p ps))) as Hch.
  destruct (choose (latest_group (p :: ps) (max_ts p ps))) as [c|];
    [|reflexivity].
  destruct Hch as (Hin & _). apply Hgroup in Hin as [Hin _].
  pose proof (proj1 (existsb_false _ _ _) E c Hin) as Hc.
  unfold SuggestExn.row_overflows in Hc.
  unfold SuggestExn.accuracy, accuracy.
  destruct (0 <? safe_int (reps c) 0); [|reflexivity].
  cbn [andb] in Hc. rewrite Hc. reflexivity.
Qed.

Lemma no_overflow_returns (sessions : list Row) (song a b : Z) :
  (forall r, In r (overlapping_rows sessions song a b) ->
             SuggestExn.row_overflows r = false) ->
  SuggestExn._compute_suggestion sessions song a b =
  Ok (_compute_suggestion sessions song a b).
Proof.
  intros H. rewrite compute_suggestion_exn.
  rewrite (proj2 (existsb_false _ _ _) H). reflexivity.
Qed.

Lemma returns_no_overflow (sessions : list Row) (song a b : Z) (res : Suggestion) :
  SuggestExn._compute_suggestion sessions song a b = Ok res ->
  res = _compute_suggestion sessions song a b.
Proof.
  rewrite compute_suggestion_exn.
  destruct (existsb _ _); [discriminate|]. intros H. injection H as <-.
  reflexivity.
Qed.

(** ** The achieved suggestion *)

(** C1, as stated, fails: the only row covers bars 1 to 8 with 10
    successes in 10 repetitions, so every bar of [[1,8]] is covered by an
    overlapping row with success/reps >= 0.90, but its tempo is 0, the bar
    loop passes over it, and the result is of kind [latest]. *)
Lemma achieving_ratio_with_tempo_zero_not_achieved :
  In (example_row 0 10 10 0)
     (overlapping_rows [example_row 0 10 10 0] 1 1 8) /\
  covers (example_row 0 10 10 0) 1 /\
  0 < safe_int (reps (example_row 0 10 10 0)) 0 /\
  9 * safe_int (reps (example_row 0 10 10 0)) 0 <=
    10 * safe_int (success (example_row 0 10 10 0)) 0 /\
  SuggestExn.row_overflows (example_row 0 10 10 0) = false /\
  SuggestExn._compute_suggestion [example_row 0 10 10 0] 1 1 8 =
    Ok {| kind := latest; suggested_bpm_value := None;
          details := LatestInvalid |}.
Proof.
  split; [left; reflexivity|].
  split; [exists 1, 8; repeat split; simpl; lia|].
  split; [simpl; lia|]. split; [simpl; lia|].
  split; vm_compute; reflexivity.
Qed.

(** C1, amended: the division success/reps of an overlapping row with a
    positive repetition count is made whatever the tempo of the row is;
    if for one of them the quotient is beyond the range of a double, the
    call raises [OverflowError].  Otherwise, call a row achieving when its
    repetition count and its tempo are positive and its success/reps is at
    least 0.90 (rows with a non-positive count or tempo are passed over).
    If some bar of [[a,b]] is covered by an achieving overlapping row, the
    result has kind [achieved]; its tempo is the least, over the bars of
    [[a,b]], of the per-bar lowest tempo among the achieving rows covering
    the bar; the bottleneck bars are the bars whose per-bar lowest tempo
    is that value, the gap bars are the bars of [[a,b]] no achieving row
    covers, and the text shows the first ten of each.  For a repetition
    count below [2^51] the test on success/reps is the test on the exact
    fraction. *)
Theorem achieved_suggestion_is_bottleneck_minimum :
  forall (sessions : list Row) (song a b : Z),
    ((exists r, In r (overlapping_rows sessions song a b) /\
                SuggestExn.row_overflows r = true) ->
     SuggestExn._compute_suggestion sessions song a b = Raise OverflowError) /\
    ((forall r, In r (overlapping_rows sessions song a b) ->
                SuggestExn.row_overflows r = false) ->
     (exists n r,
         a <= n <= b /\ In r (overlapping_rows sessions song a b) /\
         covers r n /\ achieving r) ->
     exists (m : Z) (res : Suggestion),
       let rows := overlapping_rows sessions song a b in
       let bns := bottlenecks (achieved_per_bar rows a b) m in
       let mis := missing (achieved_per_bar rows a b) a b in
       SuggestExn._compute_suggestion sessions song a b = Ok res /\
       kind res = achieved /\
       suggested_bpm_value res = Some m /\
       (exists n, a <= n <= b /\ bar_minimum rows n m) /\
       (forall n v, a <= n <= b -> bar_minimum rows n v -> m <= v) /\
       (forall n, In n bns <-> a <= n <= b /\ bar_minimum rows n m) /\
       (forall n, In n mis <->
                  a <= n <= b /\
                  forall r, In r rows -> covers r n -> ~ achieving r) /\
       details res =
         AchievedDetail m (firstn 10 bns) (10 <? Z.of_nat (List.length bns))
                        (firstn 10 mis) (10 <? Z.of_nat (List.length mis)) /\
       (forall r, 0 < safe_int (reps r) 0 < 2 ^ 51 ->
                  (achieving r <->
                   0 < tempo r /\
                   9 * safe_int (reps r) 0 <= 10 * safe_int (success r) 0))).
Proof.
  intros sessions song a b. split.
  - intros (r & Hin & Hr). rewrite compute_suggestion_exn.
    replace (existsb SuggestExn.row_overflows (overlapping_rows sessions song a b))
      with true; [reflexivity|].
    symmetry. apply existsb_exists. exists r. auto.
  - intros Hfin Hex.
    destruct (achieved_without_overflow sessions song a b Hex) as (m & H).
    exists m, (_compute_suggestion sessions song a b).
    cbv zeta in *. split; [apply no_overflow_returns; exact Hfin|exact H].
Qed.

Lemma achieved_suggestion_is_bottleneck_minimum_witness :
  exists (m : Z) (res : Suggestion),
    SuggestExn._compute_suggestion example_achieved_log 1 1 8 = Ok res /\
    kind res = achieved /\
    suggested_bpm_value res = Some m /\
    (forall n v,
        1 <= n <= 8 ->
        bar_minimum (overlapping_rows example_achieved_log 1 1 8) n v ->
        m <= v).
Proof.
  destruct (achieved_suggestion_is_bottleneck_minimum example_achieved_log 1 1 8)
    as [_ H].
  destruct H as (m & res & H0 & H1 & H2 & _ & H3 & _).
  - intros r [<-|[<-|[]]]; vm_compute; reflexivity.
  - exists 1, (example_row 100 10 9 0).
    split; [lia|]. split; [left; reflexivity|].
    split; [exists 1, 8; repeat split; simpl; lia|].
    repeat split; simpl; try lia; reflexivity.
  - exists m, res. repeat split; assumption.
Defined.

(** The second half of the worked log extended by a row of bars 9 to 12
    whose success count has 401 digits: asked about bars 1 to 8 the log
    gives the achieved tempo 100, asked about bars 1 to 12 the call
    raises. *)
Example example_overflow_row_raises :
  SuggestExn._compute_suggestion
    (example_achieved_log ++ [SuggestExn.example_overflow_row]) 1 1 8 =
    Ok {| kind := achieved; suggested_bpm_value := Some 100;
          details := AchievedDetail 100 [1; 2; 3; 4; 5; 6; 7; 8] false [] false |} /\
  SuggestExn._compute_suggestion
    (example_achieved_log ++ [SuggestExn.example_overflow_row]) 1 1 12 =
    Raise OverflowError.
Proof. split; vm_compute; reflexivity. Qed.

(** ** The fallback to the most recent rows *)

(** C4, as stated, fails: two overlapping rows started at the same second,
    neither achieving, with tempos 0 and 120.  Both are in the most recent
    group, the row with the lowest tempo of that group has tempo 0, which is
    not positive, and yet the suggestion is 120, not absent. *)
Lemma lowest_tempo_of_group_is_passed_over :
  overlapping_rows example_tie_log 1 1 8 = example_tie_log /\
  ~ (exists r, In r example_tie_log /\
               9 * safe_int (reps r) 0 <= 10 * safe_int (success r) 0) /\
  most_recent example_tie_log (example_row 0 5 2 100) /\
  most_recent example_tie_log (example_row 120 5 2 100) /\
  ~ (exists r, In r example_tie_log /\ tempo r < tempo (example_row 0 5 2 100)) /\
  ~ 0 < tempo (example_row 0 5 2 100) /\
  SuggestExn.row_overflows (example_row 0 5 2 100) = false /\
  SuggestExn.row_overflows (example_row 120 5 2 100) = false /\
  SuggestExn._compute_suggestion example_tie_log 1 1 8 =
    Ok {| kind := latest; suggested_bpm_value := Some 120;
          details := LatestDetail 120 (2 # 5) (example_row 120 5 2 100) |}.
Proof.
  split; [reflexivity|].
  split; [intros (r & [<-|[<-|[]]] & H); simpl in H; lia|].
  split; [intros r' t' [<-|[<-|[]]] H; injection H as <-; lia|].
  split; [intros r' t' [<-|[<-|[]]] H; injection H as <-; lia|].
  split; [intros (r & [<-|[<-|[]]] & H); unfold tempo in H; simpl in H; lia|].
  split; [unfold tempo; simpl; lia|].
  split; [vm_compute; reflexivity|].
  split; vm_compute; reflexivity.
Qed.

(** C4, amended: when there are overlapping rows, the division
    success/reps overflows for none of them, and no bar of the range is
    covered by an achieving one, the result has kind [latest].  The group
    searched is the overlapping rows whose timestamp is the most recent of
    those that parse (every overlapping row when none parses).  Rows of
    the group with a non-positive tempo are passed over: if the group has
    a row of positive tempo, the suggestion is the lowest positive tempo
    of the group, reported with the success ratio of the row it comes
    from; if it has none, the suggested tempo is absent. *)
Theorem latest_suggestion_is_lowest_positive_recent :
  forall (sessions : list Row) (song a b : Z),
    overlapping_rows sessions song a b <> [] ->
    (forall r, In r (overlapping_rows sessions song a b) ->
               SuggestExn.row_overflows r = false) ->
    (forall n r,
        a <= n <= b -> In r (overlapping_rows sessions song a b) ->
        covers r n -> ~ achieving r) ->
    exists res : Suggestion,
      let rows := overlapping_rows sessions song a b in
      SuggestExn._compute_suggestion sessions song a b = Ok res /\
      kind res = latest /\
      ((exists c : Row,
           In c rows /\ most_recent rows c /\ 0 < tempo c /\
           (forall r, In r rows -> most_recent rows r -> 0 < tempo r ->
                      tempo c <= tempo r) /\
           suggested_bpm_value res = Some (tempo c) /\
           details res = LatestDetail (tempo c) (accuracy c) c) \/
       ((forall r, In r rows -> most_recent rows r -> tempo r <= 0) /\
        suggested_bpm_value res = None /\
        details res = LatestInvalid)).
Proof.
  intros sessions song a b Hne Hfin Hnone.
  exists (_compute_suggestion sessions song a b). cbv zeta.
  split; [apply no_overflow_returns; exact Hfin|].
  exact (latest_without_overflow sessions song a b Hne Hnone).
Qed.

Lemma latest_suggestion_is_lowest_positive_recent_witness :
  exists res : Suggestion,
    SuggestExn._compute_suggestion [example_row 140 5 2 0] 1 1 8 = Ok res /\
    kind res = latest.
Proof.
  destruct (latest_suggestion_is_lowest_positive_recent
              [example_row 140 5 2 0] 1 1 8) as (res & H0 & H1 & _).
  - simpl. discriminate.
  - intros r [<-|[]]. vm_compute. reflexivity.
  - intros n r Hn Hin _ (_ & _ & Hacc).
    destruct Hin as [<-|[]]. vm_compute in Hacc. discriminate.
  - exists res. split; assumption.
Defined.

(** ** Widening the range *)

(** X9: asking about more bars never raises an achieved suggestion, as long
    as the call returns: if the suggestion for [[a,b]] is achieved with
    tempo [m], and no row overlapping the wider range [[a',b']] has a
    success/reps beyond the range of a double, the suggestion for
    [[a',b']] is achieved too, with a tempo that is at most [m].  (With
    such a row the call for the wider range raises [OverflowError].) *)
Theorem wider_range_suggests_no_faster :
  forall (sessions : list Row) (song a b a' b' m : Z) (res : Suggestion),
    a' <= a -> b <= b' ->
    SuggestExn._compute_suggestion sessions song a b = Ok res ->
    kind res = achieved ->
    suggested_bpm_value res = Some m ->
    ((forall r, In r (overlapping_rows sessions song a' b') ->
                SuggestExn.row_overflows r = false) ->
     exists (res' : Suggestion) (m' : Z),
       SuggestExn._compute_suggestion sessions song a' b' = Ok res' /\
       kind res' = achieved /\
       suggested_bpm_value res' = Some m' /\
       m' <= m) /\
    ((exists r, In r (overlapping_rows sessions song a' b') /\
                SuggestExn.row_overflows r = true) ->
     SuggestExn._compute_suggestion sessions song a' b' = Raise OverflowError).
Proof.
  intros sessions song a b a' b' m res Ha Hb Hres Hk Hs.
  apply returns_no_overflow in Hres. subst res. split.
  - intros Hfin.
    destruct (wider_range_without_overflow sessions song a b a' b' m Ha Hb Hk Hs)
      as (Hk' & m' & Hs' & Hle).
    exists (_compute_suggestion sessions song a' b'), m'.
    split; [apply no_overflow_returns; exact Hfin|auto].
  - intros (r & Hin & Hr). rewrite compute_suggestion_exn.
    replace (existsb SuggestExn.row_overflows (overlapping_rows sessions song a' b'))
      with true; [reflexivity|].
    symmetry. apply existsb_exists. exists r. auto.
Qed.

Lemma wider_range_suggests_no_faster_witness :
  exists (res' : Suggestion) (m' : Z),
    SuggestExn._compute_suggestion example_achieved_log 1 1 12 = Ok res' /\
    kind res' = achieved /\
    suggested_bpm_value res' = Some m' /\
    m' <= 100.
Proof.
  destruct (wider_range_suggests_no_faster example_achieved_log 1 3 5 1 12 100
              {| kind := achieved; suggested_bpm_value := Some 100;
                 details := AchievedDetail 100 [3; 4; 5] false [] false |})
    as [H _].
  - lia.
  - lia.
  - vm_compute. reflexivity.
  - reflexivity.
  - reflexivity.
  - apply H. intros r [<-|[<-|[]]]; vm_compute; reflexivity.
Defined.

End SuggestExnFacts.

(* ================================================================== *)
(** * More about the session *)
(* ================================================================== *)

Section SessionMore.

Import Tracker.

(** ** Starting *)

Lemma validate_ok (st : PracticeTracker) (bs be bpm : Z) :
  _validate_before_start st = Ok (bs, be, bpm) ->
  bar_start_var st = Text (Some bs) /\ bar_end_var st = Text (Some be) /\
  bpm_var st = Text (Some bpm) /\
  (exists song, selected_song_index st = Some song) /\
  1 <= bs <= be /\ 1 <= bpm <= 400.
Proof.
  unfold _validate_before_start.
  destruct (selected_song_index st) as [song|]; [|discriminate].
  destruct (selected_song_name st) as [name|]; [|discriminate].
  destruct (String.eqb name EmptyString); [discriminate|].
  destruct (bar_start_var st) as [|[a|]]; try discriminate.
  destruct (bar_end_var st) as [|[b|]]; try discriminate.
  destruct ((a <=? 0) || (b <=? 0)) eqn:E1; [discriminate|].
  destruct (b <? a) eqn:E2; [discriminate|].
  destruct (bpm_var st) as [|[t|]]; try discriminate.
  destruct ((t <=? 0) || (400 <? t)) eqn:E3; [discriminate|].
  intros H. injection H as <- <- <-.
  apply orb_false_iff in E1 as [E1a E1b]. apply orb_false_iff in E3 as [E3a E3b].
  apply Z.leb_gt in E1a, E1b, E3a. apply Z.ltb_ge in E2, E3b.
  repeat split; try lia. exists song. reflexivity.
Qed.

(** X10: [start_session] either changes nothing or begins a session from
    checked entries: when it completes, the locked bars are the entered
    ones with [1 <= bar_start <= bar_end], the locked tempo is the entered
    one and lies in [1,400], both counters are 0, and the metronome thread
    is alive and set to the locked tempo with a meter in [1,32]; in every
    other case (a session already active, or an entry refused) the tracker
    is exactly as before. *)
Theorem start_session_locks_checked_entries :
  forall (st : PracticeTracker) (sid iso : string) (epoch : Q),
    let st' := fst (start_session st sid iso epoch) in
    let o := snd (start_session st sid iso epoch) in
    (o = Completed ->
     exists bs be bpm : Z,
       bar_start_var st = Text (Some bs) /\ bar_end_var st = Text (Some be) /\
       bpm_var st = Text (Some bpm) /\
       locked_bar_start st' = Some bs /\ locked_bar_end st' = Some be /\
       locked_bpm st' = Some bpm /\
       1 <= bs <= be /\ 1 <= bpm <= 400 /\
       active st' = true /\ reps st' = 0 /\ success st' = 0 /\
       t_start_epoch st' = Some epoch /\
       Metronome.is_running (metro st') = true /\
       Metronome.bpm (metro st') = bpm /\
       1 <= Metronome.beats_per_bar (metro st') <= 32) /\
    (o <> Completed -> st' = st).
Proof.
  intros st sid iso epoch. cbv zeta. unfold start_session.
  destruct (active st); [split; [discriminate|reflexivity]|].
  destruct (_validate_before_start st) as [[[bs be] bpm]|e] eqn:Ev;
    [|split; [discriminate|reflexivity]].
  apply validate_ok in Ev as (Hs & He & Hb & _ & Hbars & Hbpm).
  cbn [fst snd]. split; [|intros H; contradiction].
  intros _. exists bs, be, bpm. cbn.
  repeat (split; [assumption || reflexivity|]).
  set (bpb := if selected_beats_per_bar st =? 0 then 4 else selected_beats_per_bar st).
  destruct (Metronome.is_running (metro st)) eqn:Erun.
  - unfold Metronome.is_running, Metronome.update in *. simpl.
    split; [exact Erun|]. split; lia.
  - unfold Metronome.start, Metronome.is_running, Metronome.update in *.
    simpl. rewrite Erun. simpl. split; [reflexivity|]. split; lia.
Qed.

Lemma start_session_locks_checked_entries_witness :
  exists bs be bpm : Z,
    bar_start_var example_idle = Text (Some bs) /\
    bar_end_var example_idle = Text (Some be) /\
    bpm_var example_idle = Text (Some bpm) /\
    locked_bar_start example_running = Some bs /\
    locked_bar_end example_running = Some be /\
    locked_bpm example_running = Some bpm /\
    1 <= bs <= be /\ 1 <= bpm <= 400 /\
    active example_running = true /\ reps example_running = 0 /\
    success example_running = 0 /\
    t_start_epoch example_running = Some 0%Q /\
    Metronome.is_running (metro example_running) = true /\
    Metronome.bpm (metro example_running) = bpm /\
    1 <= Metronome.beats_per_bar (metro example_running) <= 32.
Proof.
  exact (proj1 (start_session_locks_checked_entries example_idle
                  "20260101_100000" "2026-01-01 10:00:00" 0) eq_refl).
Defined.

(** ** Rows that can be saved *)

Lemma start_session_wf (st : PracticeTracker) (sid iso : string) (epoch : Q) :
  session_wf st -> session_wf (fst (start_session st sid iso epoch)).
Proof.
  intros Hwf. unfold start_session.
  destruct (active st) eqn:Ea; [exact Hwf|].
  destruct (_validate_before_start st) as [[[bs be] bpm]|e] eqn:Ev;
    [|exact Hwf].
  apply validate_ok in Ev as (_ & _ & _ & Hsong & Hbars & Hbpm).
  intros _. cbn. split; [exact Hsong|]. split; [exists epoch; reflexivity|].
  split; [exists bs, be, bpm; auto|lia].
Qed.

Lemma with_counters_wf (st : PracticeTracker) (r s : Z) :
  session_wf st -> 0 <= s <= r -> session_wf (with_counters st r s).
Proof.
  intros Hwf Hrs Hact. destruct (Hwf Hact) as (H1 & H2 & H3 & _).
  cbn. auto.
Qed.

Lemma adjust_wf (st : PracticeTracker) (a : adjust) :
  session_wf st -> session_wf (adjust_counters st a).
Proof.
  intros Hwf. destruct a as [d|d]; simpl.
  - unfold add_rep. destruct (active st) eqn:Ea; [|exact Hwf]. simpl.
    destruct (Hwf Ea) as (_ & _ & _ & Hord).
    apply with_counters_wf; [exact Hwf|].
    destruct (Z.max 0 (reps st + d) <? success st) eqn:E; [lia|].
    apply Z.ltb_ge in E. lia.
  - unfold add_success. destruct (active st) eqn:Ea; [|exact Hwf]. simpl.
    destruct (Hwf Ea) as (_ & _ & _ & Hord).
    apply with_counters_wf; [exact Hwf|].
    destruct (reps st <? Z.max 0 (success st + d)) eqn:E; [lia|].
    apply Z.ltb_ge in E. lia.
Qed.

Lemma end_session_wf (st : PracticeTracker) : session_wf (end_session st).
Proof. intros H. discriminate H. Qed.

(** In a session that is in order, [finish_and_save] with a positive
    count and a writable file saves; the row is made of the locked values
    and the counters. *)
Lemma finish_saves (st : PracticeTracker) (t : string) (now : Q)
  (file : list Log.SessionRow) :
  session_wf st -> active st = true -> 0 < reps st ->
  exists row : Log.SessionRow,
    finish_and_save st t now true file =
      (end_session st, file ++ [row], Saved row) /\
    locked_bar_start st = Some (Log.bar_start row) /\
    locked_bar_end st = Some (Log.bar_end row) /\
    locked_bpm st = Some (Log.bpm row) /\
    selected_song_index st = Some (Log.song_index row) /\
    Log.reps row = reps st /\ Log.success row = success st /\
    Log.session_id row = session_id st /\
    Log.timestamp_start row = t_start_iso st /\
    Log.timestamp_end row = t /\
    Log.note row = note_var st /\
    (exists t0, t_start_epoch st = Some t0 /\
                Log.duration_sec row = round3 (now - t0)).
Proof.
  intros Hwf Hact Hreps.
  destruct (Hwf Hact) as ((song & Hsong) & (t0 & Ht0) &
                          (bs & be & bpm & Hbs & Hbe & Hbpm & _) & Hord).
  unfold finish_and_save. rewrite Hact. simpl negb. cbv iota.
  replace (reps st <=? 0) with false by (symmetry; apply Z.leb_gt; lia).
  rewrite Z.min_l by lia.
  assert (Hsame : with_counters st (reps st) (success st) = st)
    by (destruct st; reflexivity).
  rewrite Hsame. unfold make_row. rewrite Ht0, Hsong, Hbs, Hbe, Hbpm.
  eexists. split; [reflexivity|]. cbn.
  repeat (split; [reflexivity|]). exists t0. auto.
Qed.

Lemma finish_wf (st : PracticeTracker) (t : string) (now : Q) (ok : bool)
  (file : list Log.SessionRow) :
  session_wf st ->
  session_wf (fst (fst (finish_and_save st t now ok file))) /\
  (snd (fst (finish_and_save st t now ok file)) = file \/
   exists row, snd (fst (finish_and_save st t now ok file)) = file ++ [row] /\
               row_valid row).
Proof.
  intros Hwf. destruct (active st) eqn:Hact.
  - destruct (reps st <=? 0) eqn:Er.
    + unfold finish_and_save. rewrite Hact, Er. simpl. auto.
    + apply Z.leb_gt in Er. destruct ok.
      * destruct (finish_saves st t now file Hwf Hact Er)
          as (row & -> & Hbs & Hbe & Hbpm & _ & Hr & Hs & _).
        cbn [fst snd]. split; [apply end_session_wf|]. right. exists row.
        split; [reflexivity|].
        destruct (Hwf Hact) as (_ & _ & (bs & be & bpm & Hbs' & Hbe' & Hbpm' & H1 & H2) & Hord).
        unfold row_valid.
        assert (Log.bar_start row = bs) by congruence.
        assert (Log.bar_end row = be) by congruence.
        assert (Log.bpm row = bpm) by congruence.
        lia.
      * unfold finish_and_save. rewrite Hact. simpl negb. cbv iota.
        replace (reps st <=? 0) with false by (symmetry; apply Z.leb_gt; lia).
        destruct (Hwf Hact) as (_ & _ & _ & Hord).
        destruct (make_row _ t now); simpl;
          (split; [apply with_counters_wf; [exact Hwf|lia]|left; reflexivity]).
  - unfold finish_and_save. rewrite Hact. simpl. auto.
Qed.

Lemma exec_wf (c : command) (st : PracticeTracker)
  (file : list Log.SessionRow) :
  session_wf st ->
  session_wf (fst (fst (exec c st file))) /\
  (snd (fst (exec c st file)) = file \/
   exists row, snd (fst (exec c st file)) = file ++ [row] /\ row_valid row).
Proof.
  intros Hwf. destruct c; simpl.
  - pose proof (start_session_wf st sid iso epoch Hwf) as H.
    destruct (start_session st sid iso epoch). simpl in *. auto.
  - split; [apply (adjust_wf st (Rep delta) Hwf)|auto].
  - split; [apply (adjust_wf st (Succ delta) Hwf)|auto].
  - split; [|auto]. unfold reset_counts.
    destruct (active st); simpl; [|exact Hwf].
    apply with_counters_wf; [exact Hwf|lia].
  - unfold cancel_session. destruct (active st) eqn:E; simpl;
      (split; [|auto]); [apply end_session_wf|exact Hwf].
  - apply finish_wf. exact Hwf.
Qed.

(** X11: whatever the user does, what reaches the log is a record of the data
    model: starting from a tracker in order (in particular any tracker
    with no session), every row that any sequence of callbacks appends has
    [1 <= bar_start <= bar_end], a tempo in [1,400], [reps > 0] and
    [0 <= success <= reps], and the tracker stays in order. *)
Theorem saved_rows_are_valid :
  forall (cs : list command) (st : PracticeTracker)
         (file : list Log.SessionRow),
    session_wf st ->
    session_wf (fst (exec_all cs st file)) /\
    exists added : list Log.SessionRow,
      snd (exec_all cs st file) = file ++ added /\
      Forall row_valid added.
Proof.
  induction cs as [|c cs IH]; intros st file Hwf; simpl.
  - split; [exact Hwf|]. exists []. rewrite app_nil_r. auto.
  - destruct (exec_wf c st file Hwf) as [Hwf' Hfile].
    destruct (exec c st file) as [[st' file'] o]. simpl in Hwf', Hfile.
    destruct (IH st' file' Hwf') as (Hwf'' & added & Hadd & Hvalid).
    split; [exact Hwf''|].
    destruct Hfile as [->|(row & -> & Hrow)].
    + exists added. auto.
    + exists (row :: added). rewrite Hadd, <- app_assoc. simpl. auto.
Qed.

Lemma saved_rows_are_valid_witness :
  exists added : list Log.SessionRow,
    snd (exec_all [StartSession "20260101_100000" "2026-01-01 10:00:00" 0;
                   AddRep 5; AddSuccess 7;
                   FinishAndSave "2026-01-01 10:04:00" 240 true]
                  example_idle []) = [] ++ added /\
    Forall row_valid added.
Proof.
  destruct (saved_rows_are_valid
              [StartSession "20260101_100000" "2026-01-01 10:00:00" 0;
               AddRep 5; AddSuccess 7;
               FinishAndSave "2026-01-01 10:04:00" 240 true]
              example_idle []) as [_ H].
  - intros H. discriminate H.
  - exact H.
Defined.

(** X12: what [finish_and_save] writes: in a session begun by [start_session]
    with at least one repetition counted, it hands [append_csv] exactly
    one row, made of the locked bars and tempo, the selected song, the two
    counters, the session identifier, the start and end times and the
    note, with the duration rounded to milliseconds; when [append_csv]
    returns, it leaves the tracker idle with both counters at 0 and the
    stop event set.  (Where the text of the row lands in the file is
    [append_csv]'s business: it follows the last byte of the file.) *)
Theorem finish_saves_locked_values :
  forall (st : PracticeTracker) (t : string) (now : Q)
         (file : list Log.SessionRow),
    session_wf st -> active st = true -> 0 < reps st ->
    exists (row : Log.SessionRow) (file' : list Log.SessionRow),
      finish_and_save st t now true file =
        (end_session st, file', Saved row) /\
      locked_bar_start st = Some (Log.bar_start row) /\
      locked_bar_end st = Some (Log.bar_end row) /\
      locked_bpm st = Some (Log.bpm row) /\
      selected_song_index st = Some (Log.song_index row) /\
      Log.reps row = reps st /\ Log.success row = success st /\
      Log.session_id row = session_id st /\
      Log.timestamp_start row = t_start_iso st /\
      Log.timestamp_end row = t /\
      Log.note row = note_var st /\
      (exists t0, t_start_epoch st = Some t0 /\
                  Log.duration_sec row = round3 (now - t0)) /\
      active (end_session st) = false /\
      reps (end_session st) = 0 /\ success (end_session st) = 0 /\
      Metronome.stop_set (metro (end_session st)) = true.
Proof.
  intros st t now file Hwf Hact Hreps.
  destruct (finish_saves st t now file Hwf Hact Hreps) as (row & H).
  exists row, (file ++ [row]). cbn.
  repeat (split; [apply H|]). repeat split; apply H.
Qed.

Lemma finish_saves_locked_values_witness :
  exists (row : Log.SessionRow) (file' : list Log.SessionRow),
    finish_and_save example_one_rep "2026-01-01 10:04:00" (2401 # 10) true [] =
      (end_session example_one_rep, file', Saved row) /\
    Log.bpm row = 100 /\ Log.reps row = 1 /\
    (Log.duration_sec row == 2401 # 10)%Q.
Proof.
  destruct (finish_saves_locked_values example_one_rep
              "2026-01-01 10:04:00" (2401 # 10) [])
    as (row & file' & Hsave & _ & _ & Hbpm & _ & Hreps & _ & _ & _ & _ & _ & Hdur & _).
  - intros _. cbn. split; [exists 1; reflexivity|].
    split; [exists 0%Q; reflexivity|].
    split; [exists 1, 8, 100; repeat split; lia|lia].
  - reflexivity.
  - reflexivity.
  - exists row, file'. split; [exact Hsave|].
    split; [injection Hbpm as <-; reflexivity|].
    split; [exact Hreps|].
    destruct Hdur as (t0 & Ht0 & ->). injection Ht0 as <-. reflexivity.
Defined.

(** ** One row per session *)

Lemma exec_row_budget (c : command) (st : PracticeTracker)
  (file : list Log.SessionRow) :
  (List.length (snd (fst (exec c st file))) +
   open_sessions (fst (fst (exec c st file))) <=
   List.length file + open_sessions st + count_starts [c])%nat.
Proof.
  unfold open_sessions. destruct c; simpl.
  - unfold start_session. destruct (active st) eqn:Ea; simpl; rewrite ?Ea;
      [lia|].
    destruct (_validate_before_start st) as [[[bs be] bpm]|e]; simpl;
      rewrite ?Ea; lia.
  - change (add_rep st delta) with (adjust_counters st (Rep delta)).
    rewrite adjust_keeps_active. lia.
  - change (add_success st delta) with (adjust_counters st (Succ delta)).
    rewrite adjust_keeps_active. lia.
  - unfold reset_counts. destruct (active st) eqn:Ea; simpl; rewrite ?Ea; lia.
  - unfold cancel_session. destruct (active st) eqn:Ea; simpl; rewrite ?Ea; lia.
  - unfold finish_and_save. destruct (active st) eqn:Ea; simpl; rewrite ?Ea;
      [|lia].
    destruct (reps st <=? 0); simpl; rewrite ?Ea; [lia|].
    destruct (make_row _ t_end_iso now); simpl; rewrite ?Ea; [|lia].
    unfold Log.append_csv. destruct disk_ok; simpl; rewrite ?Ea; [|lia].
    rewrite length_app. simpl. lia.
Qed.

(** X13: a session is saved at most once: over any sequence of callbacks, the
    number of rows added to the log is at most the number of
    [start_session] calls in it, plus one if a session was already active
    at the beginning.  (Finishing twice, or finishing after a cancel, adds
    nothing.) *)
Theorem at_most_one_row_per_session :
  forall (cs : list command) (st : PracticeTracker)
         (file : list Log.SessionRow),
    (List.length (snd (exec_all cs st file)) <=
     List.length file + (if active st then 1 else 0) + count_starts cs)%nat.
Proof.
  assert (H : forall cs st file,
             (List.length (snd (exec_all cs st file)) +
              open_sessions (fst (exec_all cs st file)) <=
              List.length file + open_sessions st + count_starts cs)%nat).
  { induction cs as [|c cs IH]; intros st file; [simpl; lia|].
    assert (Hcount : count_starts (c :: cs) =
                     (count_starts [c] + count_starts cs)%nat)
      by (destruct c; reflexivity).
    rewrite Hcount. cbn [exec_all].
    pose proof (exec_row_budget c st file) as Hc.
    destruct (exec c st file) as [[st' file'] o]. cbn [fst snd] in Hc.
    specialize (IH st' file'). lia. }
  intros cs st file. specialize (H cs st file).
  unfold open_sessions in H at 2. lia.
Qed.

(** ** From a suggestion to a session *)

Lemma apply_suggested_keeps (st : PracticeTracker) (v : Z) :
  active st = false ->
  let st1 := apply_suggested_bpm st (Some v) in
  bpm_var st1 = Text (Some v) /\ active st1 = false /\
  selected_song_index st1 = selected_song_index st /\
  selected_song_name st1 = selected_song_name st /\
  selected_beats_per_bar st1 = selected_beats_per_bar st /\
  bar_start_var st1 = bar_start_var st /\ bar_end_var st1 = bar_end_var st /\
  Metronome.is_running (metro st1) = Metronome.is_running (metro st).
Proof.
  intros Hact. cbv zeta. unfold apply_suggested_bpm. rewrite Hact.
  unfold _sync_preview_if_running. cbn [metro with_bpm_var].
  destruct (Metronome.is_running (metro st)) eqn:Erun; simpl.
  - destruct (_get_preview_params (with_bpm_var st (Text (Some v))))
      as [[bpm bpb]|]; cbn; repeat split; auto.
  - cbn. repeat split; auto.
Qed.

(** X14: the tempo offered for the selected song and the entered bars, once
    put into the tempo entry by [apply_suggested_bpm], is what a session
    is started with.  With no session active and a named song selected:
    if [_update_suggestion] offers [v], then [v] is positive; if [v] is at
    most 400, [start_session] after [apply_suggested_bpm] completes, locks
    the tempo [v] and the entered bars, and the metronome plays at [v]; if
    [v] is above 400 (a row of the log can hold such a tempo), the start is
    refused with the error box and the tracker is as after applying. *)
Theorem applied_suggestion_starts_session :
  forall (st : PracticeTracker) (sessions : list Suggest.Row)
         (last : option Z) (v : Z) (name sid iso : string) (epoch : Q),
    active st = false ->
    selected_song_name st = Some name -> name <> EmptyString ->
    _update_suggestion st sessions last = Some v ->
    let st1 := apply_suggested_bpm st (Some v) in
    0 < v /\
    (v <= 400 ->
     snd (start_session st1 sid iso epoch) = Completed /\
     locked_bpm (fst (start_session st1 sid iso epoch)) = Some v /\
     (exists a b,
         _parse_bar_inputs st = Some (a, b) /\
         locked_bar_start (fst (start_session st1 sid iso epoch)) = Some a /\
         locked_bar_end (fst (start_session st1 sid iso epoch)) = Some b) /\
     Metronome.bpm (metro (fst (start_session st1 sid iso epoch))) = v) /\
    (400 < v -> start_session st1 sid iso epoch = (st1, ShowError)).
Proof.
  intros st sessions last v name sid iso epoch Hact Hname Hne Hsug.
  destruct (apply_suggested_keeps st v Hact)
    as (Hbpm & Hact1 & Hsong1 & Hname1 & Hbpb1 & Hbs1 & Hbe1 & Hrun1).
  cbv zeta.
  set (st1 := apply_suggested_bpm st (Some v)) in *.
  unfold _update_suggestion in Hsug. rewrite Hact in Hsug.
  destruct (selected_song_index st) as [song|] eqn:Esong; [|discriminate].
  destruct (_parse_bar_inputs st) as [[a b]|] eqn:Ebars; [|discriminate].
  apply suggested_tempo_positive in Hsug as Hpos.
  assert (Hentries : bar_start_var st = Text (Some a) /\
                     bar_end_var st = Text (Some b) /\ 1 <= a <= b).
  { revert Ebars. unfold _parse_bar_inputs.
    destruct (bar_start_var st) as [|[x|]]; try discriminate.
    destruct (bar_end_var st) as [|[y|]]; try discriminate.
    destruct ((x <=? 0) || (y <=? 0)) eqn:E1; [discriminate|].
    destruct (y <? x) eqn:E2; [discriminate|].
    intros H. injection H as <- <-.
    apply orb_false_iff in E1 as [E1a E1b].
    apply Z.leb_gt in E1a, E1b. apply Z.ltb_ge in E2. repeat split; lia. }
  destruct Hentries as (Hbs & Hbe & Hab).
  assert (Hnameb : String.eqb name EmptyString = false)
    by (apply String.eqb_neq; exact Hne).
  assert (Hval : _validate_before_start st1 =
                 if (v <=? 0) || (400 <? v) then Raise ValueError
                 else Ok (a, b, v)).
  { unfold _validate_before_start.
    rewrite Hsong1, Hname1, Hname, Hnameb, Hbs1, Hbe1, Hbs, Hbe, Hbpm.
    replace ((a <=? 0) || (b <=? 0)) with false
      by (symmetry; apply orb_false_iff; split; apply Z.leb_gt; lia).
    replace (b <? a) with false by (symmetry; apply Z.ltb_ge; lia).
    reflexivity. }
  split; [exact Hpos|]. split.
  - intros Hle. unfold start_session. rewrite Hact1, Hval.
    replace ((v <=? 0) || (400 <? v)) with false
      by (symmetry; apply orb_false_iff; split;
          [apply Z.leb_gt|apply Z.ltb_ge]; lia).
    cbn [fst snd]. split; [reflexivity|]. split; [reflexivity|].
    split; [exists a, b; auto|].
    cbn [metro with_session].
    destruct (Metronome.is_running (metro st1)).
    + unfold Metronome.update. simpl. lia.
    + rewrite (proj1 (start_params _ _ _)). unfold Metronome.update. simpl. lia.
  - intros Hgt. unfold start_session. rewrite Hact1, Hval.
    replace ((v <=? 0) || (400 <? v)) with true; [reflexivity|].
    symmetry. apply orb_true_iff. right. apply Z.ltb_lt. exact Hgt.
Qed.

Lemma applied_suggestion_starts_session_witness :
  snd (start_session (apply_suggested_bpm example_idle (Some 120))
         "20260101_100000" "2026-01-01 10:00:00" 0) = Completed /\
  locked_bpm (fst (start_session (apply_suggested_bpm example_idle (Some 120))
                     "20260101_100000" "2026-01-01 10:00:00" 0)) = Some 120.
Proof.
  destruct (applied_suggestion_starts_session example_idle
              Suggest.example_tie_log None 120 "Etude"
              "20260101_100000" "2026-01-01 10:00:00" 0)
    as (_ & H & _).
  - reflexivity.
  - reflexivity.
  - discriminate.
  - reflexivity.
  - destruct H as (H1 & H2 & _); [lia|]. split; assumption.
Defined.

(** ** Preview, then session *)

(** X15: a session started while the preview is playing takes the preview's
    thread over: from an idle tracker whose metronome is not running and
    whose tempo entry holds a positive number, the preview toggle starts
    the metronome (stop event cleared); a [start_session] that completes
    after it keeps that thread, alive and with the event still cleared,
    and only replaces its tempo and meter by the session's. *)
Theorem session_takes_over_preview :
  forall (st st2 : PracticeTracker) (sid iso : string) (epoch : Q),
    active st = false ->
    Metronome.is_running (metro st) = false ->
    start_session (fst (toggle_preview_metronome st)) sid iso epoch =
      (st2, Completed) ->
    let st1 := fst (toggle_preview_metronome st) in
    snd (toggle_preview_metronome st) = Completed /\
    Metronome.is_running (metro st1) = true /\
    Metronome.stop_set (metro st1) = false /\
    (exists bpm bpb,
        locked_bpm st2 = Some bpm /\
        metro st2 = Metronome.update (metro st1) bpm bpb) /\
    Metronome.thread_alive (metro st2) = true /\
    Metronome.stop_set (metro st2) = false.
Proof.
  intros st st2 sid iso epoch Hact Hrun Hstart. cbv zeta.
  assert (Hbpm : exists bpm, bpm_var st = Text (Some bpm) /\ 1 <= bpm <= 400).
  { revert Hstart. unfold toggle_preview_metronome, start_session.
    rewrite Hact, Hrun.
    destruct (_get_preview_params st) as [[b p]|]; cbn [fst active with_metro with_session];
      rewrite Hact;
      (destruct (_validate_before_start _) as [[[bs be] bpm]|e] eqn:Ev;
       [|discriminate]);
      apply validate_ok in Ev as (_ & _ & Hb & _ & _ & Hr);
      intros _; exists bpm; auto. }
  destruct Hbpm as (bpm0 & Hb0 & Hr0).
  revert Hstart. unfold toggle_preview_metronome. rewrite Hact, Hrun.
  unfold _get_preview_params. rewrite Hb0.
  replace (bpm0 <=? 0) with false by (symmetry; apply Z.leb_gt; lia).
  cbn [fst snd].
  set (bpb0 := if selected_beats_per_bar st =? 0 then 4
               else selected_beats_per_bar st).
  assert (Hm1 : Metronome.is_running (Metronome.start (metro st) bpm0 bpb0) = true /\
                Metronome.stop_set (Metronome.start (metro st) bpm0 bpb0) = false).
  { unfold Metronome.start, Metronome.is_running, Metronome.update in *.
    simpl. rewrite Hrun. simpl. auto. }
  destruct Hm1 as [Hrun1 Hstop1].
  unfold start_session. cbn [active with_metro with_session metro].
  rewrite Hact.
  destruct (_validate_before_start _) as [[[bs be] bpm]|e]; [|discriminate].
  rewrite Hrun1. intros H. injection H as <-.
  split; [reflexivity|]. split; [reflexivity|]. split; [exact Hstop1|].
  split; [eexists; eexists; split; reflexivity|].
  cbn. unfold Metronome.is_running in Hrun1. auto.
Qed.

Lemma session_takes_over_preview_witness :
  Metronome.thread_alive
    (metro (fst (start_session (fst (toggle_preview_metronome example_idle))
                   "20260101_100000" "2026-01-01 10:00:00" 0))) = true /\
  Metronome.stop_set
    (metro (fst (start_session (fst (toggle_preview_metronome example_idle))
                   "20260101_100000" "2026-01-01 10:00:00" 0))) = false.
Proof.
  destruct (session_takes_over_preview example_idle
              (fst (start_session (fst (toggle_preview_metronome example_idle))
                      "20260101_100000" "2026-01-01 10:00:00" 0))
              "20260101_100000" "2026-01-01 10:00:00" 0)
    as (_ & _ & _ & _ & H1 & H2).
  - reflexivity.
  - reflexivity.
  - reflexivity.
  - split; assumption.
Defined.

End SessionMore.

(* ================================================================== *)
(** * Facts about the song index *)
(* ================================================================== *)

Section SongFacts.

Import Songs.

(** ** The next index *)

Lemma fold_index_max (songs : list SongRow) (acc : Z) :
  let m := fold_left
             (fun max_idx r =>
                match song_index r with
                | Some n => Z.max max_idx n
                | None => max_idx
                end) songs acc in
  acc <= m /\
  forall r n, In r songs -> song_index r = Some n -> n <= m.
Proof.
  revert acc. induction songs as [|x songs IH]; intros acc; simpl.
  - split; [lia|intros r n []].
  - destruct (song_index x) as [k|] eqn:Ex.
    + destruct (IH (Z.max acc k)) as [H1 H2]. split; [lia|].
      intros r n [<-|Hin] Hr; [|eapply H2; eauto].
      rewrite Ex in Hr. injection Hr as <-. lia.
    + destruct (IH acc) as [H1 H2]. split; [exact H1|].
      intros r n [<-|Hin] Hr; [congruence|eapply H2; eauto].
Qed.

Lemma next_song_index_is_unused_aux (songs : list SongRow) :
  1 <= next_song_index songs /\
  forall r n, In r songs -> song_index r = Some n ->
              n < next_song_index songs.
Proof.
  unfold next_song_index.
  destruct (fold_index_max songs 0) as [H1 H2].
  split; [lia|].
  intros r n Hin Hr. specialize (H2 r n Hin Hr). lia.
Qed.

(** X17: the index given to a new song is positive and larger than the index
    of every loaded row whose index field is a number, so no loaded row
    has it and looking it up among them finds nothing. *)
Theorem next_song_index_is_unused :
  forall songs : list SongRow,
    1 <= next_song_index songs /\
    (forall r n, In r songs -> song_index r = Some n ->
                 n < next_song_index songs) /\
    select_song_by_index songs (next_song_index songs) = None.
Proof.
  intros songs.
  destruct (next_song_index_is_unused_aux songs) as [H1 H2].
  split; [exact H1|]. split; [exact H2|].
  unfold select_song_by_index.
  destruct (find (has_index (next_song_index songs)) songs) as [x|] eqn:E;
    [|reflexivity].
  apply find_some in E as [Hin Hx]. unfold has_index in Hx.
  destruct (song_index x) as [n|] eqn:En; [|discriminate].
  apply Z.eqb_eq in Hx. specialize (H2 x n Hin En). lia.
Qed.

(** ** Loading *)

Lemma insert_by_key_perm (r : SongRow) (l : list SongRow) :
  Permutation (insert_by_key r l) (r :: l).
Proof.
  induction l as [|x xs IH]; simpl; [reflexivity|].
  destruct (keyfun r <=? keyfun x); [reflexivity|].
  rewrite IH. apply perm_swap.
Qed.

Lemma sort_by_key_perm (l : list SongRow) : Permutation (sort_by_key l) l.
Proof.
  induction l as [|x xs IH]; simpl; [reflexivity|].
  rewrite insert_by_key_perm. constructor. exact IH.
Qed.

Lemma insert_by_key_sorted (r : SongRow) (l : list SongRow) :
  StronglySorted key_le l -> StronglySorted key_le (insert_by_key r l).
Proof.
  induction 1 as [|x xs Hs IH Hall]; simpl.
  - constructor; constructor.
  - destruct (keyfun r <=? keyfun x) eqn:E.
    + apply Z.leb_le in E. constructor; [constructor; assumption|].
      constructor; [exact E|].
      eapply Forall_impl; [|exact Hall]. unfold key_le. intros y Hy. lia.
    + apply Z.leb_gt in E. constructor; [exact IH|].
      rewrite Forall_forall in *. intros y Hy.
      apply (Permutation_in _ (insert_by_key_perm r xs)) in Hy.
      destruct Hy as [<-|Hy]; [unfold key_le; lia|apply Hall; exact Hy].
Qed.

Lemma sort_by_key_sorted (l : list SongRow) :
  StronglySorted key_le (sort_by_key l).
Proof.
  induction l as [|x xs IH]; simpl; [constructor|].
  apply insert_by_key_sorted. exact IH.
Qed.

Lemma filter_insert_by_key (k : Z) (r : SongRow) (l : list SongRow) :
  filter (fun x => keyfun x =? k) (insert_by_key r l) =
  filter (fun x => keyfun x =? k) (r :: l).
Proof.
  induction l as [|x xs IH]; [reflexivity|].
  cbn [insert_by_key]. destruct (keyfun r <=? keyfun x) eqn:E; [reflexivity|].
  apply Z.leb_gt in E. cbn [filter] in *.
  destruct (keyfun r =? k) eqn:Er.
  - apply Z.eqb_eq in Er.
    replace (keyfun x =? k) with false by (symmetry; apply Z.eqb_neq; lia).
    exact IH.
  - rewrite IH. reflexivity.
Qed.

Lemma filter_sort_by_key (k : Z) (l : list SongRow) :
  filter (fun x => keyfun x =? k) (sort_by_key l) =
  filter (fun x => keyfun x =? k) l.
Proof.
  induction l as [|x xs IH]; [reflexivity|].
  cbn [sort_by_key fold_right]. rewrite filter_insert_by_key.
  cbn [filter]. fold (sort_by_key xs). rewrite IH. reflexivity.
Qed.

(** X18: what [load_songs] leaves in [self.songs]: the rows of the file, each
    with a blank meter field replaced by 4, in ascending order of index
    with the rows whose index is not a number placed as if it were
    [10^9]; rows with the same index keep the order they have in the
    file; and no row is left with a blank meter field. *)
Theorem load_songs_sorts_and_completes :
  forall file : list SongRow,
    Permutation (load_songs file) (map fill_defaults file) /\
    StronglySorted (fun x y => keyfun x <= keyfun y) (load_songs file) /\
    (forall k : Z,
        filter (fun x => keyfun x =? k) (load_songs file) =
        filter (fun x => keyfun x =? k) (map fill_defaults file)) /\
    Forall (fun r => beats_per_bar r <> Blank /\ beat_unit r <> Blank)
           (load_songs file).
Proof.
  intros file. unfold load_songs.
  split; [apply sort_by_key_perm|].
  split; [apply sort_by_key_sorted|].
  split; [intros k; apply filter_sort_by_key|].
  rewrite Forall_forall. intros r Hin.
  apply (Permutation_in _ (sort_by_key_perm _)) in Hin.
  apply in_map_iff in Hin as (x & <- & _). simpl.
  destruct (beats_per_bar x), (beat_unit x); simpl; split; discriminate.
Qed.

(** ** Looking a song up *)

Lemma has_index_key (idx : Z) (x : SongRow) :
  has_index idx x = true -> keyfun x = idx.
Proof.
  unfold has_index, keyfun. destruct (song_index x); [|discriminate].
  apply Z.eqb_eq.
Qed.

Lemma filter_has_index (idx : Z) (l : list SongRow) :
  filter (has_index idx) l =
  filter (has_index idx) (filter (fun x => keyfun x =? idx) l).
Proof.
  induction l as [|x xs IH]; [reflexivity|]. cbn [filter].
  destruct (has_index idx x) eqn:E.
  - rewrite (has_index_key idx x E), Z.eqb_refl. cbn [filter].
    rewrite E, IH. reflexivity.
  - destruct (keyfun x =? idx); [cbn [filter]; rewrite E|]; exact IH.
Qed.

Lemma find_is_first_of_filter (p : SongRow -> bool) (l : list SongRow) :
  find p l = hd_error (filter p l).
Proof.
  induction l as [|x xs IH]; [reflexivity|]. simpl.
  destruct (p x); [reflexivity|exact IH].
Qed.

Lemma find_in_loaded (idx : Z) (file : list SongRow) :
  find (has_index idx) (load_songs file) =
  option_map fill_defaults (find (has_index idx) file).
Proof.
  unfold load_songs.
  rewrite find_is_first_of_filter, filter_has_index, filter_sort_by_key,
    <- filter_has_index, <- find_is_first_of_filter.
  induction file as [|x xs IH]; [reflexivity|]. simpl.
  replace (has_index idx (fill_defaults x)) with (has_index idx x)
    by reflexivity.
  destruct (has_index idx x); [reflexivity|exact IH].
Qed.

Lemma cell_int_fill (c : cell) : cell_int (fill_meter c) 4 = cell_int c 4.
Proof. destruct c as [|[n|]]; reflexivity. Qed.

(** X19: selecting by index among the loaded songs finds the first row of the
    file that has this index, even though the loaded list is sorted, and
    reads its meter with 4 in place of a field that is blank or not a
    number; with no such row in the file nothing is selected. *)
Theorem select_finds_first_row_of_file :
  forall (file : list SongRow) (idx : Z),
    select_song_by_index (load_songs file) idx =
    match find (has_index idx) file with
    | Some r =>
        Some {| selected_song_index := idx;
                selected_song_name := song_name r;
                selected_beats_per_bar := cell_int (beats_per_bar r) 4;
                selected_beat_unit := cell_int (beat_unit r) 4 |}
    | None => None
    end.
Proof.
  intros file idx. unfold select_song_by_index. rewrite find_in_loaded.
  destruct (find (has_index idx) file) as [r|]; [|reflexivity].
  simpl. rewrite !cell_int_fill. reflexivity.
Qed.

(** ** Adding a song *)

Lemma find_app_none (p : SongRow -> bool) (l1 l2 : list SongRow) :
  find p l1 = None -> find p (l1 ++ l2) = find p l2.
Proof.
  induction l1 as [|x xs IH]; [reflexivity|]. simpl.
  destruct (p x); [discriminate|exact IH].
Qed.

(** X20: a song that [add_song] accepts can be practised at once: when the
    tracker's list is the loaded file, and [songs.csv] is absent or has
    its header line and a line end after its last line, and can be
    written, an accepted song has a non-empty name, a meter numerator in
    [1,32] and a denominator among 2, 4 and 8; it is appended to the file
    under an index no row of the file has; and the selection made at the
    end is this very song, with the name and meter that were entered.
    Such a song is accepted whenever its name and meter are in order;
    after a last line without a line end nothing is known to be added. *)
Theorem added_song_is_selected :
  forall (name : string) (new_bpb_var new_bu_var : cell) (file : csv_file),
    let songs := load_songs (rows_of file) in
    let idx := next_song_index songs in
    let bpb := cell_int new_bpb_var 4 in
    let bu := cell_int new_bu_var 4 in
    let row := {| song_index := Some idx; song_name := name;
                  beats_per_bar := Text (Some bpb);
                  beat_unit := Text (Some bu) |} in
    (forall (file' songs' : list SongRow) (selection : option Selection),
        add_song name new_bpb_var new_bu_var songs file true =
          Added file' songs' selection ->
        (file = NoFile \/ exists rows, file = File rows true) /\
        name <> EmptyString /\
        1 <= bpb <= 32 /\ (bu = 2 \/ bu = 4 \/ bu = 8) /\
        1 <= idx /\
        (forall r, In r (rows_of file) -> song_index r <> Some idx) /\
        file' = rows_of file ++ [row] /\
        songs' = load_songs file' /\
        selection = Some {| selected_song_index := idx;
                            selected_song_name := name;
                            selected_beats_per_bar := bpb;
                            selected_beat_unit := bu |}) /\
    (name <> EmptyString ->
     1 <= bpb <= 32 -> (bu = 2 \/ bu = 4 \/ bu = 8) ->
     (file = NoFile \/ exists rows, file = File rows true) ->
     exists selection : option Selection,
       add_song name new_bpb_var new_bu_var songs file true =
         Added (rows_of file ++ [row]) (load_songs (rows_of file ++ [row]))
               selection) /\
    (forall rows : list SongRow,
        file = File rows false ->
        add_song name new_bpb_var new_bu_var songs file true = Garbled \/
        add_song name new_bpb_var new_bu_var songs file true = Rejected).
Proof.
  intros name bc uc file. cbv zeta. split; [|split].
  - intros file' songs' selection. unfold add_song.
    destruct (String.eqb name EmptyString) eqn:En; [discriminate|].
    destruct ((cell_int bc 4 <=? 0) || (32 <? cell_int bc 4)) eqn:Eb;
      [discriminate|].
    destruct ((cell_int uc 4 =? 2) || (cell_int uc 4 =? 4) || (cell_int uc 4 =? 8))
      eqn:Eu; [|discriminate].
    simpl negb. cbv iota. intros H.
    assert (Hfile0 : file = NoFile \/ exists rows, file = File rows true).
    { destruct file as [|rows [|]]; [left; reflexivity|right; eauto|discriminate]. }
    assert (H' : Added (rows_of file ++
                         [{| song_index := Some (next_song_index (load_songs (rows_of file)));
                             song_name := name;
                             beats_per_bar := Text (Some (cell_int bc 4));
                             beat_unit := Text (Some (cell_int uc 4)) |}])
                       (load_songs (rows_of file ++
                         [{| song_index := Some (next_song_index (load_songs (rows_of file)));
                             song_name := name;
                             beats_per_bar := Text (Some (cell_int bc 4));
                             beat_unit := Text (Some (cell_int uc 4)) |}]))
                       (select_song_by_index
                          (load_songs (rows_of file ++
                            [{| song_index := Some (next_song_index (load_songs (rows_of file)));
                                song_name := name;
                                beats_per_bar := Text (Some (cell_int bc 4));
                                beat_unit := Text (Some (cell_int uc 4)) |}]))
                          (next_song_index (load_songs (rows_of file)))) =
                 Added file' songs' selection).
    { destruct file as [|rows [|]]; [exact H|exact H|discriminate]. }
    clear H. injection H' as <- <- <-.
    apply String.eqb_neq in En.
    apply orb_false_iff in Eb as [Eb1 Eb2].
    apply Z.leb_gt in Eb1. apply Z.ltb_ge in Eb2.
    destruct (next_song_index_is_unused_aux (load_songs (rows_of file)))
      as (Hpos & Hfresh).
    assert (Hfile : forall r, In r (rows_of file) ->
                      song_index r <> Some (next_song_index (load_songs (rows_of file)))).
    { intros r Hin Hr.
      assert (Hl : In (fill_defaults r) (load_songs (rows_of file))).
      { unfold load_songs.
        apply (Permutation_in _ (Permutation_sym (sort_by_key_perm _))).
        apply in_map. exact Hin. }
      specialize (Hfresh (fill_defaults r) _ Hl Hr). lia. }
    split; [exact Hfile0|].
    split; [exact En|]. split; [lia|]. split.
    { apply orb_true_iff in Eu as [Eu|Eu];
        [apply orb_true_iff in Eu as [Eu|Eu]|]; apply Z.eqb_eq in Eu; auto. }
    split; [exact Hpos|]. split; [exact Hfile|].
    split; [reflexivity|]. split; [reflexivity|].
    unfold select_song_by_index. rewrite find_in_loaded, find_app_none.
    + simpl. unfold has_index. simpl. rewrite Z.eqb_refl. reflexivity.
    + destruct (find (has_index (next_song_index (load_songs (rows_of file))))
                     (rows_of file)) as [x|] eqn:E; [|reflexivity].
      apply find_some in E as [Hin Hx]. unfold has_index in Hx.
      destruct (song_index x) as [n|] eqn:Ex; [|discriminate].
      apply Z.eqb_eq in Hx. subst n. exfalso. exact (Hfile x Hin Ex).
  - intros Hname Hbpb Hbu Hfile. unfold add_song.
    replace (String.eqb name EmptyString) with false
      by (symmetry; apply String.eqb_neq; exact Hname).
    replace ((cell_int bc 4 <=? 0) || (32 <? cell_int bc 4)) with false.
    2:{ symmetry. apply orb_false_iff.
        split; [apply Z.leb_gt|apply Z.ltb_ge]; lia. }
    replace ((cell_int uc 4 =? 2) || (cell_int uc 4 =? 4) || (cell_int uc 4 =? 8))
      with true.
    2:{ symmetry. destruct Hbu as [E|[E|E]]; rewrite E; reflexivity. }
    simpl negb. cbv iota.
    destruct Hfile as [E|(rows & E)]; rewrite E; eexists; reflexivity.
  - intros rows ->. unfold add_song.
    destruct (String.eqb name EmptyString); [right; reflexivity|].
    destruct ((cell_int bc 4 <=? 0) || (32 <? cell_int bc 4));
      [right; reflexivity|].
    destruct (negb ((cell_int uc 4 =? 2) || (cell_int uc 4 =? 4) || (cell_int uc 4 =? 8)));
      [right; reflexivity|].
    left. reflexivity.
Qed.

Lemma added_song_is_selected_witness :
  exists file' songs' : list SongRow,
    add_song "Autumn Leaves" (Text (Some 3)) (Text (Some 4))
             (load_songs example_file) (File example_file true) true =
      Added file' songs'
            (Some {| selected_song_index := 3;
                     selected_song_name := "Autumn Leaves";
                     selected_beats_per_bar := 3;
                     selected_beat_unit := 4 |}) /\
    forall r, In r example_file -> song_index r <> Some 3.
Proof.
  destruct (added_song_is_selected "Autumn Leaves" (Text (Some 3)) (Text (Some 4))
              (File example_file true)) as (H & Hadd & _).
  destruct Hadd as (selection & Hsel).
  - discriminate.
  - simpl; lia.
  - simpl; auto.
  - right. exists example_file. reflexivity.
  - destruct (H _ _ _ Hsel) as (_ & _ & _ & _ & _ & Hfresh & _ & _ & Hs).
    cbn [rows_of] in Hsel, Hfresh.
    eexists. eexists. split; [|exact Hfresh].
    rewrite Hsel, Hs. reflexivity.
Defined.

(** The example file as loaded: sorted by index, the row without a
    number last, the blank meter of the old row filled in. *)
Example example_file_loaded :
  map song_index (load_songs example_file) = [Some 1; Some 2; None] /\
  select_song_by_index (load_songs example_file) 1 =
    Some {| selected_song_index := 1; selected_song_name := "Donna Lee";
            selected_beats_per_bar := 4; selected_beat_unit := 4 |}.
Proof. split; reflexivity. Qed.

End SongFacts.

(* ================================================================== *)
(** * A new session right after the last one *)
(* ================================================================== *)

Section SessionRestart.

Import Tracker.

Lemma validate_reads_entries (st st' : PracticeTracker) :
  selected_song_index st' = selected_song_index st ->
  selected_song_name st' = selected_song_name st ->
  bar_start_var st' = bar_start_var st ->
  bar_end_var st' = bar_end_var st ->
  bpm_var st' = bpm_var st ->
  _validate_before_start st' = _validate_before_start st.
Proof.
  intros H1 H2 H3 H4 H5. unfold _validate_before_start.
  rewrite H1, H2, H3, H4, H5. reflexivity.
Qed.

(** X16: [cancel_session] sets the stop event and returns at once, while the
    cadence thread ends a little later.  A session started in between
    finds the metronome still running and only updates it: the stop event
    stays set, so the thread ends and the new session has no metronome.
    Started after the thread has ended, the same session gets a new
    thread with the event cleared. *)
Theorem session_started_before_thread_end_loses_metronome :
  forall (st : PracticeTracker) (file : list Log.SessionRow)
         (sid iso : string) (epoch : Q),
    active st = true ->
    Metronome.thread_alive (metro st) = true ->
    let st1 := fst (fst (cancel_session st file)) in
    snd (start_session st1 sid iso epoch) = Completed ->
    Metronome.stop_set (metro (fst (start_session st1 sid iso epoch))) = true /\
    Metronome.is_running
      (metro (thread_ends (fst (start_session st1 sid iso epoch)))) = false /\
    snd (start_session (thread_ends st1) sid iso epoch) = Completed /\
    Metronome.stop_set
      (metro (fst (start_session (thread_ends st1) sid iso epoch))) = false /\
    Metronome.is_running
      (metro (fst (start_session (thread_ends st1) sid iso epoch))) = true.
Proof.
  intros st file sid iso epoch Hact Halive. cbv zeta.
  unfold cancel_session. rewrite Hact. cbn [negb fst snd].
  assert (Hv : _validate_before_start (thread_ends (end_session st)) =
               _validate_before_start (end_session st))
    by (apply validate_reads_entries; reflexivity).
  unfold start_session. rewrite Hv.
  cbn [active end_session with_session thread_ends with_metro metro].
  destruct (_validate_before_start (end_session st)) as [[[bs be] bpm]|e];
    [|discriminate].
  intros _.
  unfold Metronome.is_running, Metronome.apply_event, Metronome.stop,
    Metronome.start, Metronome.update.
  cbn. rewrite Halive. cbn. auto.
Qed.

Lemma session_started_before_thread_end_loses_metronome_witness :
  Metronome.stop_set
    (metro (fst (start_session (fst (fst (cancel_session example_one_rep [])))
                   "20260101_100500" "2026-01-01 10:05:00" 300))) = true /\
  Metronome.stop_set
    (metro (fst (start_session
                   (thread_ends (fst (fst (cancel_session example_one_rep []))))
                   "20260101_100500" "2026-01-01 10:05:00" 300))) = false.
Proof.
  destruct (session_started_before_thread_end_loses_metronome
              example_one_rep [] "20260101_100500" "2026-01-01 10:05:00" 300)
    as (H1 & _ & _ & H2 & _).
  - reflexivity.
  - reflexivity.
  - reflexivity.
  - split; assumption.
Defined.

End SessionRestart.

